(** * Halide autoscheduler core: rational Jacobians, spans and the beam search

    A shallow embedding of
    - [src/autoschedulers/anderson2021/FunctionDAG.h]
      ([OptionalRational], [LoadJacobian], [Span],
      [Stage::get_loop_index_from_var]) and
    - [apps/autoscheduler/AutoSchedule.cpp]
      ([optimal_schedule_pass], [freeze_lowest_cost_stages],
      [optimal_schedule], [configure_pipeline_features], [ProgressBar]),
    together with the properties the specification states about them and
    further properties read off the code. *)

From Stdlib Require Import ZArith Lia Bool List Sorted Ascii.
From stdpp Require Import base option list gmap strings.

Local Open Scope Z_scope.

(** ** Fixed-width integers

    [int32_t] and [int64_t] values are integers of [Z] inside their range.
    Storing a wider value into a narrower field, and arithmetic that leaves
    the range, wraps around in two's complement. *)
Module Int.

Definition wrap (w : Z) (z : Z) : Z :=
  (z + 2 ^ (w - 1)) mod 2 ^ w - 2 ^ (w - 1).

Definition wrap32 : Z -> Z := wrap 32.
Definition wrap64 : Z -> Z := wrap 64.

Definition INT32_MIN : Z := - 2 ^ 31.
Definition INT32_MAX : Z := 2 ^ 31 - 1.
Definition INT64_MIN : Z := - 2 ^ 63.
Definition INT64_MAX : Z := 2 ^ 63 - 1.

Definition in_int32 (z : Z) : Prop := INT32_MIN <= z <= INT32_MAX.
Definition in_int64 (z : Z) : Prop := INT64_MIN <= z <= INT64_MAX.

Lemma wrap32_range z : in_int32 (wrap32 z).
Proof.
  unfold in_int32, wrap32, wrap, INT32_MIN, INT32_MAX.
  pose proof (Z.mod_pos_bound (z + 2 ^ (32 - 1)) (2 ^ 32) ltac:(lia)).
  change (2 ^ (32 - 1)) with 2147483648 in *.
  change (2 ^ 32) with 4294967296 in *.
  change (2 ^ 31) with 2147483648. lia.
Qed.

Lemma wrap64_range z : in_int64 (wrap64 z).
Proof.
  unfold in_int64, wrap64, wrap, INT64_MIN, INT64_MAX.
  pose proof (Z.mod_pos_bound (z + 2 ^ (64 - 1)) (2 ^ 64) ltac:(lia)).
  change (2 ^ (64 - 1)) with 9223372036854775808 in *.
  change (2 ^ 64) with 18446744073709551616 in *.
  change (2 ^ 63) with 9223372036854775808. lia.
Qed.

Lemma wrap32_id z : in_int32 z -> wrap32 z = z.
Proof.
  unfold in_int32, wrap32, wrap, INT32_MIN, INT32_MAX.
  change (2 ^ (32 - 1)) with 2147483648.
  change (2 ^ 32) with 4294967296.
  change (2 ^ 31) with 2147483648.
  intros H. rewrite Z.mod_small; lia.
Qed.

Lemma wrap64_id z : in_int64 z -> wrap64 z = z.
Proof.
  unfold in_int64, wrap64, wrap, INT64_MIN, INT64_MAX.
  change (2 ^ (64 - 1)) with 9223372036854775808.
  change (2 ^ 64) with 18446744073709551616.
  change (2 ^ 63) with 9223372036854775808.
  intros H. rewrite Z.mod_small; lia.
Qed.

Lemma in_int32_int64 z : in_int32 z -> in_int64 z.
Proof.
  unfold in_int32, in_int64, INT32_MIN, INT32_MAX, INT64_MIN, INT64_MAX.
  change (2 ^ 31) with 2147483648.
  change (2 ^ 63) with 9223372036854775808. lia.
Qed.

(** Narrowing to 32 bits forgets an earlier wrap at 64 bits. *)
Lemma wrap32_wrap64 z : wrap32 (wrap64 z) = wrap32 z.
Proof.
  unfold wrap32, wrap64, wrap.
  change (2 ^ (32 - 1)) with 2147483648.
  change (2 ^ 32) with 4294967296.
  change (2 ^ (64 - 1)) with 9223372036854775808.
  change (2 ^ 64) with 18446744073709551616.
  f_equal.
  pose proof (Z.div_mod (z + 9223372036854775808) 18446744073709551616
                ltac:(lia)) as E.
  set (q := (z + 9223372036854775808) / 18446744073709551616) in *.
  replace ((z + 9223372036854775808) mod 18446744073709551616
           - 9223372036854775808 + 2147483648)
    with (z + 2147483648 + (- q * 4294967296) * 4294967296) by lia.
  apply Z.mod_add. lia.
Qed.

Lemma in_int32_abs z : in_int32 z -> Z.abs z <= 2 ^ 31.
Proof. unfold in_int32, INT32_MIN, INT32_MAX. lia. Qed.

End Int.

(** ** [OptionalRational]

    [struct OptionalRational { int32_t numerator = 0, denominator = 0; ... }].
    The value exists when the denominator is not zero. *)
Module Rat.
Import Int.

Record OptionalRational : Type := mkRat {
  numerator : Z;
  denominator : Z
}.

(** The fields are [int32_t]. *)
Definition wf (a : OptionalRational) : Prop :=
  in_int32 (numerator a) /\ in_int32 (denominator a).

(** [OptionalRational() = default]: both fields take their initialiser 0,
    the value that does not exist. *)
Definition undefined : OptionalRational := mkRat 0 0.

(** [OptionalRational(int64_t n, int64_t d) : numerator(n), denominator(d)]:
    both arguments are narrowed to the 32-bit fields. *)
Definition make (n d : Z) : OptionalRational :=
  mkRat (wrap32 n) (wrap32 d).

(** [bool exists() const]. *)
Definition exists_ (a : OptionalRational) : bool :=
  negb (denominator a =? 0).

(** [bool operator==(int x) const]: [x * denominator] is an [int] product. *)
Definition eq_int (a : OptionalRational) (x : Z) : bool :=
  exists_ a && (numerator a =? wrap32 (x * denominator a)).

(** [bool operator==(const OptionalRational &other) const]: both products
    are [int] products. *)
Definition eq_rat (a other : OptionalRational) : bool :=
  Bool.eqb (exists_ a) (exists_ other)
  && (wrap32 (numerator a * denominator other)
      =? wrap32 (denominator a * numerator other)).

(** [bool operator<(int x) const] and its siblings. *)
Definition lt_int (a : OptionalRational) (x : Z) : bool :=
  if denominator a =? 0 then false
  else if 0 <? denominator a
       then numerator a <? wrap32 (x * denominator a)
       else wrap32 (x * denominator a) <? numerator a.

Definition le_int (a : OptionalRational) (x : Z) : bool :=
  if denominator a =? 0 then false
  else if 0 <? denominator a
       then numerator a <=? wrap32 (x * denominator a)
       else wrap32 (x * denominator a) <=? numerator a.

Definition gt_int (a : OptionalRational) (x : Z) : bool :=
  if negb (exists_ a) then false else negb (le_int a x).

Definition ge_int (a : OptionalRational) (x : Z) : bool :=
  if negb (exists_ a) then false else negb (lt_int a x).

(** [OptionalRational operator*(int64_t factor) const]: the product is
    taken at 64 bits and the constructor narrows it. *)
Definition mul_int (a : OptionalRational) (factor : Z) : OptionalRational :=
  if eq_int a 0 then a
  else
    let num := wrap64 (numerator a * factor) in
    make num (denominator a).

(** [OptionalRational operator*(const OptionalRational &other) const]:
    both products are [int32_t * int32_t], taken at 32 bits and only then
    widened to the [int64_t] locals. *)
Definition mul_rat (a other : OptionalRational) : OptionalRational :=
  if eq_int a 0 then a
  else if eq_int other 0 then other
  else
    let num := wrap32 (numerator a * numerator other) in
    let den := wrap32 (denominator a * denominator other) in
    make num den.

(** The exact products the specification speaks of, on unbounded integers. *)
Definition mul_int_exact (a : OptionalRational) (factor : Z) : OptionalRational :=
  mkRat (numerator a * factor) (denominator a).

Definition mul_rat_exact (a other : OptionalRational) : OptionalRational :=
  mkRat (numerator a * numerator other) (denominator a * denominator other).

(** The sum the specification promises: [(n1*d2 + n2*d1) / (d1*d2)] divided
    through by the greatest common divisor of its two parts. *)
Definition reduced_sum (a b : OptionalRational) : OptionalRational :=
  let n := numerator a * denominator b + numerator b * denominator a in
  let d := denominator a * denominator b in
  let g := Z.gcd n d in
  mkRat (n / g) (d / g).

Section Addition.

(** [int64_t gcd(int64_t, int64_t)] and [int64_t lcm(int64_t, int64_t)] are
    declared outside the files at hand; [operator+=] is stated over them. *)
Variable gcd : Z -> Z -> Z.
Variable lcm : Z -> Z -> Z.

(** [void operator+=(const OptionalRational &other)], as the value of
    [*this] afterwards.  [/] on C++ integers truncates ([Z.quot]). *)
Definition add (a other : OptionalRational) : OptionalRational :=
  if Z.land (denominator a) (denominator other) =? 0 then mkRat 0 0
  else if denominator a =? denominator other then
    mkRat (wrap32 (numerator a + numerator other)) (denominator a)
  else
    let l := lcm (denominator a) (denominator other) in
    let numerator1 := wrap32 (wrap64 (numerator a * (l ÷ denominator a))) in
    let denominator1 := wrap32 l in
    let numerator2 :=
      wrap32 (wrap64 (numerator1
                      + wrap64 (numerator other * (l ÷ denominator other)))) in
    let g := gcd numerator2 denominator1 in
    mkRat (wrap32 (numerator2 ÷ g)) (wrap32 (denominator1 ÷ g)).

(** The same steps on unbounded integers. *)
Definition add_exact (a other : OptionalRational) : OptionalRational :=
  if Z.land (denominator a) (denominator other) =? 0 then mkRat 0 0
  else if denominator a =? denominator other then
    mkRat (numerator a + numerator other) (denominator a)
  else
    let l := lcm (denominator a) (denominator other) in
    let n := numerator a * (l ÷ denominator a)
             + numerator other * (l ÷ denominator other) in
    let g := gcd n l in
    mkRat (n ÷ g) (l ÷ g).

End Addition.

(** *** Facts about the comparisons and products *)

Lemma exists_true a : exists_ a = true <-> denominator a <> 0.
Proof. unfold exists_. rewrite negb_true_iff, Z.eqb_neq. tauto. Qed.

Lemma exists_false a : exists_ a = false <-> denominator a = 0.
Proof. unfold exists_. rewrite negb_false_iff, Z.eqb_eq. tauto. Qed.

Lemma wrap32_0 : wrap32 0 = 0.
Proof. reflexivity. Qed.

Lemma eq_int_0_numerator a : eq_int a 0 = true -> numerator a = 0.
Proof.
  unfold eq_int. rewrite andb_true_iff, Z.eqb_eq. simpl.
  intros [_ H]. exact H.
Qed.

Lemma make_id n d : in_int32 n -> in_int32 d -> make n d = mkRat n d.
Proof. intros Hn Hd. unfold make. now rewrite !wrap32_id. Qed.

Lemma wrap32_add_wrap64_r x y : wrap32 (x + wrap64 y) = wrap32 (x + y).
Proof.
  unfold wrap32, wrap64, wrap.
  change (2 ^ (32 - 1)) with 2147483648.
  change (2 ^ 32) with 4294967296.
  change (2 ^ (64 - 1)) with 9223372036854775808.
  change (2 ^ 64) with 18446744073709551616.
  f_equal.
  pose proof (Z.div_mod (y + 9223372036854775808) 18446744073709551616
                ltac:(lia)) as E.
  set (q := (y + 9223372036854775808) / 18446744073709551616) in *.
  replace (x + ((y + 9223372036854775808) mod 18446744073709551616
                - 9223372036854775808) + 2147483648)
    with (x + y + 2147483648 + (- q * 4294967296) * 4294967296) by lia.
  apply Z.mod_add. lia.
Qed.

(** Exact division: when [g] divides [x], truncating division by [g]
    is the cofactor. *)
Lemma quot_exact_mul x g : g <> 0 -> (g | x) -> x = (x ÷ g) * g.
Proof.
  intros Hg [k ->]. now rewrite Z.quot_mul.
Qed.

Lemma abs_quot_le x g : g <> 0 -> (g | x) -> Z.abs (x ÷ g) <= Z.abs x.
Proof.
  intros Hg Hd. pose proof (quot_exact_mul x g Hg Hd) as E.
  rewrite E at 2. rewrite Z.abs_mul.
  assert (1 <= Z.abs g) by lia. nia.
Qed.

Definition in_sym32 (z : Z) : Prop := Z.abs z <= INT32_MAX.

Lemma in_sym32_int32 z : in_sym32 z -> in_int32 z.
Proof. unfold in_sym32, in_int32, INT32_MIN, INT32_MAX. lia. Qed.

Section AdditionFacts.

Variable gcd : Z -> Z -> Z.
Variable lcm : Z -> Z -> Z.

(** What [operator+=] needs of the two library functions: on 32-bit
    arguments they return the greatest common divisor and the least common
    multiple, up to sign. *)
Hypothesis gcd_spec :
  forall x y, in_int32 x -> in_int32 y -> Z.abs (gcd x y) = Z.gcd x y.
Hypothesis lcm_spec :
  forall x y, in_int32 x -> in_int32 y -> Z.abs (lcm x y) = Z.lcm x y.

Lemma add_undefined a b :
  denominator a = 0 \/ denominator b = 0 -> add gcd lcm a b = mkRat 0 0.
Proof.
  intros H. unfold add.
  assert (Z.land (denominator a) (denominator b) = 0) as ->.
  { destruct H as [-> | ->]; [apply Z.land_0_l | apply Z.land_0_r]. }
  reflexivity.
Qed.

Lemma land_nonzero x y : Z.land x y <> 0 -> x <> 0 /\ y <> 0.
Proof.
  intros H; split; intros ->; apply H; [apply Z.land_0_l | apply Z.land_0_r].
Qed.

Lemma add_same_denominator a b :
  denominator a = denominator b -> denominator a <> 0 ->
  add gcd lcm a b
  = mkRat (wrap32 (numerator a + numerator b)) (denominator a).
Proof.
  intros E Hd. unfold add. rewrite <- E, Z.land_diag.
  destruct (Z.eqb_spec (denominator a) 0) as [|_]; [contradiction|].
  now rewrite Z.eqb_refl.
Qed.

(** The general path without overflow: the stored fields are the exact
    ones. *)
Lemma add_general_exact a b :
  wf a -> wf b ->
  denominator a <> denominator b ->
  Z.land (denominator a) (denominator b) <> 0 ->
  let l := lcm (denominator a) (denominator b) in
  let n := numerator a * (l ÷ denominator a)
           + numerator b * (l ÷ denominator b) in
  in_sym32 l -> in_int32 (numerator a * (l ÷ denominator a)) -> in_sym32 n ->
  (denominator a | l) /\ (denominator b | l) /\ l <> 0 /\
  gcd n l <> 0 /\ (gcd n l | n) /\ (gcd n l | l) /\
  Z.abs (gcd n l) = Z.gcd n l /\
  add gcd lcm a b = mkRat (n ÷ gcd n l) (l ÷ gcd n l).
Proof.
  intros [Hna Hda] [Hnb Hdb] Hne Hland l n Hl Hn1 Hn.
  destruct (land_nonzero _ _ Hland) as [Hda0 Hdb0].
  pose proof (lcm_spec _ _ Hda Hdb) as Habs. fold l in Habs.
  assert (Hdl : (denominator a | l)).
  { apply Z.divide_abs_r. rewrite Habs. apply Z.divide_lcm_l. }
  assert (Hdl' : (denominator b | l)).
  { apply Z.divide_abs_r. rewrite Habs. apply Z.divide_lcm_r. }
  assert (Hl0 : l <> 0).
  { intros E. rewrite E in Habs. simpl in Habs. symmetry in Habs.
    apply Z.lcm_eq_0 in Habs. tauto. }
  pose proof (gcd_spec n l (in_sym32_int32 _ Hn) (in_sym32_int32 _ Hl)) as Hg.
  assert (Hg0 : gcd n l <> 0).
  { intros E. rewrite E in Hg. simpl in Hg. symmetry in Hg.
    apply Z.gcd_eq_0 in Hg. tauto. }
  assert (Hgn : (gcd n l | n)).
  { apply Z.divide_abs_l. rewrite Hg. apply Z.gcd_divide_l. }
  assert (Hgl : (gcd n l | l)).
  { apply Z.divide_abs_l. rewrite Hg. apply Z.gcd_divide_r. }
  repeat (split; [assumption|]).
  unfold add.
  destruct (Z.eqb_spec (Z.land (denominator a) (denominator b)) 0);
    [contradiction|].
  destruct (Z.eqb_spec (denominator a) (denominator b)); [contradiction|].
  fold l.
  rewrite (wrap32_wrap64 (numerator a * (l ÷ denominator a))).
  rewrite (wrap32_id (numerator a * (l ÷ denominator a))) by assumption.
  rewrite wrap32_wrap64, wrap32_add_wrap64_r. fold n.
  rewrite (wrap32_id n) by now apply in_sym32_int32.
  rewrite (wrap32_id l) by now apply in_sym32_int32.
  f_equal; apply wrap32_id, in_sym32_int32; unfold in_sym32 in *;
    etransitivity; [apply abs_quot_le| |apply abs_quot_le|]; assumption.
Qed.

End AdditionFacts.

(** *** Equality *)

(** C2 (as amended): [a == b] holds exactly when both sides have the same
    existence status and their 32-bit cross products agree, in both
    directions and also when a product wraps around.  Two values
    that do not exist are therefore equal; a value that exists never equals
    one that does not; and for two existing values whose cross products fit
    in 32 bits, [a == b] is cross-multiplicative equality. *)
Theorem eq_rat_cases (a b : OptionalRational) :
  (eq_rat a b = true <->
   exists_ a = exists_ b /\
   wrap32 (numerator a * denominator b) = wrap32 (denominator a * numerator b))
  /\ (exists_ a = false -> exists_ b = false -> eq_rat a b = true)
  /\ (exists_ a <> exists_ b -> eq_rat a b = false)
  /\ (exists_ a = true -> exists_ b = true ->
      in_int32 (numerator a * denominator b) ->
      in_int32 (denominator a * numerator b) ->
      (eq_rat a b = true
       <-> numerator a * denominator b = denominator a * numerator b)).
Proof.
  unfold eq_rat. split; [|split; [|split]].
  - rewrite andb_true_iff, Z.eqb_eq. split.
    + intros [H1 H2]. split; [now apply Bool.eqb_prop | exact H2].
    + intros [H1 H2]. split; [|exact H2].
      rewrite H1. apply Bool.eqb_reflx.
  - intros Ha Hb. rewrite Ha, Hb. simpl.
    apply exists_false in Ha, Hb. rewrite Ha, Hb.
    rewrite Z.mul_0_r, Z.mul_0_l. reflexivity.
  - intros Hne. destruct (exists_ a), (exists_ b); simpl; congruence.
  - intros Ha Hb H1 H2. rewrite Ha, Hb. simpl.
    rewrite !wrap32_id by assumption. apply Z.eqb_eq.
Qed.

Lemma eq_rat_cases_witness :
  eq_rat (mkRat 65536 1) (mkRat 0 65536) = true
  /\ eq_rat (mkRat 0 0) (mkRat 0 0) = true
  /\ eq_rat (mkRat 1 2) (mkRat 0 0) = false
  /\ (eq_rat (mkRat 1 2) (mkRat 2 4) = true <-> 1 * 4 = 2 * 2).
Proof.
  split; [|split; [|split]].
  - apply (proj1 (eq_rat_cases (mkRat 65536 1) (mkRat 0 65536))).
    split; reflexivity.
  - apply (proj1 (proj2 (eq_rat_cases (mkRat 0 0) (mkRat 0 0))));
      reflexivity.
  - apply (proj1 (proj2 (proj2 (eq_rat_cases (mkRat 1 2) (mkRat 0 0))))).
    simpl. discriminate.
  - apply (proj2 (proj2 (proj2 (eq_rat_cases (mkRat 1 2) (mkRat 2 4)))));
      try reflexivity; unfold in_int32, INT32_MIN, INT32_MAX; simpl; lia.
Defined.

(** C2 (as stated) fails: two values that do not exist compare equal. *)
Lemma eq_rat_undefined_equal :
  exists_ (mkRat 0 0) = false /\ eq_rat (mkRat 0 0) (mkRat 0 0) = true.
Proof. split; reflexivity. Qed.

(** *** Products and sums against the exact values *)

(** When no step leaves the 32-bit fields, [operator+=] stays on its exact
    path. *)
Definition add_fits (lcm : Z -> Z -> Z) (a b : OptionalRational) : Prop :=
  Z.land (denominator a) (denominator b) = 0
  \/ (denominator a = denominator b /\
      in_int32 (numerator a + numerator b))
  \/ (denominator a <> denominator b /\
      let l := lcm (denominator a) (denominator b) in
      in_sym32 l /\ in_int32 (numerator a * (l ÷ denominator a)) /\
      in_sym32 (numerator a * (l ÷ denominator a)
                + numerator b * (l ÷ denominator b))).

Lemma mul_int_fits a factor :
  wf a -> in_int32 (numerator a * factor) ->
  mul_int a factor = mul_int_exact a factor.
Proof.
  intros [Hn Hd] H. unfold mul_int, mul_int_exact.
  destruct (eq_int a 0) eqn:E.
  - apply eq_int_0_numerator in E. destruct a as [n d]; simpl in *.
    subst n. reflexivity.
  - unfold make. rewrite wrap32_wrap64, !wrap32_id by assumption.
    reflexivity.
Qed.

Lemma mul_rat_fits a b :
  wf a -> wf b ->
  in_int32 (numerator a * numerator b) ->
  in_int32 (denominator a * denominator b) ->
  mul_rat a b = if eq_int a 0 then a
                else if eq_int b 0 then b else mul_rat_exact a b.
Proof.
  intros _ _ Hn Hd. unfold mul_rat, mul_rat_exact, make.
  destruct (eq_int a 0); [reflexivity|].
  destruct (eq_int b 0); [reflexivity|].
  now rewrite !wrap32_id by (rewrite ?wrap32_id; assumption).
Qed.

Section Sums.

Variable gcd : Z -> Z -> Z.
Variable lcm : Z -> Z -> Z.
Hypothesis gcd_spec :
  forall x y, in_int32 x -> in_int32 y -> Z.abs (gcd x y) = Z.gcd x y.
Hypothesis lcm_spec :
  forall x y, in_int32 x -> in_int32 y -> Z.abs (lcm x y) = Z.lcm x y.

Lemma add_fits_exact a b :
  wf a -> wf b -> add_fits lcm a b ->
  add gcd lcm a b = add_exact gcd lcm a b.
Proof.
  intros Ha Hb [H | [[E H] | [Hne (Hl & Hn1 & Hn)]]].
  - unfold add, add_exact. now rewrite H.
  - unfold add, add_exact.
    destruct (Z.land (denominator a) (denominator b) =? 0); [reflexivity|].
    rewrite E, Z.eqb_refl. rewrite wrap32_id by assumption. reflexivity.
  - destruct (Z.eq_dec (Z.land (denominator a) (denominator b)) 0) as [Z0|NZ].
    { unfold add, add_exact. now rewrite Z0. }
    destruct (add_general_exact gcd lcm gcd_spec lcm_spec a b Ha Hb Hne NZ
                Hl Hn1 Hn) as (_ & _ & _ & _ & _ & _ & _ & ->).
    unfold add_exact.
    destruct (Z.eqb_spec (Z.land (denominator a) (denominator b)) 0);
      [contradiction|].
    destruct (Z.eqb_spec (denominator a) (denominator b)); [contradiction|].
    reflexivity.
Qed.

(** C1 (as amended): when a denominator is zero the sum is the undefined
    value (0, 0).  For equal non-zero denominators the numerators are added
    and the denominator kept, without reduction.  For different
    denominators that have a set bit in common, and as long as the common
    denominator and the rescaled numerators fit in 32 bits, the result
    exists, has the value n1/d1 + n2/d2 and is in lowest terms. *)
Theorem add_sum (a b : OptionalRational) :
  wf a -> wf b ->
  (denominator a = 0 \/ denominator b = 0 -> add gcd lcm a b = mkRat 0 0)
  /\ (denominator a = denominator b -> denominator a <> 0 ->
      in_int32 (numerator a + numerator b) ->
      add gcd lcm a b = mkRat (numerator a + numerator b) (denominator a))
  /\ (denominator a <> denominator b ->
      Z.land (denominator a) (denominator b) <> 0 ->
      let l := lcm (denominator a) (denominator b) in
      in_sym32 l -> in_int32 (numerator a * (l ÷ denominator a)) ->
      in_sym32 (numerator a * (l ÷ denominator a)
                + numerator b * (l ÷ denominator b)) ->
      let r := add gcd lcm a b in
      denominator r <> 0
      /\ numerator r * (denominator a * denominator b)
         = (numerator a * denominator b + numerator b * denominator a)
           * denominator r
      /\ Z.gcd (numerator r) (denominator r) = 1).
Proof.
  intros Ha Hb. split; [|split].
  - apply add_undefined.
  - intros E Hd Hfit. rewrite add_same_denominator by assumption.
    now rewrite wrap32_id.
  - intros Hne Hland l Hl Hn1 Hn r.
    destruct (add_general_exact gcd lcm gcd_spec lcm_spec a b Ha Hb Hne Hland
                Hl Hn1 Hn)
      as (Hda & Hdb & Hl0 & Hg0 & Hgn & Hgl & Hgabs & Hr).
    fold l in Hda, Hdb, Hl0, Hg0, Hgn, Hgl, Hgabs, Hr.
    set (n := numerator a * (l ÷ denominator a)
              + numerator b * (l ÷ denominator b)) in *.
    set (g := gcd n l) in *.
    destruct (land_nonzero _ _ Hland) as [Hda0 Hdb0].
    pose proof (quot_exact_mul n g Hg0 Hgn) as En.
    pose proof (quot_exact_mul l g Hg0 Hgl) as El.
    pose proof (quot_exact_mul l _ Hda0 Hda) as Ea.
    pose proof (quot_exact_mul l _ Hdb0 Hdb) as Eb.
    subst r. rewrite Hr. simpl.
    split; [|split].
    + intros E. rewrite E in El. simpl in El. contradiction.
    + apply (Z.mul_reg_r _ _ g Hg0).
      transitivity (n * (denominator a * denominator b)); [rewrite En at 2; ring|].
      transitivity ((numerator a * denominator b + numerator b * denominator a)
                    * l); [|rewrite El at 1; ring].
      unfold n.
      set (ka := l ÷ denominator a) in *. set (kb := l ÷ denominator b) in *.
      transitivity (numerator a * denominator b * (ka * denominator a)
                    + numerator b * denominator a * (kb * denominator b));
        [ring|].
      rewrite <- Ea, <- Eb. ring.
    + pose proof (Z.gcd_mul_mono_r (n ÷ g) (l ÷ g) g) as M.
      rewrite <- En, <- El, <- Hgabs in M.
      assert (0 < Z.abs g) by lia.
      pose proof (Z.gcd_nonneg (n ÷ g) (l ÷ g)). nia.
Qed.

(** C3 (as amended): no operation checks for overflow; each returns a value
    whose fields are narrowed to 32 bits.  Whenever the exact intermediate
    numerators and denominators fit in 32 bits, the stored fields are the
    exact ones: [*] by an integer stores (n*f, d); [*] of two rationals
    stores (n1*n2, d1*d2) unless an operand equals zero, which is then
    returned as it is; [+=] stores what its steps give on unbounded
    integers. *)
Theorem arithmetic_exact_when_fits (a b : OptionalRational) :
  wf a -> wf b ->
  (forall factor, in_int32 (numerator a * factor) ->
     mul_int a factor = mul_int_exact a factor)
  /\ (in_int32 (numerator a * numerator b) ->
      in_int32 (denominator a * denominator b) ->
      mul_rat a b = if eq_int a 0 then a
                    else if eq_int b 0 then b else mul_rat_exact a b)
  /\ (add_fits lcm a b -> add gcd lcm a b = add_exact gcd lcm a b).
Proof.
  intros Ha Hb. split; [|split].
  - intros factor. now apply mul_int_fits.
  - now apply mul_rat_fits.
  - now apply add_fits_exact.
Qed.

End Sums.

(** The mathematical gcd and lcm meet what [operator+=] needs. *)
Lemma Zgcd_spec x y : in_int32 x -> in_int32 y -> Z.abs (Z.gcd x y) = Z.gcd x y.
Proof. intros _ _. apply Z.abs_eq, Z.gcd_nonneg. Qed.

Lemma Zlcm_spec x y : in_int32 x -> in_int32 y -> Z.abs (Z.lcm x y) = Z.lcm x y.
Proof. intros _ _. apply Z.abs_eq, Z.lcm_nonneg. Qed.

Ltac range32 :=
  vm_compute; repeat split; discriminate.

Lemma add_sum_witness :
  add Z.gcd Z.lcm (mkRat 1 2) (mkRat 0 0) = mkRat 0 0
  /\ add Z.gcd Z.lcm (mkRat 1 2) (mkRat 1 2) = mkRat 2 2
  /\ (let r := add Z.gcd Z.lcm (mkRat 1 2) (mkRat 1 6) in
      denominator r <> 0
      /\ numerator r * (2 * 6) = (1 * 6 + 1 * 2) * denominator r
      /\ Z.gcd (numerator r) (denominator r) = 1).
Proof.
  split; [|split].
  - apply (proj1 (add_sum Z.gcd Z.lcm Zgcd_spec Zlcm_spec
                    (mkRat 1 2) (mkRat 0 0) ltac:(range32) ltac:(range32))).
    right; reflexivity.
  - apply (proj1 (proj2 (add_sum Z.gcd Z.lcm Zgcd_spec Zlcm_spec
                    (mkRat 1 2) (mkRat 1 2) ltac:(range32) ltac:(range32))));
      [reflexivity | range32 | range32].
  - apply (proj2 (proj2 (add_sum Z.gcd Z.lcm Zgcd_spec Zlcm_spec
                    (mkRat 1 2) (mkRat 1 6) ltac:(range32) ltac:(range32))));
      range32.
Defined.

(** C1 (as stated) fails on the equal-denominator path: 1/2 + 1/2 is stored
    as (2, 2), which is not in lowest terms. *)
Lemma add_same_denominator_not_reduced :
  let r := add Z.gcd Z.lcm (mkRat 1 2) (mkRat 1 2) in
  r = mkRat 2 2
  /\ Z.gcd (numerator r) (denominator r) <> 1
  /\ r <> reduced_sum (mkRat 1 2) (mkRat 1 2).
Proof. simpl. repeat split; discriminate. Qed.

(** The zero test of [operator+=] is a bitwise and of the two denominators:
    1/1 + 1/2 has both denominators non-zero and still gives (0, 0),
    whatever [gcd] and [lcm] are. *)
Lemma add_disjoint_bits_undefined gcd lcm :
  add gcd lcm (mkRat 1 1) (mkRat 1 2) = mkRat 0 0.
Proof. reflexivity. Qed.

Lemma arithmetic_exact_when_fits_witness :
  mul_int (mkRat 3 2) 5 = mkRat 15 2
  /\ mul_rat (mkRat 3 2) (mkRat 5 7) = mkRat 15 14
  /\ add Z.gcd Z.lcm (mkRat 1 2) (mkRat 1 6)
     = add_exact Z.gcd Z.lcm (mkRat 1 2) (mkRat 1 6).
Proof.
  split; [|split].
  - apply (proj1 (arithmetic_exact_when_fits Z.gcd Z.lcm Zgcd_spec Zlcm_spec
                    (mkRat 3 2) (mkRat 5 7) ltac:(range32) ltac:(range32))).
    range32.
  - apply (proj1 (proj2 (arithmetic_exact_when_fits Z.gcd Z.lcm
                    Zgcd_spec Zlcm_spec
                    (mkRat 3 2) (mkRat 5 7) ltac:(range32) ltac:(range32))));
      range32.
  - apply (proj2 (proj2 (arithmetic_exact_when_fits Z.gcd Z.lcm
                    Zgcd_spec Zlcm_spec
                    (mkRat 1 2) (mkRat 1 6) ltac:(range32) ltac:(range32)))).
    right; right. split; [range32|]. repeat split; range32.
Defined.

(** C3 (as stated) fails: 1/1 times 2^32 has an exact numerator that fits in
    64 bits; the call returns (0, 1) and reports nothing. *)
Lemma mul_int_narrows_silently :
  let a := mkRat 1 1 in
  let factor := 2 ^ 32 in
  wf a /\ in_int64 factor /\ in_int64 (numerator a * factor)
  /\ mul_int a factor = mkRat 0 1
  /\ mul_int a factor <> mul_int_exact a factor.
Proof.
  simpl. repeat split;
    try (unfold in_int32, in_int64, INT32_MIN, INT32_MAX, INT64_MIN, INT64_MAX;
         simpl; lia).
  discriminate.
Qed.


(** *** Comparisons with an integer *)

(** A value that does not exist compares false in every direction.  For a
    value that exists, and as long as [x * denominator] fits in 32 bits,
    the five comparisons decide the order of numerator / denominator and
    [x], whatever the sign of the denominator. *)
Theorem compare_int_spec (a : OptionalRational) (x : Z) :
  (exists_ a = false ->
   lt_int a x = false /\ le_int a x = false /\ gt_int a x = false
   /\ ge_int a x = false /\ eq_int a x = false)
  /\ (exists_ a = true -> in_int32 (x * denominator a) ->
      let s := Z.sgn (denominator a) in
      (lt_int a x = true <-> numerator a * s < x * denominator a * s)
      /\ (le_int a x = true <-> numerator a * s <= x * denominator a * s)
      /\ (gt_int a x = true <-> numerator a * s > x * denominator a * s)
      /\ (ge_int a x = true <-> numerator a * s >= x * denominator a * s)
      /\ (eq_int a x = true <-> numerator a = x * denominator a)).
Proof.
  split.
  - intros He. pose proof (proj1 (exists_false a) He) as Hd.
    unfold gt_int, ge_int. unfold lt_int, le_int, eq_int.
    rewrite He, Hd. simpl.
    repeat split.
  - intros He Hfit s. pose proof (proj1 (exists_true a) He) as Hd.
    unfold gt_int, ge_int. unfold lt_int, le_int, eq_int. rewrite He. simpl.
    rewrite (wrap32_id _ Hfit).
    destruct (Z.eqb_spec (denominator a) 0) as [|_]; [contradiction|].
    subst s.
    destruct (Z.ltb_spec 0 (denominator a)) as [Hpos|Hneg].
    + rewrite (Z.sgn_pos _ Hpos), !Z.mul_1_r.
      split; [|split; [|split; [|split]]];
        rewrite ?negb_true_iff, ?Z.ltb_lt, ?Z.leb_le, ?Z.leb_gt, ?Z.ltb_ge,
                ?Z.eqb_eq; lia.
    + rewrite (Z.sgn_neg (denominator a)) by lia.
      split; [|split; [|split; [|split]]];
        rewrite ?negb_true_iff, ?Z.ltb_lt, ?Z.leb_le, ?Z.leb_gt, ?Z.ltb_ge,
                ?Z.eqb_eq; lia.
Qed.

Lemma compare_int_spec_witness :
  lt_int (mkRat 0 0) 5 = false
  /\ (lt_int (mkRat 3 (-2)) (-1) = true <-> 3 * -1 < -1 * -2 * -1).
Proof.
  split.
  - apply (proj1 (compare_int_spec (mkRat 0 0) 5)). reflexivity.
  - apply (proj2 (compare_int_spec (mkRat 3 (-2)) (-1)));
      [reflexivity | vm_compute; repeat split; discriminate].
Defined.

(** *** Existence of products and sums *)

(** A product with an exact zero is that zero, also when the other operand
    does not exist.  Otherwise the product of two rationals exists exactly
    when both operands do (the product of the denominators fitting in 32
    bits).  A product with an integer factor keeps the denominator, and
    with it the existence, of its operand. *)
Theorem product_existence (a b : OptionalRational) :
  (eq_int a 0 = true -> mul_rat a b = a)
  /\ (eq_int a 0 = false -> eq_int b 0 = true -> mul_rat a b = b)
  /\ (eq_int a 0 = true \/ eq_int b 0 = true ->
      eq_int (mul_rat a b) 0 = true)
  /\ (in_int32 (denominator a * denominator b) ->
      exists_ (mul_rat a b)
      = eq_int a 0 || eq_int b 0 || (exists_ a && exists_ b))
  /\ (forall factor, wf a ->
        denominator (mul_int a factor) = denominator a
        /\ exists_ (mul_int a factor) = exists_ a
        /\ (eq_int a 0 = true -> mul_int a factor = a)).
Proof.
  split; [|split; [|split; [|split]]].
  - intros Ha. unfold mul_rat. now rewrite Ha.
  - intros Ha Hb. unfold mul_rat. now rewrite Ha, Hb.
  - intros Hz. unfold mul_rat.
    destruct (eq_int a 0) eqn:Ha; [exact Ha|].
    destruct Hz as [Hz|Hz]; [discriminate|]. now rewrite Hz.
  - intros Hfit. unfold mul_rat.
    destruct (eq_int a 0) eqn:Ha.
    + unfold eq_int in Ha. apply andb_true_iff in Ha as [-> _]. reflexivity.
    + destruct (eq_int b 0) eqn:Hb.
      * unfold eq_int in Hb. apply andb_true_iff in Hb as [-> _]. reflexivity.
      * simpl. unfold exists_, make. simpl.
        pose proof (wrap32_range (denominator a * denominator b)) as Hr.
        rewrite (wrap32_id (denominator a * denominator b) Hfit).
        rewrite (wrap32_id _ Hfit).
        destruct (Z.eqb_spec (denominator a * denominator b) 0) as [E|E];
          destruct (Z.eqb_spec (denominator a) 0);
          destruct (Z.eqb_spec (denominator b) 0); simpl; try reflexivity;
          try lia; nia.
  - intros factor [_ Hd].
    assert (Hden : denominator (mul_int a factor) = denominator a).
    { unfold mul_int. destruct (eq_int a 0); [reflexivity|].
      simpl. now apply wrap32_id. }
    split; [exact Hden|]. split.
    + unfold exists_. now rewrite Hden.
    + intros Ha. unfold mul_int. now rewrite Ha.
Qed.

Lemma product_existence_witness :
  mul_rat (mkRat 0 3) (mkRat 0 0) = mkRat 0 3
  /\ mul_rat (mkRat 0 0) (mkRat 0 3) = mkRat 0 3
  /\ exists_ (mul_rat (mkRat 1 2) (mkRat 0 0)) = false
  /\ exists_ (mul_int (mkRat 0 0) 0) = false.
Proof.
  split; [|split; [|split]].
  - apply (proj1 (product_existence (mkRat 0 3) (mkRat 0 0))). reflexivity.
  - apply (proj1 (proj2 (product_existence (mkRat 0 0) (mkRat 0 3))));
      reflexivity.
  - pose proof (product_existence (mkRat 1 2) (mkRat 0 0))
      as (_ & _ & _ & H & _).
    rewrite H; [reflexivity | vm_compute; repeat split; discriminate].
  - pose proof (product_existence (mkRat 0 0) (mkRat 0 0))
      as (_ & _ & _ & _ & H).
    destruct (H 0) as (_ & -> & _);
      [vm_compute; repeat split; discriminate | reflexivity].
Defined.

Section SumExists.

Variable gcd : Z -> Z -> Z.
Variable lcm : Z -> Z -> Z.
Hypothesis gcd_spec :
  forall x y, in_int32 x -> in_int32 y -> Z.abs (gcd x y) = Z.gcd x y.
Hypothesis lcm_spec :
  forall x y, in_int32 x -> in_int32 y -> Z.abs (lcm x y) = Z.lcm x y.

(** As long as no step leaves the 32-bit fields, the value of [a += b]
    exists exactly when the two denominators have a set bit in common.
    That both operands exist is necessary for it and not sufficient. *)
Theorem sum_existence (a b : OptionalRational) :
  wf a -> wf b -> add_fits lcm a b ->
  (exists_ (add gcd lcm a b) = true
   <-> Z.land (denominator a) (denominator b) <> 0)
  /\ (exists_ (add gcd lcm a b) = true ->
      exists_ a = true /\ exists_ b = true)
  /\ (exists_ (add gcd lcm a b) = false -> add gcd lcm a b = mkRat 0 0).
Proof.
  intros Ha Hb Hfit.
  assert (Hiff : exists_ (add gcd lcm a b) = true
                 <-> Z.land (denominator a) (denominator b) <> 0).
  { split.
    - intros He Hz. unfold add in He. rewrite Hz in He. discriminate.
    - intros Hnz. apply exists_true.
      destruct Hfit as [Hz | [[E Hn] | [Hne (Hl & Hn1 & Hn)]]];
        [contradiction | |].
      + destruct (land_nonzero _ _ Hnz) as [Hda _].
        rewrite (add_same_denominator gcd lcm a b E Hda). exact Hda.
      + destruct (add_general_exact gcd lcm gcd_spec lcm_spec a b Ha Hb Hne
                    Hnz Hl Hn1 Hn)
          as (_ & _ & Hl0 & Hg0 & _ & Hgl & _ & ->).
        simpl. intros E.
        pose proof (quot_exact_mul _ _ Hg0 Hgl) as El.
        rewrite E in El. simpl in El. contradiction. }
  split; [exact Hiff|]. split.
  - intros He. apply Hiff in He. apply land_nonzero in He as [Hda Hdb].
    split; now apply exists_true.
  - intros He.
    destruct (Z.eq_dec (Z.land (denominator a) (denominator b)) 0) as [Hz|Hnz].
    + unfold add. now rewrite Hz.
    + apply Hiff in Hnz. congruence.
Qed.

End SumExists.

Lemma sum_existence_witness :
  (exists_ (add Z.gcd Z.lcm (mkRat 1 3) (mkRat 1 6)) = true
   <-> Z.land 3 6 <> 0)
  /\ (exists_ (add Z.gcd Z.lcm (mkRat 1 1) (mkRat 1 2)) = true
      <-> Z.land 1 2 <> 0).
Proof.
  split.
  - apply (proj1 (sum_existence Z.gcd Z.lcm Zgcd_spec Zlcm_spec
                    (mkRat 1 3) (mkRat 1 6) ltac:(range32) ltac:(range32)
                    ltac:(right; right; repeat split; range32))).
  - apply (proj1 (sum_existence Z.gcd Z.lcm Zgcd_spec Zlcm_spec
                    (mkRat 1 1) (mkRat 1 2) ltac:(range32) ltac:(range32)
                    ltac:(left; reflexivity))).
Defined.

End Rat.

(** ** [Span]

    [class Span { int64_t min_, max_; bool constant_extent_; ... }]. *)
Module Spans.
Import Int.

Record Span : Type := mkSpan {
  min_ : Z;
  max_ : Z;
  constant_extent_ : bool
}.

(** The fields are [int64_t]. *)
Definition wf (s : Span) : Prop := in_int64 (min_ s) /\ in_int64 (max_ s).

(** [std::min(a, b)] is [(b < a) ? b : a]; [std::max(a, b)] is
    [(a < b) ? b : a]. *)
Definition std_min (a b : Z) : Z := if b <? a then b else a.
Definition std_max (a b : Z) : Z := if a <? b then b else a.

Definition extent (s : Span) : Z := wrap64 (wrap64 (max_ s - min_ s) + 1).

(** [void union_with(const Span &other)], as the value of [*this]
    afterwards. *)
Definition union_with (s other : Span) : Span :=
  mkSpan (std_min (min_ s) (min_ other))
         (std_max (max_ s) (max_ other))
         (constant_extent_ s && constant_extent_ other).

Definition set_extent (s : Span) (e : Z) : Span :=
  mkSpan (min_ s) (wrap64 (wrap64 (min_ s + e) - 1)) (constant_extent_ s).

Definition translate (s : Span) (x : Z) : Span :=
  mkSpan (wrap64 (min_ s + x)) (wrap64 (max_ s + x)) (constant_extent_ s).

(** [static Span empty_span()]. *)
Definition empty_span : Span := mkSpan INT64_MAX INT64_MIN true.

Lemma std_min_spec a b : std_min a b = Z.min a b.
Proof. unfold std_min. destruct (Z.ltb_spec b a); lia. Qed.

Lemma std_max_spec a b : std_max a b = Z.max a b.
Proof. unfold std_max. destruct (Z.ltb_spec a b); lia. Qed.

Lemma union_with_empty s : wf s -> union_with s empty_span = s.
Proof.
  destruct s as [lo hi ce]. unfold wf, in_int64, union_with, empty_span.
  simpl. intros [Hlo Hhi].
  rewrite std_min_spec, std_max_spec, andb_true_r.
  f_equal; lia.
Qed.

Lemma union_with_comm a b : union_with a b = union_with b a.
Proof.
  unfold union_with. rewrite !std_min_spec, !std_max_spec.
  f_equal; [apply Z.min_comm | apply Z.max_comm | apply andb_comm].
Qed.

Lemma union_with_assoc a b c :
  union_with (union_with a b) c = union_with a (union_with b c).
Proof.
  unfold union_with. simpl. rewrite !std_min_spec, !std_max_spec.
  f_equal; [symmetry; apply Z.min_assoc | symmetry; apply Z.max_assoc
           | symmetry; apply andb_assoc].
Qed.

(** C8: the empty span is a right identity of [union_with] on every span
    whose bounds are 64-bit integers, and [union_with] is commutative and
    associative. *)
Theorem union_with_identity_comm_assoc :
  (forall s, wf s -> union_with s empty_span = s)
  /\ (forall a b, union_with a b = union_with b a)
  /\ (forall a b c,
       union_with (union_with a b) c = union_with a (union_with b c)).
Proof.
  split; [|split].
  - exact union_with_empty.
  - exact union_with_comm.
  - exact union_with_assoc.
Qed.

Lemma union_with_identity_comm_assoc_witness :
  union_with (mkSpan (-3) 7 false) empty_span = mkSpan (-3) 7 false.
Proof.
  apply (proj1 union_with_identity_comm_assoc).
  vm_compute. repeat split; discriminate.
Defined.


(** *** Extents *)

Lemma wrap64_ex a : exists k, wrap64 a = a + k * 2 ^ 64.
Proof.
  unfold wrap64, wrap. change (2 ^ (64 - 1)) with 9223372036854775808.
  pose proof (Z.div_mod (a + 9223372036854775808) (2 ^ 64) ltac:(lia)) as E.
  exists (- ((a + 9223372036854775808) / 2 ^ 64)). lia.
Qed.

Lemma wrap64_congr a b k : a = b + k * 2 ^ 64 -> wrap64 a = wrap64 b.
Proof.
  intros ->. unfold wrap64, wrap. f_equal.
  replace (b + k * 2 ^ 64 + 2 ^ (64 - 1)) with (b + 2 ^ (64 - 1) + k * 2 ^ 64)
    by lia.
  apply Z.mod_add. lia.
Qed.

Lemma wrap64_add_l a b : wrap64 (wrap64 a + b) = wrap64 (a + b).
Proof.
  destruct (wrap64_ex a) as [k ->]. apply (wrap64_congr _ _ k). lia.
Qed.

(** [set_extent(e)] keeps [min] and the flag, and the extent read back is
    [e]; [translate(x)] keeps the extent and the flag.  Both hold as well
    when an intermediate sum wraps around. *)
Theorem extent_set_and_translate (s : Span) :
  (forall e,
     min_ (set_extent s e) = min_ s
     /\ constant_extent_ (set_extent s e) = constant_extent_ s
     /\ extent (set_extent s e) = wrap64 e
     /\ (in_int64 e -> extent (set_extent s e) = e))
  /\ (forall x,
       extent (translate s x) = extent s
       /\ constant_extent_ (translate s x) = constant_extent_ s).
Proof.
  split.
  - intros e. split; [reflexivity|]. split; [reflexivity|].
    assert (E : extent (set_extent s e) = wrap64 e).
    { unfold extent, set_extent. cbn [min_ max_].
      rewrite wrap64_add_l.
      replace (wrap64 (wrap64 (min_ s + e) - 1) - min_ s + 1)
        with (wrap64 (wrap64 (min_ s + e) - 1) + (1 - min_ s)) by lia.
      rewrite wrap64_add_l.
      replace (wrap64 (min_ s + e) - 1 + (1 - min_ s))
        with (wrap64 (min_ s + e) + (- min_ s)) by lia.
      rewrite wrap64_add_l. f_equal. lia. }
    split; [exact E|]. intros He. rewrite E. now apply wrap64_id.
  - intros x. split; [|reflexivity].
    unfold extent, translate. cbn [min_ max_]. rewrite !wrap64_add_l.
    destruct (wrap64_ex (min_ s + x)) as [k ->].
    destruct (wrap64_ex (max_ s + x)) as [k' ->].
    apply (wrap64_congr _ _ (k' - k)). lia.
Qed.

Lemma extent_set_and_translate_witness :
  extent (set_extent (mkSpan 3 10 true) 5) = 5.
Proof.
  apply (proj1 (extent_set_and_translate (mkSpan 3 10 true)) 5).
  vm_compute. repeat split; discriminate.
Defined.

(** *** Union as a least upper bound *)

(** [outer] contains [inner]. *)
Definition contains (outer inner : Span) : Prop :=
  min_ outer <= min_ inner /\ max_ inner <= max_ outer.

(** The union contains both spans and is contained in every span that
    contains both; its bounds are bounds of one of the two, so it stays
    inside 64 bits; its extent is constant exactly when both extents are;
    the union of a span with itself is that span. *)
Theorem union_with_least_upper_bound (s other : Span) :
  contains (union_with s other) s
  /\ contains (union_with s other) other
  /\ (forall u, contains u s -> contains u other ->
        contains u (union_with s other))
  /\ (wf s -> wf other -> wf (union_with s other))
  /\ (constant_extent_ (union_with s other) = true
      <-> constant_extent_ s = true /\ constant_extent_ other = true)
  /\ union_with s s = s.
Proof.
  unfold contains, wf, in_int64, union_with. simpl.
  rewrite !std_min_spec, !std_max_spec.
  split; [lia|]. split; [lia|]. split; [intros u; lia|].
  split; [lia|]. split; [apply andb_true_iff|].
  destruct s as [lo hi ce]. simpl.
  rewrite Z.min_id, Z.max_id, andb_diag. reflexivity.
Qed.

Lemma union_with_least_upper_bound_witness :
  contains (mkSpan 0 20 true) (union_with (mkSpan 1 5 true) (mkSpan 3 9 false))
  /\ wf (union_with (mkSpan 1 5 true) (mkSpan 3 9 false)).
Proof.
  pose proof (union_with_least_upper_bound (mkSpan 1 5 true) (mkSpan 3 9 false))
    as (_ & _ & Hlub & Hwf & _).
  split.
  - apply Hlub; vm_compute; split; discriminate.
  - apply Hwf; vm_compute; repeat split; discriminate.
Defined.

End Spans.

(** ** [LoadJacobian]

    [class LoadJacobian { std::vector<OptionalRational> coeffs; int64_t c;
    size_t rows, cols; ... }].  The coefficient of producer dimension [i]
    and consumer loop [j] is stored at [i * cols + j].  Reading or writing
    [coeffs] outside its length has no defined behaviour in the source: the
    accessors below answer [None] there. *)
Module Jacobian.
Import Int Rat.

Record LoadJacobian : Type := mkLJ {
  coeffs : list OptionalRational;
  c : Z;
  rows : nat;
  cols : nat
}.

(** The constructor sizes [coeffs] to [rows * cols]; no member changes the
    length afterwards. *)
Definition wf (J : LoadJacobian) : Prop :=
  length (coeffs J) = (rows J * cols J)%nat.

(** [LoadJacobian(size_t producer_storage_dims, size_t consumer_loop_dims,
    int64_t count)]: [coeffs.resize(rows * cols)] fills with the default
    rational (0, 0). *)
Definition new (producer_storage_dims consumer_loop_dims : nat) (count : Z)
  : LoadJacobian :=
  mkLJ (replicate (producer_storage_dims * consumer_loop_dims) Rat.undefined)
       count producer_storage_dims consumer_loop_dims.

Definition producer_storage_dims (J : LoadJacobian) : nat := rows J.
Definition consumer_loop_dims (J : LoadJacobian) : nat := cols J.
Definition count (J : LoadJacobian) : Z := c J.

Definition empty (J : LoadJacobian) : bool := (rows J =? 0)%nat.

(** [bool all_coeffs_exist() const]. *)
Definition all_coeffs_exist (J : LoadJacobian) : bool :=
  forallb exists_ (coeffs J).

(** [OptionalRational operator()(int, int) const]. *)
Definition get (J : LoadJacobian) (producer_storage_dim consumer_loop_dim : nat)
  : option OptionalRational :=
  if (producer_storage_dims J =? 0)%nat || (consumer_loop_dims J =? 0)%nat
  then Some (make 0 1)
  else coeffs J !! (producer_storage_dim * cols J + consumer_loop_dim)%nat.

(** [OptionalRational &operator()(int, int)]: the reference, read ... *)
Definition get_ref (J : LoadJacobian) (producer_storage_dim consumer_loop_dim : nat)
  : option OptionalRational :=
  coeffs J !! (producer_storage_dim * cols J + consumer_loop_dim)%nat.

(** ... and assigned through. *)
Definition set_ref (J : LoadJacobian) (producer_storage_dim consumer_loop_dim : nat)
    (v : OptionalRational) : option LoadJacobian :=
  let idx := (producer_storage_dim * cols J + consumer_loop_dim)%nat in
  if decide (idx < length (coeffs J))%nat
  then Some (mkLJ (<[idx := v]> (coeffs J)) (c J) (rows J) (cols J))
  else None.

(** [for (size_t i = start; i < start + n; i++) body], threading the
    state and stopping at the first undefined access. *)
Fixpoint for_range {St : Type} (start n : nat) (body : nat -> St -> option St)
    (s : St) : option St :=
  match n with
  | O => Some s
  | S n' =>
      match body start s with
      | Some s' => for_range (S start) n' body s'
      | None => None
      end
  end.

(** [bool merge(const LoadJacobian &other)]: the flag returned and the
    value of [*this] afterwards. *)
Definition merge (J other : LoadJacobian) : option (bool * LoadJacobian) :=
  if negb ((rows other =? rows J)%nat && (cols other =? cols J)%nat)
  then Some (false, J)
  else
    let fix go (i n : nat) : option bool :=
      match n with
      | O => Some true
      | S n' =>
          match coeffs other !! i, coeffs J !! i with
          | Some x, Some y =>
              if negb (eq_rat x y) then Some false else go (S i) n'
          | _, _ => None
          end
      end in
    match go O (rows J * cols J)%nat with
    | Some true => Some (true, mkLJ (coeffs J) (wrap64 (c J + count other))
                                    (rows J) (cols J))
    | Some false => Some (false, J)
    | None => None
    end.

(** [LoadJacobian operator*(const std::vector<int64_t> &factors) const]. *)
Definition scale (J : LoadJacobian) (factors : list Z) : option LoadJacobian :=
  let result := new (rows J) (cols J) (c J) in
  for_range 0 (producer_storage_dims J) (fun i result =>
    for_range 0 (consumer_loop_dims J) (fun j result =>
      x ← get J i j;
      f ← factors !! j;
      set_ref result i j (mul_int x f)) result) result.

Section Composition.

Variable gcd : Z -> Z -> Z.
Variable lcm : Z -> Z -> Z.

(** [LoadJacobian operator*(const LoadJacobian &other) const].  The source
    has no test that [cols] equals [other.rows]. *)
Definition compose (J other : LoadJacobian) : option LoadJacobian :=
  let result := new (producer_storage_dims J) (consumer_loop_dims other)
                    (wrap64 (count J * count other)) in
  for_range 0 (producer_storage_dims J) (fun i result =>
    for_range 0 (consumer_loop_dims other) (fun j result =>
      result ← set_ref result i j (make 0 1);
      for_range 0 (consumer_loop_dims J) (fun k result =>
        x ← get J i k;
        y ← get other k j;
        cur ← get_ref result i j;
        set_ref result i j (add gcd lcm cur (mul_rat x y))) result) result)
    result.

(** The coefficient at [(i, j)], with the default rational where the
    access is undefined. *)
Definition entry (J : LoadJacobian) (i j : nat) : OptionalRational :=
  default Rat.undefined (get J i j).

(** Row [i] of [J] dotted with column [j] of [other] in [OptionalRational]
    arithmetic, starting from 0/1 and adding the products for
    k = 0, 1, ..., in that order. *)
Definition dot (J other : LoadJacobian) (i j : nat) : OptionalRational :=
  foldl (fun acc k => add gcd lcm acc (mul_rat (entry J i k) (entry other k j)))
        (make 0 1) (seq 0 (cols J)).

End Composition.

(** *** Loops and accessors *)

Lemma for_range_inv {St : Type} (P : nat -> St -> Prop)
    (body : nat -> St -> option St) (n : nat) :
  forall start s,
    P start s ->
    (forall k t, (start <= k < start + n)%nat -> P k t ->
       exists t', body k t = Some t' /\ P (S k) t') ->
    exists s', for_range start n body s = Some s' /\ P (start + n)%nat s'.
Proof.
  induction n as [|n IH]; intros start s H0 Hstep; simpl.
  - exists s. split; [reflexivity|]. now rewrite Nat.add_0_r.
  - destruct (Hstep start s ltac:(lia) H0) as (s1 & -> & H1).
    destruct (IH (S start) s1 H1) as (s' & E & H').
    + intros k t Hk. apply Hstep. lia.
    + exists s'. split; [exact E|].
      now replace (start + S n)%nat with (S start + n)%nat by lia.
Qed.

(** A result under construction: its dimensions, count and length. *)
Definition shape (R : LoadJacobian) (r cl : nat) (cnt : Z) : Prop :=
  rows R = r /\ cols R = cl /\ c R = cnt
  /\ length (coeffs R) = (r * cl)%nat.

Lemma index_in_range (r cl i j : nat) :
  (i < r)%nat -> (j < cl)%nat -> (i * cl + j < r * cl)%nat.
Proof.
  intros Hi Hj.
  pose proof (Nat.mul_le_mono_r (S i) r cl ltac:(lia)) as H.
  simpl in H. lia.
Qed.

Lemma index_injective (cl i j i' j' : nat) :
  (j < cl)%nat -> (j' < cl)%nat ->
  (i * cl + j = i' * cl + j')%nat -> i = i' /\ j = j'.
Proof.
  intros Hj Hj' E.
  assert (i = i') as ->.
  { destruct (Nat.lt_trichotomy i i') as [L | [-> | L]]; [|reflexivity|].
    - pose proof (Nat.mul_le_mono_r (S i) i' cl ltac:(lia)) as H.
      simpl in H. lia.
    - pose proof (Nat.mul_le_mono_r (S i') i cl ltac:(lia)) as H.
      simpl in H. lia. }
  split; [reflexivity | lia].
Qed.

Lemma shape_new r cl cnt : shape (new r cl cnt) r cl cnt.
Proof. unfold shape, new. simpl. now rewrite length_replicate. Qed.

Lemma set_ref_shape R r cl cnt i j v :
  shape R r cl cnt -> (i < r)%nat -> (j < cl)%nat ->
  exists R', set_ref R i j v = Some R'
    /\ shape R' r cl cnt
    /\ coeffs R' = <[(i * cl + j)%nat := v]> (coeffs R).
Proof.
  intros (Hr & Hc & Hcnt & Hlen) Hi Hj. unfold set_ref. rewrite Hc.
  pose proof (index_in_range r cl i j Hi Hj).
  destruct (decide (i * cl + j < length (coeffs R))%nat) as [_|N]; [|lia].
  eexists. split; [reflexivity|]. split; [|reflexivity].
  unfold shape. simpl. now rewrite length_insert.
Qed.

Lemma get_entry J i j :
  wf J -> (i < rows J)%nat -> (j < cols J)%nat ->
  get J i j = Some (entry J i j).
Proof.
  intros Hwf Hi Hj. unfold entry.
  assert (is_Some (get J i j)) as [x ->]; [|reflexivity].
  unfold get, producer_storage_dims, consumer_loop_dims.
  destruct (Nat.eqb_spec (rows J) 0); [lia|].
  destruct (Nat.eqb_spec (cols J) 0); [lia|]. simpl.
  apply lookup_lt_is_Some. rewrite Hwf. now apply index_in_range.
Qed.

Section CompositionFacts.

Variable gcd : Z -> Z -> Z.
Variable lcm : Z -> Z -> Z.

Variables J other : LoadJacobian.
Hypothesis wf_J : wf J.
Hypothesis wf_other : wf other.
Hypothesis dims : cols J = rows other.

Let term (i j k : nat) : OptionalRational :=
  mul_rat (entry J i k) (entry other k j).

Let cnt : Z := wrap64 (count J * count other).

(** The innermost loop accumulates into the one cell [(i, j)]. *)
Lemma compose_inner (R0 : LoadJacobian) (i j : nat) (acc0 : OptionalRational) :
  shape R0 (rows J) (cols other) cnt ->
  (i < rows J)%nat -> (j < cols other)%nat ->
  coeffs R0 !! (i * cols other + j)%nat = Some acc0 ->
  exists R,
    for_range 0 (consumer_loop_dims J) (fun k result =>
        x ← get J i k;
        y ← get other k j;
        cur ← get_ref result i j;
        set_ref result i j (add gcd lcm cur (mul_rat x y))) R0 = Some R
    /\ shape R (rows J) (cols other) cnt
    /\ coeffs R
       = <[(i * cols other + j)%nat :=
             foldl (fun acc k => add gcd lcm acc (term i j k)) acc0
                   (seq 0 (cols J))]> (coeffs R0).
Proof.
  intros Hshape Hi Hj Hacc.
  set (idx := (i * cols other + j)%nat) in *.
  set (f := fun acc k => add gcd lcm acc (term i j k)).
  pose proof (lookup_lt_Some _ _ _ Hacc) as Hidx.
  destruct (for_range_inv
    (fun k R => shape R (rows J) (cols other) cnt
                /\ coeffs R = <[idx := foldl f acc0 (seq 0 k)]> (coeffs R0))
    (fun k result =>
        x ← get J i k;
        y ← get other k j;
        cur ← get_ref result i j;
        set_ref result i j (add gcd lcm cur (mul_rat x y)))
    (consumer_loop_dims J) 0%nat R0) as (R & E & HR).
  - split; [exact Hshape|]. simpl. symmetry. now apply list_insert_id.
  - intros k t Hk [Ht Hco]. unfold consumer_loop_dims in Hk.
    rewrite (get_entry J i k) by (assumption || lia). simpl.
    rewrite (get_entry other k j) by (assumption || lia). simpl.
    unfold get_ref. destruct Ht as (Hr & Hc & Hcn & Hlen).
    rewrite Hc. fold idx. rewrite Hco.
    rewrite list_lookup_insert_eq by assumption. simpl.
    destruct (set_ref_shape t (rows J) (cols other) cnt i j
                (add gcd lcm (foldl f acc0 (seq 0 k))
                     (mul_rat (entry J i k) (entry other k j))))
      as (t' & -> & Ht' & Hco'); [by repeat split | assumption.. |].
    exists t'. split; [reflexivity|]. split; [exact Ht'|].
    rewrite Hco'. fold idx. rewrite Hco, list_insert_insert_eq.
    change (foldl f (f acc0 0%nat) (seq 1 k))
      with (foldl f acc0 (seq 0 (S k))).
    rewrite seq_S, foldl_app. reflexivity.
  - exists R. split; [exact E|]. exact HR.
Qed.

(** One round of the middle loop writes the dot product into [(i, j)]. *)
Lemma compose_cell (R0 : LoadJacobian) (i j : nat) :
  shape R0 (rows J) (cols other) cnt ->
  (i < rows J)%nat -> (j < cols other)%nat ->
  exists R,
    (result ← set_ref R0 i j (make 0 1);
     for_range 0 (consumer_loop_dims J) (fun k result =>
        x ← get J i k;
        y ← get other k j;
        cur ← get_ref result i j;
        set_ref result i j (add gcd lcm cur (mul_rat x y))) result) = Some R
    /\ shape R (rows J) (cols other) cnt
    /\ coeffs R
       = <[(i * cols other + j)%nat := dot gcd lcm J other i j]> (coeffs R0).
Proof.
  intros Hshape Hi Hj.
  destruct (set_ref_shape R0 _ _ cnt i j (make 0 1) Hshape Hi Hj)
    as (R1 & -> & H1 & Hco1). simpl.
  assert (Hidx : (i * cols other + j < length (coeffs R0))%nat).
  { destruct Hshape as (_ & _ & _ & ->). now apply index_in_range. }
  destruct (compose_inner R1 i j (make 0 1) H1 Hi Hj) as (R & E & HR & Hco).
  { rewrite Hco1. now apply list_lookup_insert_eq. }
  exists R. split; [exact E|]. split; [exact HR|].
  rewrite Hco, Hco1, list_insert_insert_eq. reflexivity.
Qed.

(** The middle loop fills row [i] and leaves the other rows alone. *)
Lemma compose_row (R0 : LoadJacobian) (i : nat) :
  shape R0 (rows J) (cols other) cnt ->
  (i < rows J)%nat ->
  exists R,
    for_range 0 (consumer_loop_dims other) (fun j result =>
      result ← set_ref result i j (make 0 1);
      for_range 0 (consumer_loop_dims J) (fun k result =>
        x ← get J i k;
        y ← get other k j;
        cur ← get_ref result i j;
        set_ref result i j (add gcd lcm cur (mul_rat x y))) result) R0
    = Some R
    /\ shape R (rows J) (cols other) cnt
    /\ (forall j, (j < cols other)%nat ->
          coeffs R !! (i * cols other + j)%nat
          = Some (dot gcd lcm J other i j))
    /\ (forall i' j, i' <> i -> (j < cols other)%nat ->
          coeffs R !! (i' * cols other + j)%nat
          = coeffs R0 !! (i' * cols other + j)%nat).
Proof.
  intros Hshape Hi.
  destruct (for_range_inv
    (fun m R => shape R (rows J) (cols other) cnt
       /\ (forall j, (j < m)%nat ->
             coeffs R !! (i * cols other + j)%nat
             = Some (dot gcd lcm J other i j))
       /\ (forall i' j, i' <> i -> (j < cols other)%nat ->
             coeffs R !! (i' * cols other + j)%nat
             = coeffs R0 !! (i' * cols other + j)%nat))
    (fun j result =>
      result ← set_ref result i j (make 0 1);
      for_range 0 (consumer_loop_dims J) (fun k result =>
        x ← get J i k;
        y ← get other k j;
        cur ← get_ref result i j;
        set_ref result i j (add gcd lcm cur (mul_rat x y))) result)
    (consumer_loop_dims other) 0%nat R0) as (R & E & HR).
  - split; [exact Hshape|]. split; [intros; lia | reflexivity].
  - intros j t Hj (Ht & Hdone & Hrest). unfold consumer_loop_dims in Hj.
    destruct (compose_cell t i j Ht Hi ltac:(lia)) as (t' & Et & Ht' & Hco).
    exists t'. split; [exact Et|]. split; [exact Ht'|]. split.
    + intros j' Hj'. rewrite Hco.
      destruct (decide (j' = j)) as [->|Hne].
      * apply list_lookup_insert_eq.
        destruct Ht as (_ & _ & _ & ->). apply index_in_range; lia.
      * rewrite list_lookup_insert_ne by lia. apply Hdone. lia.
    + intros i' j' Hi' Hj'. rewrite Hco.
      rewrite list_lookup_insert_ne.
      * now apply Hrest.
      * intros Heq. apply index_injective in Heq; lia.
  - exists R. split; [exact E|]. destruct HR as (HR & Hdone & Hrest).
    repeat split; try apply HR; assumption.
Qed.

(** The three loops together. *)
Lemma compose_all :
  exists R,
    compose gcd lcm J other = Some R
    /\ shape R (rows J) (cols other) cnt
    /\ (forall i j, (i < rows J)%nat -> (j < cols other)%nat ->
          coeffs R !! (i * cols other + j)%nat
          = Some (dot gcd lcm J other i j)).
Proof.
  unfold compose.
  destruct (for_range_inv
    (fun n R => shape R (rows J) (cols other) cnt
       /\ (forall i j, (i < n)%nat -> (j < cols other)%nat ->
             coeffs R !! (i * cols other + j)%nat
             = Some (dot gcd lcm J other i j)))
    (fun i result =>
      for_range 0 (consumer_loop_dims other) (fun j result =>
        result ← set_ref result i j (make 0 1);
        for_range 0 (consumer_loop_dims J) (fun k result =>
          x ← get J i k;
          y ← get other k j;
          cur ← get_ref result i j;
          set_ref result i j (add gcd lcm cur (mul_rat x y))) result) result)
    (producer_storage_dims J) 0%nat
    (new (producer_storage_dims J) (consumer_loop_dims other)
         (wrap64 (count J * count other)))) as (R & E & HR).
  - split; [apply shape_new | intros; lia].
  - intros i t Hi (Ht & Hdone). unfold producer_storage_dims in Hi.
    destruct (compose_row t i Ht ltac:(lia)) as (t' & Et & Ht' & Hrow & Hrest).
    exists t'. split; [exact Et|]. split; [exact Ht'|].
    intros i' j Hi' Hj.
    destruct (decide (i' = i)) as [->|Hne].
    + now apply Hrow.
    + rewrite Hrest by assumption. apply Hdone; [lia | assumption].
  - exists R. split; [exact E|]. exact HR.
Qed.

End CompositionFacts.

(** *** Undefined products *)

Lemma foldl_add_undefined gcd lcm (g : nat -> OptionalRational) (l : list nat) :
  foldl (fun acc k => add gcd lcm acc (g k)) (mkRat 0 0) l = mkRat 0 0.
Proof.
  induction l as [|k l IH]; simpl; [reflexivity|].
  rewrite add_undefined by (left; reflexivity). exact IH.
Qed.

Lemma foldl_add_poison gcd lcm (g : nat -> OptionalRational) (l : list nat) :
  forall acc k,
    In k l -> exists_ (g k) = false ->
    foldl (fun acc k => add gcd lcm acc (g k)) acc l = mkRat 0 0.
Proof.
  induction l as [|k0 l IH]; intros acc k Hin Hk; simpl; [destruct Hin|].
  destruct Hin as [-> | Hin].
  - rewrite add_undefined by (right; now apply exists_false).
    apply foldl_add_undefined.
  - now apply (IH _ k).
Qed.

(** A coefficient that does not exist, multiplied by an exact zero, gives
    that zero. *)
Lemma mul_rat_undefined_zero :
  mul_rat (mkRat 0 0) (mkRat 0 1) = mkRat 0 1.
Proof. reflexivity. Qed.

(** C4 (as amended): composition tests no dimensions.  When the two
    Jacobians are well formed and [cols] of the left equals [rows] of the
    right, the call returns a well-formed [rows J] by [cols other] matrix
    whose count is the 64-bit product of the two counts and whose cell
    (i, j) is the dot product of row i with column j in [OptionalRational]
    arithmetic; a product in that chain that does not exist makes the cell
    the undefined value. *)
Theorem compose_spec (gcd lcm : Z -> Z -> Z) (J other : LoadJacobian) :
  wf J -> wf other -> cols J = rows other ->
  exists R,
    compose gcd lcm J other = Some R
    /\ wf R
    /\ rows R = rows J
    /\ cols R = cols other
    /\ count R = wrap64 (count J * count other)
    /\ (in_int64 (count J * count other) ->
        count R = count J * count other)
    /\ (forall i j, (i < rows J)%nat -> (j < cols other)%nat ->
          get R i j = Some (dot gcd lcm J other i j)
          /\ ((exists k, (k < cols J)%nat /\
                 exists_ (mul_rat (entry J i k) (entry other k j)) = false) ->
              dot gcd lcm J other i j = mkRat 0 0)).
Proof.
  intros HJ Hother Hdims.
  destruct (compose_all gcd lcm J other HJ Hother Hdims)
    as (R & E & (Hr & Hc & Hcnt & Hlen) & Hcells).
  exists R. split; [exact E|].
  assert (HR : wf R) by (unfold wf; now rewrite Hr, Hc).
  split; [exact HR|]. split; [exact Hr|]. split; [exact Hc|].
  split; [exact Hcnt|]. split.
  { intros Hfit. unfold count in *. rewrite Hcnt. now apply wrap64_id. }
  intros i j Hi Hj. split.
  - unfold get, producer_storage_dims, consumer_loop_dims.
    rewrite Hr, Hc.
    destruct (Nat.eqb_spec (rows J) 0); [lia|].
    destruct (Nat.eqb_spec (cols other) 0); [lia|]. simpl.
    now apply Hcells.
  - intros (k & Hk & Hundef). unfold dot.
    apply (foldl_add_poison gcd lcm
             (fun k => mul_rat (entry J i k) (entry other k j)) _ _ k);
      [|exact Hundef].
    apply in_seq. lia.
Qed.

Lemma compose_spec_witness :
  let J := mkLJ [mkRat 1 1; mkRat 1 2; mkRat 0 0; mkRat 3 1] 2 2 2 in
  let other := mkLJ [mkRat 2 1; mkRat 1 1; mkRat 1 2; mkRat 5 1] 3 2 2 in
  exists R,
    compose Z.gcd Z.lcm J other = Some R
    /\ wf R
    /\ rows R = rows J
    /\ cols R = cols other
    /\ count R = wrap64 (count J * count other)
    /\ (in_int64 (count J * count other) ->
        count R = count J * count other)
    /\ (forall i j, (i < rows J)%nat -> (j < cols other)%nat ->
          get R i j = Some (dot Z.gcd Z.lcm J other i j)
          /\ ((exists k, (k < cols J)%nat /\
                 exists_ (mul_rat (entry J i k) (entry other k j)) = false) ->
              dot Z.gcd Z.lcm J other i j = mkRat 0 0)).
Proof.
  intros J other. apply (compose_spec Z.gcd Z.lcm J other); reflexivity.
Defined.

(** C4 (as stated) fails: a 1 x 1 Jacobian composed with a 0 x 1 Jacobian
    has mismatched inner dimensions, and the call returns a 1 x 1 result. *)
Lemma compose_mismatch_returns :
  let J := mkLJ [mkRat 1 1] 1 1 1 in
  let other := new 0 1 1 in
  wf J /\ wf other /\ cols J <> rows other
  /\ compose Z.gcd Z.lcm J other = Some (mkLJ [mkRat 0 1] 1 1 1).
Proof. simpl. repeat split. discriminate. Qed.

Example compose_2x2 :
  compose Z.gcd Z.lcm
    (mkLJ [mkRat 1 1; mkRat 1 3; mkRat 0 0; mkRat 3 1] 2 2 2)
    (mkLJ [mkRat 2 1; mkRat 1 1; mkRat 1 1; mkRat 5 1] 3 2 2)
  = Some (mkLJ [mkRat 7 3; mkRat 8 3; mkRat 0 0; mkRat 0 0] 6 2 2).
Proof. vm_compute. reflexivity. Qed.

(** The bitwise zero test of [operator+=] reaches composition: the cell
    2/1 + 1/4 is stored as the undefined value. *)
Example compose_disjoint_bits :
  compose Z.gcd Z.lcm
    (mkLJ [mkRat 1 1; mkRat 1 2] 1 1 2)
    (mkLJ [mkRat 2 1; mkRat 1 2] 1 2 1)
  = Some (mkLJ [mkRat 0 0] 1 1 1).
Proof. vm_compute. reflexivity. Qed.

(** *** Constant Jacobians *)

(** [bool is_constant() const]. *)
Definition is_constant (J : LoadJacobian) : bool :=
  forallb (fun c => negb (negb (exists_ c) || negb (eq_int c 0))) (coeffs J).

Lemma eq_int_0 a :
  eq_int a 0 = true <-> denominator a <> 0 /\ numerator a = 0.
Proof.
  unfold eq_int, exists_. change (0 * denominator a) with 0.
  rewrite wrap32_0, andb_true_iff, negb_true_iff, Z.eqb_neq, Z.eqb_eq.
  reflexivity.
Qed.

Lemma is_constant_cell a :
  negb (negb (exists_ a) || negb (eq_int a 0)) = true
  <-> denominator a <> 0 /\ numerator a = 0.
Proof.
  rewrite <- eq_int_0. unfold eq_int.
  destruct (exists_ a), (numerator a =? wrap32 (0 * denominator a)); simpl;
    split; congruence.
Qed.

Lemma is_constant_forall :
  forall J, is_constant J = true
            <-> Forall (fun a => denominator a <> 0 /\ numerator a = 0)
                       (coeffs J).
Proof.
  intros J. unfold is_constant. induction (coeffs J) as [|a l IH]; simpl.
  - split; [constructor | reflexivity].
  - rewrite andb_true_iff, IH, is_constant_cell, Forall_cons. reflexivity.
Qed.

(** A Jacobian is constant exactly when every coefficient is a zero that
    exists; a constant Jacobian has all its coefficients; a freshly
    constructed one has all its coefficients, and is constant, only when
    it has no cell at all. *)
Theorem is_constant_spec :
  (forall J, is_constant J = true
             <-> Forall (fun a => denominator a <> 0 /\ numerator a = 0)
                        (coeffs J))
  /\ (forall J, is_constant J = true -> all_coeffs_exist J = true)
  /\ (forall r cl n,
        (all_coeffs_exist (new r cl n) = true <-> (r * cl = 0)%nat)
        /\ (is_constant (new r cl n) = true <-> (r * cl = 0)%nat)).
Proof.
  split; [exact is_constant_forall|]. split.
  - intros J HJ. apply is_constant_forall in HJ. unfold all_coeffs_exist.
    induction HJ as [|a l [Ha _] _ IH]; simpl; [reflexivity|].
    rewrite IH, andb_true_r. now apply exists_true.
  - intros r cl n. unfold all_coeffs_exist, is_constant, new. simpl.
    destruct (r * cl)%nat as [|m]; simpl.
    + split; split; reflexivity.
    + split; split; discriminate.
Qed.

Lemma is_constant_spec_witness :
  all_coeffs_exist (mkLJ [mkRat 0 1; mkRat 0 (-3)] 1 1 2) = true.
Proof.
  apply (proj1 (proj2 is_constant_spec)). reflexivity.
Defined.

(** *** Merging *)

(** The comparison loop of [merge], from index [i] for [n] rounds. *)
Definition merge_loop (xs ys : list OptionalRational)
  : nat -> nat -> option bool :=
  fix go (i n : nat) : option bool :=
    match n with
    | O => Some true
    | S n' =>
        match xs !! i, ys !! i with
        | Some x, Some y =>
            if negb (eq_rat x y) then Some false else go (S i) n'
        | _, _ => None
        end
    end.

Lemma merge_unfold J other :
  merge J other
  = if negb ((rows other =? rows J)%nat && (cols other =? cols J)%nat)
    then Some (false, J)
    else match merge_loop (coeffs other) (coeffs J) O (rows J * cols J)%nat with
         | Some true => Some (true, mkLJ (coeffs J) (wrap64 (c J + count other))
                                         (rows J) (cols J))
         | Some false => Some (false, J)
         | None => None
         end.
Proof. reflexivity. Qed.

Lemma merge_loop_spec xs ys n :
  forall i,
    (i + n <= length xs)%nat -> (i + n <= length ys)%nat ->
    exists b,
      merge_loop xs ys i n = Some b
      /\ (b = true <->
          forall k x y, (i <= k < i + n)%nat ->
            xs !! k = Some x -> ys !! k = Some y -> eq_rat x y = true).
Proof.
  induction n as [|n IH]; intros i Hx Hy; simpl.
  - exists true. split; [reflexivity|]. split; [|reflexivity].
    intros _ k x y Hk. lia.
  - destruct (lookup_lt_is_Some_2 xs i ltac:(lia)) as [x Ex].
    destruct (lookup_lt_is_Some_2 ys i ltac:(lia)) as [y Ey].
    rewrite Ex, Ey. destruct (eq_rat x y) eqn:E; simpl.
    + destruct (IH (S i) ltac:(lia) ltac:(lia)) as (b & Eb & Hb).
      exists b. split; [exact Eb|]. rewrite Hb.
      split; intros Hall k x' y' Hk Hx' Hy'.
      * destruct (decide (k = i)) as [->|Hne].
        -- rewrite Ex in Hx'. rewrite Ey in Hy'.
           injection Hx' as <-. injection Hy' as <-. exact E.
        -- apply (Hall k); [lia | assumption..].
      * apply (Hall k); [lia | assumption..].
    + exists false. split; [reflexivity|]. split; [discriminate|].
      intros Hall. rewrite (Hall i x y) in E; [discriminate | lia | assumption..].
Qed.

(** The value [merge] leaves in [*this] for each flag. *)
Definition merged (J other : LoadJacobian) (flag : bool) : LoadJacobian :=
  if flag
  then mkLJ (coeffs J) (wrap64 (c J + c other)) (rows J) (cols J)
  else J.

Lemma merge_flag J other :
  wf J -> wf other ->
  exists flag,
    merge J other = Some (flag, merged J other flag)
    /\ (flag = true <->
        rows other = rows J /\ cols other = cols J
        /\ forall k x y,
             coeffs other !! k = Some x -> coeffs J !! k = Some y ->
             eq_rat x y = true).
Proof.
  intros HJ Hother. rewrite merge_unfold.
  destruct (Nat.eqb_spec (rows other) (rows J)) as [Hr|Hr]; simpl.
  2:{ exists false. split; [reflexivity|]. split; [discriminate|]. tauto. }
  destruct (Nat.eqb_spec (cols other) (cols J)) as [Hc|Hc]; simpl.
  2:{ exists false. split; [reflexivity|]. split; [discriminate|]. tauto. }
  unfold wf in HJ, Hother. rewrite Hr, Hc in Hother.
  destruct (merge_loop_spec (coeffs other) (coeffs J) (rows J * cols J) 0)
    as (b & -> & Hb); [lia.. |].
  exists b. split; [destruct b; reflexivity|]. rewrite Hb.
  split.
  - intros Hall. split; [exact Hr|]. split; [exact Hc|].
    intros k x y Hx Hy. apply (Hall k x y); [|assumption..].
    apply lookup_lt_Some in Hy. lia.
  - intros (_ & _ & Hall) k x y _. apply Hall.
Qed.

(** [merge] returns whenever both Jacobians are well formed.  It succeeds
    exactly when the dimensions agree and corresponding coefficients
    compare equal under [operator==]; then the count grows by the other
    count, at 64 bits, and nothing else changes.  When it fails [*this]
    is unchanged. *)
Theorem merge_spec (J other : LoadJacobian) :
  wf J -> wf other ->
  exists flag J',
    merge J other = Some (flag, J')
    /\ (flag = true <->
        rows other = rows J /\ cols other = cols J
        /\ Forall2 (fun x y => eq_rat x y = true) (coeffs other) (coeffs J))
    /\ (flag = true ->
        count J' = wrap64 (count J + count other)
        /\ coeffs J' = coeffs J /\ rows J' = rows J /\ cols J' = cols J
        /\ wf J')
    /\ (flag = false -> J' = J).
Proof.
  intros HJ Hother.
  destruct (merge_flag J other HJ Hother) as (flag & E & Hflag).
  exists flag, (merged J other flag). split; [exact E|]. split.
  - rewrite Hflag. split.
    + intros (Hr & Hc & Hall). split; [exact Hr|]. split; [exact Hc|].
      apply Forall2_same_length_lookup. split; [|exact Hall].
      unfold wf in HJ, Hother. rewrite HJ, Hother, Hr, Hc. reflexivity.
    + intros (Hr & Hc & Hall). split; [exact Hr|]. split; [exact Hc|].
      apply Forall2_same_length_lookup in Hall. apply Hall.
  - split; intros ->; simpl; [|reflexivity].
    repeat split; try reflexivity. exact HJ.
Qed.

Lemma merge_spec_witness :
  exists flag J',
    merge (mkLJ [mkRat 1 2; mkRat 0 0] 3 1 2) (mkLJ [mkRat 2 4; mkRat 5 0] 4 1 2)
    = Some (flag, J')
    /\ flag = true /\ count J' = 7.
Proof.
  destruct (merge_spec (mkLJ [mkRat 1 2; mkRat 0 0] 3 1 2)
                       (mkLJ [mkRat 2 4; mkRat 5 0] 4 1 2))
    as (flag & J' & E & Hflag & Hok & _); [reflexivity | reflexivity |].
  exists flag, J'. split; [exact E|].
  assert (Ht : flag = true).
  { apply Hflag. split; [reflexivity|]. split; [reflexivity|].
    repeat constructor. }
  split; [exact Ht|]. destruct (Hok Ht) as (Hc & _). exact Hc.
Defined.

Lemma eq_rat_sym a b : eq_rat a b = eq_rat b a.
Proof.
  unfold eq_rat. f_equal.
  - destruct (exists_ a), (exists_ b); reflexivity.
  - rewrite Z.eqb_sym. f_equal; f_equal; lia.
Qed.

Lemma eq_rat_refl a : eq_rat a a = true.
Proof.
  unfold eq_rat. rewrite eqb_reflx. simpl. apply Z.eqb_eq. f_equal. lia.
Qed.

(** Whether two Jacobians merge does not depend on which one is asked, and
    a Jacobian always merges with itself. *)
Theorem merge_symmetric (J other : LoadJacobian) :
  wf J -> wf other ->
  fst <$> merge J other = fst <$> merge other J
  /\ merge J J = Some (true, merged J J true).
Proof.
  intros HJ Hother. split.
  - destruct (merge_flag J other HJ Hother) as (f1 & -> & H1).
    destruct (merge_flag other J Hother HJ) as (f2 & -> & H2).
    simpl. f_equal.
    assert (Hiff : f1 = true <-> f2 = true).
    { rewrite H1, H2.
      split; intros (Hr & Hc & Hall); (split; [easy|]); (split; [easy|]);
        intros k x y Hx Hy; rewrite eq_rat_sym; now apply (Hall k). }
    destruct f1, f2; try reflexivity.
    + symmetry. now apply Hiff.
    + now apply Hiff.
  - destruct (merge_flag J J HJ HJ) as (f & E & Hf).
    assert (f = true) as ->; [|exact E].
    apply Hf. split; [reflexivity|]. split; [reflexivity|].
    intros k x y Hx Hy. rewrite Hx in Hy. injection Hy as <-.
    apply eq_rat_refl.
Qed.

Lemma merge_symmetric_witness :
  fst <$> merge (mkLJ [mkRat 1 2] 3 1 1) (new 1 2 0)
  = fst <$> merge (new 1 2 0) (mkLJ [mkRat 1 2] 3 1 1).
Proof.
  apply (merge_symmetric (mkLJ [mkRat 1 2] 3 1 1) (new 1 2 0)); reflexivity.
Defined.

(** *** Scaling *)

Section Scaling.

Variable J : LoadJacobian.
Variable factors : list Z.
Hypothesis wf_J : wf J.
Hypothesis enough : (cols J <= length factors)%nat.

Let factor (j : nat) : Z := default 0 (factors !! j).

Lemma scale_row (R0 : LoadJacobian) (i : nat) :
  shape R0 (rows J) (cols J) (c J) ->
  (i < rows J)%nat ->
  exists R,
    for_range 0 (consumer_loop_dims J) (fun j result =>
      x ← get J i j;
      f ← factors !! j;
      set_ref result i j (mul_int x f)) R0 = Some R
    /\ shape R (rows J) (cols J) (c J)
    /\ (forall j, (j < cols J)%nat ->
          coeffs R !! (i * cols J + j)%nat
          = Some (mul_int (entry J i j) (factor j)))
    /\ (forall i' j, i' <> i -> (j < cols J)%nat ->
          coeffs R !! (i' * cols J + j)%nat
          = coeffs R0 !! (i' * cols J + j)%nat).
Proof.
  intros Hshape Hi.
  destruct (for_range_inv
    (fun m R => shape R (rows J) (cols J) (c J)
       /\ (forall j, (j < m)%nat ->
             coeffs R !! (i * cols J + j)%nat
             = Some (mul_int (entry J i j) (factor j)))
       /\ (forall i' j, i' <> i -> (j < cols J)%nat ->
             coeffs R !! (i' * cols J + j)%nat
             = coeffs R0 !! (i' * cols J + j)%nat))
    (fun j result =>
      x ← get J i j;
      f ← factors !! j;
      set_ref result i j (mul_int x f))
    (consumer_loop_dims J) 0%nat R0) as (R & E & HR).
  - split; [exact Hshape|]. split; [intros; lia | reflexivity].
  - intros j t Hj (Ht & Hdone & Hrest). unfold consumer_loop_dims in Hj.
    rewrite (get_entry J i j) by (assumption || lia). simpl.
    destruct (lookup_lt_is_Some_2 factors j ltac:(lia)) as [f Ef].
    assert (Hf : factor j = f) by (unfold factor; now rewrite Ef).
    rewrite Ef. simpl.
    destruct (set_ref_shape t (rows J) (cols J) (c J) i j
                (mul_int (entry J i j) f) Ht Hi ltac:(lia))
      as (t' & -> & Ht' & Hco).
    exists t'. split; [reflexivity|]. split; [exact Ht'|]. split.
    + intros j' Hj'. rewrite Hco.
      destruct (decide (j' = j)) as [->|Hne].
      * rewrite Hf. apply list_lookup_insert_eq.
        destruct Ht as (_ & _ & _ & ->). apply index_in_range; lia.
      * rewrite list_lookup_insert_ne by lia. apply Hdone. lia.
    + intros i' j' Hi' Hj'. rewrite Hco.
      rewrite list_lookup_insert_ne.
      * now apply Hrest.
      * intros Heq. apply index_injective in Heq; lia.
  - exists R. split; [exact E|]. destruct HR as (HR & Hdone & Hrest).
    repeat split; try apply HR; assumption.
Qed.

Lemma scale_all :
  exists R,
    scale J factors = Some R
    /\ shape R (rows J) (cols J) (c J)
    /\ (forall i j, (i < rows J)%nat -> (j < cols J)%nat ->
          coeffs R !! (i * cols J + j)%nat
          = Some (mul_int (entry J i j) (factor j))).
Proof.
  unfold scale.
  destruct (for_range_inv
    (fun n R => shape R (rows J) (cols J) (c J)
       /\ (forall i j, (i < n)%nat -> (j < cols J)%nat ->
             coeffs R !! (i * cols J + j)%nat
             = Some (mul_int (entry J i j) (factor j))))
    (fun i result =>
      for_range 0 (consumer_loop_dims J) (fun j result =>
        x ← get J i j;
        f ← factors !! j;
        set_ref result i j (mul_int x f)) result)
    (producer_storage_dims J) 0%nat
    (new (rows J) (cols J) (c J))) as (R & E & HR).
  - split; [apply shape_new | intros; lia].
  - intros i t Hi (Ht & Hdone). unfold producer_storage_dims in Hi.
    destruct (scale_row t i Ht ltac:(lia)) as (t' & Et & Ht' & Hrow & Hrest).
    exists t'. split; [exact Et|]. split; [exact Ht'|].
    intros i' j Hi' Hj.
    destruct (decide (i' = i)) as [->|Hne].
    + now apply Hrow.
    + rewrite Hrest by assumption. apply Hdone; [lia | assumption].
  - exists R. split; [exact E|]. exact HR.
Qed.

End Scaling.

(** Every index below [r * cl] is a cell [(i, j)]. *)
Lemma index_cell (r cl k : nat) :
  (k < r * cl)%nat ->
  exists i j, (i < r)%nat /\ (j < cl)%nat /\ k = (i * cl + j)%nat.
Proof.
  intros Hk. assert (Hcl : cl <> 0%nat) by lia.
  exists (k / cl)%nat, (k mod cl)%nat.
  pose proof (Nat.div_mod_eq k cl) as E.
  pose proof (Nat.mod_upper_bound k cl Hcl) as Hm.
  split; [|split; [exact Hm | lia]].
  apply Nat.Div0.div_lt_upper_bound. lia.
Qed.

(** Scaling by a vector with a factor for every consumer loop returns a
    well-formed Jacobian of the same dimensions and count whose cell
    (i, j) is the cell of the original times [factors[j]]; scaling a
    constant Jacobian gives the Jacobian back. *)
Theorem scale_spec (J : LoadJacobian) (factors : list Z) :
  wf J -> (cols J <= length factors)%nat ->
  exists R,
    scale J factors = Some R
    /\ wf R /\ rows R = rows J /\ cols R = cols J /\ count R = count J
    /\ (forall i j f, (i < rows J)%nat -> (j < cols J)%nat ->
          factors !! j = Some f ->
          get R i j = Some (mul_int (entry J i j) f))
    /\ (is_constant J = true -> R = J).
Proof.
  intros HJ Hlen.
  destruct (scale_all J factors HJ Hlen)
    as (R & E & (Hr & Hc & Hcnt & Hlen') & Hcells).
  exists R. split; [exact E|].
  assert (HR : wf R) by (unfold wf; now rewrite Hr, Hc).
  split; [exact HR|]. split; [exact Hr|]. split; [exact Hc|].
  split; [exact Hcnt|]. split.
  - intros i j f Hi Hj Hf.
    unfold get, producer_storage_dims, consumer_loop_dims. rewrite Hr, Hc.
    destruct (Nat.eqb_spec (rows J) 0); [lia|].
    destruct (Nat.eqb_spec (cols J) 0); [lia|]. simpl.
    rewrite (Hcells i j Hi Hj), Hf. reflexivity.
  - intros Hconst. apply is_constant_forall in Hconst.
    assert (Hco : coeffs R = coeffs J).
    { apply list_eq. intros k.
      destruct (decide (k < rows J * cols J)%nat) as [Hk|Hk].
      - destruct (index_cell _ _ _ Hk) as (i & j & Hi & Hj & ->).
        rewrite (Hcells i j Hi Hj).
        pose proof (get_entry J i j HJ Hi Hj) as Hget.
        unfold get, producer_storage_dims, consumer_loop_dims in Hget.
        destruct (Nat.eqb_spec (rows J) 0); [lia|].
        destruct (Nat.eqb_spec (cols J) 0); [lia|]. simpl in Hget.
        rewrite Hget. f_equal. unfold mul_int.
        rewrite (proj2 (eq_int_0 (entry J i j))); [reflexivity|].
        rewrite Forall_lookup in Hconst. apply (Hconst _ _ Hget).
      - rewrite !(proj2 (lookup_ge_None _ _)); [reflexivity | |];
          unfold wf in HJ; lia. }
    destruct R, J. simpl in *. congruence.
Qed.

Lemma scale_spec_witness :
  exists R,
    scale (mkLJ [mkRat 1 1; mkRat 1 2] 5 1 2) [4; 6] = Some R
    /\ get R 0 1 = Some (mkRat 6 2) /\ count R = 5.
Proof.
  destruct (scale_spec (mkLJ [mkRat 1 1; mkRat 1 2] 5 1 2) [4; 6])
    as (R & E & _ & _ & _ & Hcnt & Hcell & _);
    [reflexivity | simpl; lia |].
  exists R. split; [exact E|]. split; [|exact Hcnt].
  apply (Hcell 0%nat 1%nat 6); [simpl; lia | simpl; lia | reflexivity].
Defined.

End Jacobian.

(** ** The beam search of [AutoSchedule.cpp]

    Integer counters of the search ([int], [size_t]) are integers of [Z]:
    they count decisions, states and passes and stay far inside their
    types.  Console output (progress bar, log lines) is left out. *)
Module Search.
Import Int.

(** How a call ends.  [InternalError] is [internal_assert] or
    [internal_error]: the process aborts with a diagnostic.  [Undefined] is
    an access the source leaves undefined (a null parent, an index outside
    a vector, a missing map key).  [Blocked] is a prompt that never gets
    its selection.  [OutOfFuel] belongs to the embedding only. *)
Inductive error : Type :=
| DecisionCountMismatch
| RanOutOfLegalStates (beam_size : Z)
| NegativeNodeId.

Inductive outcome (A : Type) : Type :=
| Returned (a : A)
| InternalError (e : error)
| Undefined
| Blocked
| OutOfFuel.

Arguments Returned {A} a.
Arguments InternalError {A} e.
Arguments Undefined {A}.
Arguments Blocked {A}.
Arguments OutOfFuel {A}.

#[export] Instance outcome_bind : MBind outcome := fun A B k m =>
  match m with
  | Returned a => k a
  | InternalError e => InternalError e
  | Undefined => Undefined
  | Blocked => Blocked
  | OutOfFuel => OutOfFuel
  end.

(** What [std::cin >> selection] meets next on standard input: the digits
    of a number, of any size, or characters that are no number. *)
Inductive token : Type :=
| Number (z : Z)
| NoNumber.

(** The operations the search performs on [double] costs. *)
Class Double (double : Type) : Type := {
  dzero : double;                        (* 0.0 *)
  dadd : double -> double -> double;     (* a + b *)
  dmul_int : double -> Z -> double;      (* c *= penalty *)
  dmul_1_2 : double -> double;           (* 1.2 * c *)
  dlt : double -> double -> bool;        (* a < b *)
  dle : double -> double -> bool         (* a <= b *)
}.

(** What [freeze_lowest_cost_stages] computes in [double] besides costs:
    [num_nodes - std::log2(num_nodes)] converts the count to [double],
    takes the logarithm of the C++ library and the difference in
    [double]; initialising a [size_t] with the result truncates it, and is
    undefined when the truncated value is no [size_t]. *)
Class SizeArith (double : Type) : Type := {
  of_size : nat -> double;               (* (double)num_nodes *)
  dlog2 : double -> double;              (* std::log2(x) *)
  dsub : double -> double -> double;     (* a - b *)
  to_size : double -> option nat         (* (size_t)x *)
}.

(** The parts of [FunctionDAG] the search reads.  A [const Node *] is
    kept as the node it points to, and a [NodeMap<T>] (a perfect hash map
    indexed by the node's [id]) as a map from node ids. *)
Record Node : Type := mkNode {
  node_id : Z;                           (* id *)
  is_input : bool;
  stages : nat                           (* stages.size() *)
}.

Record FunctionDAG : Type := mkDAG {
  nodes : list Node;
  stage_id_to_node_map : gmap Z Node
}.

Section Pass.

Context {double : Type} `{Double double} `{size_arith : SizeArith double}.

Variable dag : FunctionDAG.

(** [LoopNest] is declared outside the files at hand. *)
Variable LoopNest : Type.
(** [new LoopNest]. *)
Variable empty_loop_nest : LoopNest.

(** [struct State], with the members [AutoSchedule.cpp] reads and writes. *)
#[local] Unset Elimination Schemes.
Inductive State : Type := mkState {
  root : LoopNest;
  parent : option State;
  cost : double;
  cost_per_stage : list double;
  num_decisions_made : Z;
  penalized : bool
}.
#[local] Set Elimination Schemes.

(** [uint64_t State::structural_hash(int depth) const]. *)
Variable structural_hash : State -> Z -> Z.

(** The freeze maps handed to every pass: [inlined_nodes] and
    [compute_root_nodes]. *)
Record Frozen : Type := mkFrozen {
  inlined_nodes : gmap Z bool;
  compute_root_nodes : gmap Z (list LoopNest)
}.

(** [State::generate_children]: the children it hands to the callback, in
    order, for a state, the pre-pass flag and the freeze maps. *)
Variable generate_children : State -> bool -> Frozen -> list State.

(** Modelled from the spec: [CostModel::evaluate_costs], "a batch call that
    populates every enqueued state's cost and cost_per_stage"; [None] is a
    null [cost_model]. *)
Variable cost_model : option (State -> double * list double).

(** [std::mt19937] and [random_dropout(rng, num_decisions)]: whether to
    drop the state, and the generator afterwards. *)
Variable RNG : Type.
Variable random_dropout : RNG -> Z -> bool * RNG.

(** [get_env_variable("HL_CYOS") == "1"]. *)
Variable cyos : bool.

(** [dag.nodes.size()]. *)
Definition num_nodes : nat := length (nodes dag).

(** What a pass shares with its caller and its surroundings. *)
Record World : Type := mkWorld {
  rng : RNG;
  permitted_hashes : gset Z;
  num_states_added : Z;
  stdin : list token
}.

(** *** [StateQueue] *)

(** Modelled from the spec: [StateQueue], a heap "keyed by negative cost (so
    the best state pops first)" with [emplace], [pop], [top], [size],
    [swap], [resort], [clear] and index access; its declaration is outside
    the files at hand.  The queue is kept as the list of its states,
    cheapest first; among equal costs the earlier arrival pops first. *)
Fixpoint emplace (s : State) (q : list State) : list State :=
  match q with
  | [] => [s]
  | x :: q' => if dlt (cost s) (cost x) then s :: q else x :: emplace s q'
  end.

(** Modelled from the spec: [StateQueue::pop], the best state and the
    queue without it. *)
Definition pop (q : list State) : option (State * list State) :=
  match q with
  | [] => None
  | x :: q' => Some (x, q')
  end.

(** Modelled from the spec: [StateQueue::top]. *)
Definition top (q : list State) : option State := head q.

(** Modelled from the spec: [StateQueue::resort], the order restored after
    the costs have changed. *)
Definition resort (q : list State) : list State := foldr emplace [] q.

(** Modelled from the spec: [StateQueue::size]. *)
Definition queue_size (q : list State) : Z := Z.of_nat (length q).

(** Modelled from the spec: [StateQueue::empty]. *)
Definition empty (q : list State) : bool :=
  match q with [] => true | _ => false end.

(** *** The callback [enqueue_new_children] *)

(** [s->penalized = b]. *)
Definition set_penalized (s : State) (b : bool) : State :=
  mkState (root s) (parent s) (cost s) (cost_per_stage s)
          (num_decisions_made s) b.

(** The lambda [enqueue_new_children]: the assertion on the decisions, the
    flag cleared, the counter of states added, and the child queued in
    [q]. *)
Definition enqueue_new_children (s : State) (q : list State) (w : World)
  : outcome (list State * World) :=
  match parent s with
  | None => Undefined
  | Some p =>
      if negb (num_decisions_made s =? num_decisions_made p + 1)
      then InternalError DecisionCountMismatch
      else
        let s := set_penalized s false in
        let w := mkWorld (rng w) (permitted_hashes w)
                         (num_states_added w + 1) (stdin w) in
        Returned (emplace s q, w)
  end.

(** [generate_children] calls the callback once per child. *)
Fixpoint enqueue_all (children : list State) (q : list State) (w : World)
  : outcome (list State * World) :=
  match children with
  | [] => Returned (q, w)
  | s :: rest =>
      '(q, w) ← enqueue_new_children s q w;
      enqueue_all rest q w
  end.

(** *** One state of the expansion loop *)

Section OnePass.

Variable beam_size : Z.
Variable pass_idx : Z.
Variable num_passes : Z.
Variable frozen : Frozen.

(** The block guarded by
    [beam_size > 1 && num_passes > 1 && pass_idx >= 0]. *)
Inductive Penalty : Type :=
| Deferred (pending : list State) (hashes : gmap Z Z)
| Proceed (state : State) (hashes : gmap Z Z).

Definition penalize (state : State) (pending : list State)
    (hashes : gmap Z Z) (permitted : gset Z) : Penalty :=
  if (1 <? beam_size) && (1 <? num_passes) && (0 <=? pass_idx) then
    if negb (penalized state) then
      let h1 := structural_hash state (pass_idx + 1) in
      let h0 := structural_hash state (pass_idx - 1) in
      let penalty := default 0 (hashes !! h1) + 1 in
      let hashes := <[h1 := penalty]> hashes in
      let penalty :=
        if (0 <? pass_idx) && negb (bool_decide (h0 ∈ permitted))
        then penalty + 10 else penalty in
      if 1 <? penalty then
        let state :=
          mkState (root state) (parent state)
                  (dmul_int (cost state) penalty)
                  (map (fun c => dmul_int c penalty) (cost_per_stage state))
                  (num_decisions_made state) true in
        match top pending with
        | Some t =>
            if dlt (cost t) (cost state)
            then Deferred (emplace state pending) hashes
            else Proceed state hashes
        | None => Proceed state hashes
        end
      else Proceed state hashes
    else Proceed state hashes
  else Proceed state hashes.

(** [while (s) { permitted_hashes.insert(s->structural_hash(pass_idx));
    s = s->parent.get(); }]. *)
Fixpoint bless_ancestors (s : State) (permitted : gset Z) : gset Z :=
  let permitted := {[ structural_hash s pass_idx ]} ∪ permitted in
  match s with
  | mkState _ (Some p) _ _ _ _ => bless_ancestors p permitted
  | mkState _ None _ _ _ _ => permitted
  end.

(** The blessing loop run before a winner is returned. *)
Fixpoint bless (best state : State) (pending : list State) (blessed : Z)
    (permitted : gset Z) : gset Z :=
  if dle (cost state) (dmul_1_2 (cost best)) && (blessed <? beam_size) then
    let permitted := bless_ancestors state permitted in
    match pending with
    | [] => permitted
    | state :: pending => bless best state pending (blessed + 1) permitted
    end
  else permitted.

(** How the [while] loop of one round ends: with the winner of the pass, or
    with the children queued in [q]. *)
Inductive Expansion : Type :=
| Winner (best : State) (w : World)
| Expanded (q : list State) (w : World).

Fixpoint expand (fuel : nat) (expanded : Z) (pending q : list State)
    (hashes : gmap Z Z) (w : World) : outcome Expansion :=
  if negb ((expanded <? beam_size) && negb (empty pending))
  then Returned (Expanded q w)
  else
    match fuel with
    | O => OutOfFuel
    | S fuel =>
        match pop pending with
        | None => Undefined
        | Some (state, pending) =>
            match penalize state pending hashes (permitted_hashes w) with
            | Deferred pending hashes => expand fuel expanded pending q hashes w
            | Proceed state hashes =>
                let '(drop_it, rng') :=
                  if 1 <? queue_size pending
                  then random_dropout (rng w) (Z.of_nat num_nodes * 2)
                  else (false, rng w) in
                let w := mkWorld rng' (permitted_hashes w)
                                 (num_states_added w) (stdin w) in
                if drop_it then expand fuel expanded pending q hashes w
                else if num_decisions_made state =? 2 * Z.of_nat num_nodes
                then
                  let best := state in
                  let permitted :=
                    if (0 <=? pass_idx) && (pass_idx + 1 <? num_passes)
                    then bless best state pending 0 (permitted_hashes w)
                    else permitted_hashes w in
                  Returned (Winner best
                              (mkWorld (rng w) permitted
                                       (num_states_added w) (stdin w)))
                else
                  '(q, w) ← enqueue_all
                              (generate_children state
                                 (bool_decide (pass_idx = -1)) frozen) q w;
                  expand fuel (expanded + 1) pending q hashes w
            end
        end
    end.

End OnePass.

(** *** The rounds of a pass *)

(** Modelled from the spec: the members of a fresh [State] ("one State with
    an empty root LoopNest and num_decisions_made = 0"); [struct State] is
    declared outside the files at hand. *)
Definition initial : State :=
  mkState empty_loop_nest None dzero [] 0 false.

(** [evaluate_costs] on one queued state. *)
Definition evaluate (predict : State -> double * list double) (s : State)
  : State :=
  mkState (root s) (parent s) (fst (predict s)) (snd (predict s))
          (num_decisions_made s) (penalized s).

(** [int selection = -1; while (selection < 0 || selection >=
    (int)q.size()) std::cin >> selection;]: the selection the loop ends
    with and the input left over; [None] is a loop that does not end.

    The extraction into an [int] (C++11 and later) stores a number that
    fits.  For a number that does not fit it stores [INT_MAX] or
    [INT_MIN], and for characters that are no number it stores 0; in both
    cases it sets [failbit], and from then on no extraction reads or
    stores anything, in this loop or in a later round: the input left
    over is empty.  At the end of the input nothing is stored either. *)
Fixpoint read_selection (input : list token) (q_size : Z)
  : option (Z * list token) :=
  match input with
  | [] => None
  | Number z :: input =>
      if (INT32_MIN <=? z) && (z <=? INT32_MAX) then
        let selection := z in
        if (selection <? 0) || (q_size <=? selection)
        then read_selection input q_size
        else Some (selection, input)
      else
        let selection := if z <? INT32_MIN then INT32_MIN else INT32_MAX in
        if (selection <? 0) || (q_size <=? selection)
        then None
        else Some (selection, [])
  | NoNumber :: input =>
      let selection := 0 in
      if (selection <? 0) || (q_size <=? selection)
      then None
      else Some (selection, [])
  end.

(** The loop [for (int i = 0;; i++)] of [optimal_schedule_pass], entered
    with the queues [q] and [pending].  The branch that would restart with
    twice the beam size is kept as the source has it, behind [false]. *)
Fixpoint rounds (fuel : nat) (beam_size pass_idx num_passes : Z)
    (frozen : Frozen) (q pending : list State) (w : World)
  : outcome (State * World) :=
  match fuel with
  | O => OutOfFuel
  | S fuel =>
      let hashes : gmap Z Z := ∅ in
      let '(q, pending) := (pending, q) in
      if empty pending then
        if false && (beam_size <? 1000)
        then rounds fuel (beam_size * 2) pass_idx num_passes frozen
                    [initial] [] w
        else InternalError (RanOutOfLegalStates beam_size)
      else
        r ← expand beam_size pass_idx num_passes frozen fuel 0 pending q
                   hashes w;
        match r with
        | Winner best w => Returned (best, w)
        | Expanded q w =>
            let pending : list State := [] in
            let q := match cost_model with
                     | Some predict => resort (map (evaluate predict) q)
                     | None => q
                     end in
            if cyos then
              match cost_model with
              | None => Undefined
              | Some _ =>
                  match read_selection (stdin w) (queue_size q) with
                  | None => Blocked
                  | Some (selection, input) =>
                      match q !! Z.to_nat selection with
                      | None => Undefined
                      | Some selected =>
                          rounds fuel beam_size pass_idx num_passes frozen
                                 (emplace selected []) pending
                                 (mkWorld (rng w) (permitted_hashes w)
                                          (num_states_added w) input)
                      end
                  end
              end
            else rounds fuel beam_size pass_idx num_passes frozen q pending w
        end
  end.

(** [optimal_schedule_pass]: the winner and the world afterwards.
    [configure_pipeline_features] only prepares the cost model. *)
Definition optimal_schedule_pass (fuel : nat)
    (beam_size pass_idx num_passes : Z) (frozen : Frozen) (w : World)
  : outcome (State * World) :=
  rounds fuel beam_size pass_idx num_passes frozen (emplace initial []) [] w.

(** *** [freeze_lowest_cost_stages] *)

(** Members of [LoopNest] the freeze reads: [children], [node], and
    [deep_copy_loop_nest] with the mutator that clears [inlined]. *)
Variable children : LoopNest -> list LoopNest.
Variable node : LoopNest -> Node.
Variable deep_copy_loop_nest : LoopNest -> LoopNest.
Variable collect_nodes_that_should_be_inlined :
  LoopNest -> gmap Z bool -> gmap Z bool -> gmap Z bool.

(** The first loop: stages and nodes that are not inputs. *)
Definition count_non_inputs : nat * nat :=
  foldl (fun '(num_stages, num_nodes) n =>
           if is_input n then (num_stages, num_nodes)
           else ((num_stages + stages n)%nat, S num_nodes))
        (0%nat, 0%nat) (nodes dag).

(** One round of the second loop: the cost of stage [i] is added to the
    entry of its node, created at 0 when missing. *)
Definition add_stage_cost (best : State) (node_costs : gmap Z double) (i : nat)
  : outcome (gmap Z double) :=
  match stage_id_to_node_map dag !! Z.of_nat i with
  | None => Undefined
  | Some n =>
      if is_input n then Returned node_costs
      else
        match cost_per_stage best !! i with
        | None => Undefined
        | Some stage_cost =>
            Returned (<[node_id n :=
                          dadd (default dzero (node_costs !! node_id n))
                               stage_cost]> node_costs)
        end
  end.

Fixpoint sum_stage_costs (best : State) (stage_ids : list nat)
    (node_costs : gmap Z double) : outcome (gmap Z double) :=
  match stage_ids with
  | [] => Returned node_costs
  | i :: stage_ids =>
      node_costs ← add_stage_cost best node_costs i;
      sum_stage_costs best stage_ids node_costs
  end.

(** An insertion sort by [a.second < b.second]; the source leaves the
    order of equal costs open. *)
Fixpoint insert_by_cost (x : Z * double) (l : list (Z * double))
  : list (Z * double) :=
  match l with
  | [] => [x]
  | y :: l' => if dlt (snd x) (snd y) then x :: l else y :: insert_by_cost x l'
  end.

Definition insertion_sort (l : list (Z * double)) : list (Z * double) :=
  foldr insert_by_cost [] l.

(** What [std::sort] requires of its comparison on the elements it is
    given: a strict weak ordering.  [<] on costs that are not all numbers
    is none. *)
Definition strict_weak_on (l : list (Z * double)) : bool :=
  forallb (fun a =>
    negb (dlt (snd a) (snd a))
    && forallb (fun b =>
         forallb (fun c =>
           implb (dlt (snd a) (snd b) && dlt (snd b) (snd c))
                 (dlt (snd a) (snd c))
           && implb (dlt (snd a) (snd b))
                    (dlt (snd a) (snd c) || dlt (snd c) (snd b))) l) l) l.

(** [std::sort] with the comparison [a.second < b.second]: undefined
    unless the comparison is a strict weak ordering of the elements. *)
Definition sort_by_cost (l : list (Z * double))
  : outcome (list (Z * double)) :=
  if strict_weak_on l then Returned (insertion_sort l) else Undefined.

(** [size_t num_to_freeze = num_nodes - std::log2(num_nodes)]. *)
Definition num_to_freeze (num_nodes : nat) : option nat :=
  to_size (dsub (of_size num_nodes) (dlog2 (of_size num_nodes))).

(** The loop that fills [nodes_to_freeze] from the first [count] entries. *)
Fixpoint freeze_first (count i : nat) (node_ids_and_costs : list (Z * double))
    (nodes_to_freeze : gmap Z bool) : outcome (gmap Z bool) :=
  match count with
  | O => Returned nodes_to_freeze
  | S count =>
      match node_ids_and_costs !! i with
      | None => Undefined
      | Some (id, _) =>
          match nodes dag !! Z.to_nat id with
          | None => Undefined
          | Some n =>
              freeze_first count (S i) node_ids_and_costs
                           (<[node_id n := true]> nodes_to_freeze)
          end
      end
  end.

(** The sorted pairs and the local [nodes_to_freeze] of
    [freeze_lowest_cost_stages]. *)
Definition nodes_to_freeze (best : State)
  : outcome (list (Z * double) * gmap Z bool) :=
  let '(num_stages, num_nodes) := count_non_inputs in
  node_costs ← sum_stage_costs best (seq 0 num_stages) ∅;
  let node_ids_and_costs := map_to_list node_costs in
  if negb (forallb (fun n => 0 <=? fst n) node_ids_and_costs)
  then InternalError NegativeNodeId
  else
    node_ids_and_costs ← sort_by_cost node_ids_and_costs;
    match num_to_freeze num_nodes with
    | None => Undefined
    | Some count =>
        to_freeze ← freeze_first count 0 node_ids_and_costs ∅;
        Returned (node_ids_and_costs, to_freeze)
    end.

Definition freeze_lowest_cost_stages (best : State) (frozen : Frozen)
  : outcome Frozen :=
  '(_, to_freeze) ← nodes_to_freeze best;
  let inlined :=
    collect_nodes_that_should_be_inlined (root best) to_freeze
                                         (inlined_nodes frozen) in
  let compute_root :=
    foldl (fun m c =>
             let key := node_id (node c) in
             match to_freeze !! key with
             | Some _ =>
                 <[key := default [] (m !! key) ++ [deep_copy_loop_nest c]]> m
             | None => m
             end)
          (compute_root_nodes frozen) (children (root best)) in
  Returned (mkFrozen inlined compute_root).

(** *** [optimal_schedule] *)

(** [HL_NUM_PASSES] through [atoi], when set, and whether
    [HL_FREEZE_INLINE_COMPUTE_ROOT] is "1". *)
Variable num_passes_env : option Z.
Variable use_pre_pass : bool.

(** The loop over the passes, [n] passes from [pass_idx] on.  [log] holds
    the winner of every pass in order, as the lines "Pass i of n, cost"
    report them. *)
Fixpoint passes (n : nat) (fuel : nat) (beam_size pass_idx num_passes : Z)
    (best : option State) (frozen : Frozen) (w : World)
    (log : list (Z * State))
  : outcome (option State * World * list (Z * State)) :=
  match n with
  | O => Returned (best, w, log)
  | S n =>
      '(pass, w) ← optimal_schedule_pass fuel beam_size pass_idx num_passes
                                         frozen w;
      let log := log ++ [(pass_idx, pass)] in
      frozen ← (if pass_idx =? -1
                then freeze_lowest_cost_stages pass frozen
                else Returned frozen);
      best ← (if 0 <=? pass_idx then
                if pass_idx =? 0 then Returned (Some pass)
                else
                  match best with
                  | None => Undefined
                  | Some b => Returned (if dlt (cost pass) (cost b)
                                        then Some pass else Some b)
                  end
              else Returned best);
      passes n fuel beam_size (pass_idx + 1) num_passes best frozen w log
  end.

Definition optimal_schedule (fuel : nat) (beam_size : Z) (w : World)
  : outcome (State * World * list (Z * State)) :=
  let w := mkWorld (rng w) ∅ (num_states_added w) (stdin w) in
  let num_passes := if beam_size =? 1 then 1 else 5 in
  let num_passes := if cyos then 1 else num_passes in
  let num_passes := match num_passes_env with
                    | Some n => n
                    | None => num_passes
                    end in
  let pass_idx := if use_pre_pass then -1 else 0 in
  let num_passes := if use_pre_pass && (1 <? num_passes)
                    then num_passes - 1 else num_passes in
  '(best, w, log) ← passes (Z.to_nat (num_passes - pass_idx)) fuel beam_size
                           pass_idx num_passes None (mkFrozen ∅ ∅) w [];
  match best with
  | None => Undefined
  | Some best => Returned (best, w, log)
  end.

(** The number of passes asked for: [HL_NUM_PASSES] when set, else one
    pass for a beam of one or a steered search, else five. *)
Definition requested_passes (beam_size : Z) : Z :=
  match num_passes_env with
  | Some n => n
  | None => if cyos then 1 else if beam_size =? 1 then 1 else 5
  end.

(** The [num_passes] the passes are told: one less with a pre-pass, unless
    that would leave none. *)
Definition effective_passes (beam_size : Z) : Z :=
  if use_pre_pass && (1 <? requested_passes beam_size)
  then requested_passes beam_size - 1
  else requested_passes beam_size.

(** The calls the loop of [optimal_schedule] makes, read off its log: one
    call of [optimal_schedule_pass] per entry, with the index logged, on
    the world the call before left and with the freeze maps as the
    pre-pass left them; the state logged is the state that call
    returned. *)
Fixpoint pass_chain (fuel : nat) (beam_size pass_idx num_passes : Z)
    (frozen : Frozen) (w : World) (log : list (Z * State)) (w' : World)
  : Prop :=
  match log with
  | [] => w' = w
  | (i, pass) :: log =>
      i = pass_idx
      /\ exists w1 frozen1,
          optimal_schedule_pass fuel beam_size pass_idx num_passes frozen w
          = Returned (pass, w1)
          /\ (if pass_idx =? -1
              then freeze_lowest_cost_stages pass frozen
              else Returned frozen) = Returned frozen1
          /\ pass_chain fuel beam_size (pass_idx + 1) num_passes frozen1 w1
                        log w'
  end.

(** *** Decisions made *)

(** A child with one more decision than its parent. *)
Definition one_more_decision (s : State) : Prop :=
  exists p, parent s = Some p
            /\ num_decisions_made s = num_decisions_made p + 1.

Lemma enqueue_new_children_returned s q w q' w' :
  enqueue_new_children s q w = Returned (q', w') ->
  one_more_decision s
  /\ q' = emplace (set_penalized s false) q
  /\ num_states_added w' = num_states_added w + 1.
Proof.
  unfold enqueue_new_children, one_more_decision.
  destruct (parent s) as [p|]; [|discriminate].
  destruct (Z.eqb_spec (num_decisions_made s) (num_decisions_made p + 1));
    simpl; [|discriminate].
  intros [= <- <-]. simpl. eauto.
Qed.

Lemma enqueue_new_children_mismatch s p q w :
  parent s = Some p ->
  num_decisions_made s <> num_decisions_made p + 1 ->
  enqueue_new_children s q w = InternalError DecisionCountMismatch.
Proof.
  intros Hp Hne. unfold enqueue_new_children. rewrite Hp.
  destruct (Z.eqb_spec (num_decisions_made s) (num_decisions_made p + 1));
    [contradiction | reflexivity].
Qed.

Lemma enqueue_all_returned kids :
  forall q w q' w',
    enqueue_all kids q w = Returned (q', w') ->
    Forall one_more_decision kids.
Proof.
  induction kids as [|s rest IH]; intros q w q' w' E; [constructor|].
  simpl in E.
  destruct (enqueue_new_children s q w) as [[q1 w1]| | | |] eqn:E1;
    try discriminate.
  simpl in E. constructor.
  - now apply enqueue_new_children_returned in E1 as [? _].
  - now apply (IH q1 w1 q' w').
Qed.

Lemma expand_winner beam_size pass_idx num_passes frozen fuel :
  forall expanded pending q hashes w best w',
    expand beam_size pass_idx num_passes frozen fuel expanded pending q
           hashes w = Returned (Winner best w') ->
    num_decisions_made best = 2 * Z.of_nat num_nodes.
Proof.
  induction fuel as [|fuel IH]; intros expanded pending q hashes w best w' E;
    simpl in E.
  - destruct (negb _); discriminate.
  - destruct (negb _); [discriminate|].
    destruct (pop pending) as [[state pending']|]; [|discriminate].
    destruct (penalize _ _ _ state pending' hashes (permitted_hashes w))
      as [pending2 hashes2 | state2 hashes2].
    { now apply IH in E. }
    destruct (if 1 <? queue_size pending'
              then random_dropout (rng w) (Z.of_nat num_nodes * 2)
              else (false, rng w)) as [drop_it rng'].
    destruct drop_it.
    { now apply IH in E. }
    destruct (Z.eqb_spec (num_decisions_made state2) (2 * Z.of_nat num_nodes))
      as [Heq|_].
    { injection E as <- _. exact Heq. }
    destruct (enqueue_all _ _ _) as [[q1 w1]| | | |]; try discriminate.
    simpl in E. now apply IH in E.
Qed.

Lemma rounds_winner fuel :
  forall beam_size pass_idx num_passes frozen q pending w best w',
    rounds fuel beam_size pass_idx num_passes frozen q pending w
    = Returned (best, w') ->
    num_decisions_made best = 2 * Z.of_nat num_nodes.
Proof.
  induction fuel as [|fuel IH];
    intros beam_size pass_idx num_passes frozen q pending w best w' E;
    simpl in E; [discriminate|].
  destruct (empty q); [discriminate|].
  destruct (expand _ _ _ _ fuel 0 q pending ∅ w) as [r| | | |] eqn:Ex;
    try discriminate.
  simpl in E. destruct r as [b w1 | q1 w1].
  - injection E as <- _. now apply expand_winner in Ex.
  - destruct cyos.
    + destruct cost_model as [predict|]; [|discriminate].
      destruct (read_selection _ _) as [[selection input]|]; [|discriminate].
      destruct (_ !! _) as [selected|]; [|discriminate].
      now apply IH in E.
    + now apply IH in E.
Qed.

(** The state that comes out of the penalty block and is not dropped
    reaches the test of its decisions; with [2 * |dag.nodes|] of them it is
    returned at once. *)
Definition drop_drawn (pending : list State) (w : World) : bool :=
  fst (if 1 <? queue_size pending
       then random_dropout (rng w) (Z.of_nat num_nodes * 2)
       else (false, rng w)).

Lemma expand_terminal beam_size pass_idx num_passes frozen fuel
    expanded state pending q hashes w state' hashes' :
  expanded < beam_size ->
  penalize beam_size pass_idx num_passes state pending hashes
           (permitted_hashes w) = Proceed state' hashes' ->
  drop_drawn pending w = false ->
  num_decisions_made state' = 2 * Z.of_nat num_nodes ->
  exists w',
    expand beam_size pass_idx num_passes frozen (S fuel) expanded
           (state :: pending) q hashes w = Returned (Winner state' w').
Proof.
  intros Hbeam Hpen Hdrop Hdone. simpl.
  destruct (Z.ltb_spec expanded beam_size); [|lia]. simpl.
  rewrite Hpen. unfold drop_drawn in Hdrop.
  destruct (if 1 <? queue_size pending
            then random_dropout (rng w) (Z.of_nat num_nodes * 2)
            else (false, rng w)) as [drop_it rng'].
  simpl in Hdrop. subst drop_it.
  rewrite Hdone, Z.eqb_refl. eauto.
Qed.

(** C5: a call of the callback that returns was given a child with exactly
    one more decision than its parent, so every child of a round that
    queued all its children has; a child with any other count stops the
    pass with an internal error.  The state a pass returns has made
    [2 * |dag.nodes|] decisions, and a popped state that reaches the test
    with that many (it is neither put back by the penalty nor dropped) is
    returned there. *)
Theorem decisions_monotone_and_terminal :
  (forall kids q w q' w',
      enqueue_all kids q w = Returned (q', w') ->
      Forall one_more_decision kids)
  /\ (forall s p q w,
        parent s = Some p ->
        num_decisions_made s <> num_decisions_made p + 1 ->
        enqueue_new_children s q w = InternalError DecisionCountMismatch)
  /\ (forall fuel beam_size pass_idx num_passes frozen w best w',
        optimal_schedule_pass fuel beam_size pass_idx num_passes frozen w
        = Returned (best, w') ->
        num_decisions_made best = 2 * Z.of_nat (length (nodes dag)))
  /\ (forall beam_size pass_idx num_passes frozen fuel expanded state pending
             q hashes w state' hashes',
        expanded < beam_size ->
        penalize beam_size pass_idx num_passes state pending hashes
                 (permitted_hashes w) = Proceed state' hashes' ->
        drop_drawn pending w = false ->
        num_decisions_made state' = 2 * Z.of_nat (length (nodes dag)) ->
        exists w',
          expand beam_size pass_idx num_passes frozen (S fuel) expanded
                 (state :: pending) q hashes w
          = Returned (Winner state' w')).
Proof.
  split; [|split; [|split]].
  - exact enqueue_all_returned.
  - exact enqueue_new_children_mismatch.
  - intros fuel beam_size pass_idx num_passes frozen w best w' E.
    now apply rounds_winner in E.
  - intros. now apply expand_terminal with (hashes' := hashes').
Qed.

(** *** Total mortality *)

Lemma enqueue_all_error kids :
  forall q w e,
    enqueue_all kids q w = InternalError e -> e = DecisionCountMismatch.
Proof.
  induction kids as [|s rest IH]; intros q w e E; simpl in E; [discriminate|].
  destruct (enqueue_new_children s q w) as [[q1 w1]|e1| | |] eqn:E1;
    try discriminate; simpl in E.
  - now apply IH in E.
  - injection E as <-. unfold enqueue_new_children in E1.
    destruct (parent s); [|discriminate].
    destruct (negb _); [|discriminate]. now injection E1 as <-.
Qed.

Lemma expand_error beam_size pass_idx num_passes frozen fuel :
  forall expanded pending q hashes w e,
    expand beam_size pass_idx num_passes frozen fuel expanded pending q
           hashes w = InternalError e ->
    e = DecisionCountMismatch.
Proof.
  induction fuel as [|fuel IH]; intros expanded pending q hashes w e E;
    simpl in E.
  - destruct (negb _); discriminate.
  - destruct (negb _); [discriminate|].
    destruct (pop pending) as [[state pending']|]; [|discriminate].
    destruct (penalize _ _ _ state pending' hashes (permitted_hashes w))
      as [pending2 hashes2 | state2 hashes2].
    { now apply IH in E. }
    destruct (if 1 <? queue_size pending'
              then random_dropout (rng w) (Z.of_nat num_nodes * 2)
              else (false, rng w)) as [drop_it rng'].
    destruct drop_it.
    { now apply IH in E. }
    destruct (num_decisions_made state2 =? 2 * Z.of_nat num_nodes);
      [discriminate|].
    destruct (enqueue_all _ _ _) as [[q1 w1]|e1| | |] eqn:Eq;
      try discriminate; simpl in E.
    + now apply IH in E.
    + injection E as <-. now apply enqueue_all_error in Eq.
Qed.

Lemma rounds_mortality fuel :
  forall beam_size pass_idx num_passes frozen q pending w b,
    rounds fuel beam_size pass_idx num_passes frozen q pending w
    = InternalError (RanOutOfLegalStates b) ->
    b = beam_size.
Proof.
  induction fuel as [|fuel IH];
    intros beam_size pass_idx num_passes frozen q pending w b E;
    simpl in E; [discriminate|].
  destruct (empty q); [now injection E as <-|].
  destruct (expand _ _ _ _ fuel 0 q pending ∅ w) as [r|e| | |] eqn:Ex;
    try discriminate; simpl in E.
  - destruct r as [b0 w1 | q1 w1]; [discriminate|].
    destruct cyos.
    + destruct cost_model as [predict|]; [|discriminate].
      destruct (read_selection _ _) as [[selection input]|]; [|discriminate].
      destruct (_ !! _) as [selected|]; [|discriminate].
      now apply IH in E.
    + now apply IH in E.
  - apply expand_error in Ex. congruence.
Qed.

(** C6: a round that starts with nothing to expand ends the pass with the
    internal error that names the beam size in use, whatever that size is;
    and whenever a pass ends with that error, the beam size it names is the
    one the pass was called with: no pass is run again with a doubled
    beam. *)
Theorem total_mortality_is_fatal
    (beam_size pass_idx num_passes : Z) (frozen : Frozen) :
  (forall fuel pending w,
     rounds (S fuel) beam_size pass_idx num_passes frozen [] pending w
     = InternalError (RanOutOfLegalStates beam_size))
  /\ (forall fuel w b,
        optimal_schedule_pass fuel beam_size pass_idx num_passes frozen w
        = InternalError (RanOutOfLegalStates b) ->
        b = beam_size).
Proof.
  split.
  - reflexivity.
  - intros fuel w b E. now apply rounds_mortality in E.
Qed.

(** *** Penalties *)

(** The state after a penalty [penalty]. *)
Definition penalized_by (penalty : Z) (state state' : State) : Prop :=
  1 < penalty
  /\ penalized state = false
  /\ penalized state' = true
  /\ cost state' = dmul_int (cost state) penalty
  /\ cost_per_stage state'
     = map (fun c => dmul_int c penalty) (cost_per_stage state)
  /\ num_decisions_made state' = num_decisions_made state
  /\ parent state' = parent state
  /\ root state' = root state.

Lemma penalize_off beam_size pass_idx num_passes state pending hashes permitted :
  beam_size <= 1 \/ num_passes <= 1 \/ pass_idx < 0 ->
  penalize beam_size pass_idx num_passes state pending hashes permitted
  = Proceed state hashes.
Proof.
  intros Hoff. unfold penalize.
  destruct (Z.ltb_spec 1 beam_size); [|reflexivity].
  destruct (Z.ltb_spec 1 num_passes); [|reflexivity].
  destruct (Z.leb_spec 0 pass_idx); [lia | reflexivity].
Qed.

Lemma penalize_flagged beam_size pass_idx num_passes state pending hashes
    permitted :
  penalized state = true ->
  penalize beam_size pass_idx num_passes state pending hashes permitted
  = Proceed state hashes.
Proof.
  intros Hflag. unfold penalize. rewrite Hflag. simpl.
  now destruct (_ && _).
Qed.

Lemma penalize_cases beam_size pass_idx num_passes state pending hashes
    permitted :
  match penalize beam_size pass_idx num_passes state pending hashes permitted
  with
  | Proceed state' _ =>
      state' = state \/ exists penalty, penalized_by penalty state state'
  | Deferred pending' _ =>
      exists penalty state',
        penalized_by penalty state state' /\ pending' = emplace state' pending
  end.
Proof.
  unfold penalize.
  destruct (_ && _); [|now left].
  destruct (penalized state) eqn:Hflag; simpl; [now left|].
  set (penalty := if _ && _ then _ else _).
  destruct (Z.ltb_spec 1 penalty) as [Hp|_]; [|now left].
  set (state' := mkState _ _ _ _ _ _).
  assert (Hby : penalized_by penalty state state')
    by (unfold penalized_by; repeat split; assumption).
  destruct (top pending) as [t|]; [|cbn; right; eauto].
  destruct (dlt _ _); cbn; [eauto | right; eauto].
Qed.

(** A state as it was, or with the one penalty the block applies. *)
Definition at_most_once (s0 s : State) : Prop :=
  s = s0 \/ exists penalty, penalized_by penalty s0 s.

(** A state of the queue [pending0] the expansion loop started with,
    penalized at most once since. *)
Definition from_pending (pending0 : list State) (s : State) : Prop :=
  exists s0, s0 ∈ pending0 /\ at_most_once s0 s.

(** The queue after the callback has queued [kids], each with its flag
    cleared. *)
Definition queue_children (q kids : list State) : list State :=
  foldl (fun q c => emplace (set_penalized c false) q) q kids.

Lemma emplace_all (P : State -> Prop) s q :
  P s -> Forall P q -> Forall P (emplace s q).
Proof.
  intros Hs Hq. induction Hq as [|x q Hx Hq IH]; simpl.
  - now constructor.
  - destruct (dlt (cost s) (cost x)); repeat constructor; assumption.
Qed.

Lemma enqueue_all_queue kids :
  forall q w q' w',
    enqueue_all kids q w = Returned (q', w') ->
    q' = queue_children q kids.
Proof.
  induction kids as [|s rest IH]; intros q w q' w' E; simpl in E.
  - now injection E as <- _.
  - destruct (enqueue_new_children s q w) as [[q1 w1]| | | |] eqn:E1;
      try discriminate.
    simpl in E. apply IH in E as ->.
    now apply enqueue_new_children_returned in E1 as (_ & -> & _).
Qed.

Lemma penalized_from_pending pending0 state state' penalty :
  from_pending pending0 state ->
  penalized_by penalty state state' ->
  from_pending pending0 state'.
Proof.
  intros (s0 & Hin & [-> | [p0 Hby0]]) Hby.
  - exists s0. split; [exact Hin|]. right. now exists penalty.
  - destruct Hby0 as (_ & _ & Htrue & _). destruct Hby as (_ & Hfalse & _).
    congruence.
Qed.

(** Within one expansion loop no state is penalized twice: the winner, and
    every state whose children are generated, is a state the loop started
    with, as it was or with one penalty.  At most [beam_size] states are
    expanded, and the queue is filled with their children and nothing
    else, each with its flag cleared. *)
Lemma expand_once beam_size pass_idx num_passes frozen pending0 fuel :
  forall expanded pending q hashes w r,
    Forall (from_pending pending0) pending ->
    expand beam_size pass_idx num_passes frozen fuel expanded pending q
           hashes w = Returned r ->
    match r with
    | Winner best _ => from_pending pending0 best
    | Expanded q' _ =>
        exists expanded_states,
          Forall (from_pending pending0) expanded_states
          /\ expanded + Z.of_nat (length expanded_states)
             <= Z.max expanded beam_size
          /\ q' = queue_children q
                    (concat (map (fun s => generate_children s
                                    (bool_decide (pass_idx = -1)) frozen)
                                 expanded_states))
    end.
Proof.
  induction fuel as [|fuel IH]; intros expanded pending q hashes w r Hfrom E;
    simpl in E.
  - destruct (negb _); [|discriminate]. injection E as <-.
    exists []. split; [constructor|]. split; [simpl; lia | reflexivity].
  - destruct (negb _) eqn:G.
    { injection E as <-.
      exists []. split; [constructor|]. split; [simpl; lia | reflexivity]. }
    apply negb_false_iff, andb_true_iff in G as [Hlt _].
    apply Z.ltb_lt in Hlt.
    destruct pending as [|state pending']; [discriminate|].
    cbn [pop] in E. apply Forall_cons in Hfrom as [Hstate Hrest].
    pose proof (penalize_cases beam_size pass_idx num_passes state pending'
                  hashes (permitted_hashes w)) as Hcases.
    destruct (penalize _ _ _ state pending' hashes (permitted_hashes w))
      as [pending2 hashes2 | state2 hashes2].
    { destruct Hcases as (penalty & state' & Hby & ->).
      apply IH in E; [exact E|].
      apply emplace_all; [|exact Hrest].
      now apply (penalized_from_pending _ state _ penalty). }
    assert (Hstate2 : from_pending pending0 state2).
    { destruct Hcases as [-> | [penalty Hby]]; [exact Hstate|].
      now apply (penalized_from_pending _ state _ penalty). }
    destruct (if 1 <? queue_size pending'
              then random_dropout (rng w) (Z.of_nat num_nodes * 2)
              else (false, rng w)) as [drop_it rng'].
    destruct drop_it.
    { now apply IH in E. }
    destruct (Z.eqb_spec (num_decisions_made state2) (2 * Z.of_nat num_nodes))
      as [Heq|_].
    { injection E as <-. exact Hstate2. }
    destruct (enqueue_all _ _ _) as [[q1 w1]| | | |] eqn:Eall;
      try discriminate.
    simpl in E. apply enqueue_all_queue in Eall as ->.
    apply IH in E; [|exact Hrest].
    destruct r as [best w' | q' w']; [exact E|].
    destruct E as (states & Hstates & Hbound & ->).
    exists (state2 :: states). split; [now constructor|].
    split; [rewrite length_cons, Nat2Z.inj_succ; lia|].
    cbn [map concat]. unfold queue_children. now rewrite foldl_app.
Qed.

(** C7: the penalty block does nothing unless [beam_size > 1],
    [num_passes > 1] and [pass_idx >= 0]; it does nothing to a state whose
    flag is set, neither to its costs nor to the hash counts; a state it
    does penalize has its cost and every per-stage cost multiplied by one
    penalty greater than 1 and its flag set, whether it is then expanded or
    put back, so that the next visit leaves it alone.  The flag is cleared
    by the callback that queues a new child, and evaluation of the costs
    keeps it.  Within one expansion loop this makes the penalty be applied
    at most once: the winner and every state that is expanded is a state
    the loop started with, unchanged or penalized once; the states queued
    are the children of the states expanded, with their flags cleared. *)
Theorem penalty_guarded_and_idempotent
    (beam_size pass_idx num_passes : Z) (state : State)
    (pending : list State) (hashes : gmap Z Z) (permitted : gset Z) :
  (beam_size <= 1 \/ num_passes <= 1 \/ pass_idx < 0 ->
   penalize beam_size pass_idx num_passes state pending hashes permitted
   = Proceed state hashes)
  /\ (penalized state = true ->
      penalize beam_size pass_idx num_passes state pending hashes permitted
      = Proceed state hashes)
  /\ match penalize beam_size pass_idx num_passes state pending hashes
                    permitted with
     | Proceed state' _ =>
         state' = state
         \/ ((1 < beam_size /\ 1 < num_passes /\ 0 <= pass_idx)
             /\ (exists penalty, penalized_by penalty state state')
             /\ forall pending2 hashes2 permitted2,
                  penalize beam_size pass_idx num_passes state' pending2
                           hashes2 permitted2
                  = Proceed state' hashes2)
     | Deferred pending' _ =>
         (1 < beam_size /\ 1 < num_passes /\ 0 <= pass_idx)
         /\ exists penalty state',
             penalized_by penalty state state'
             /\ pending' = emplace state' pending
             /\ forall pending2 hashes2 permitted2,
                  penalize beam_size pass_idx num_passes state' pending2
                           hashes2 permitted2
                  = Proceed state' hashes2
     end
  /\ (forall s q w q' w',
        enqueue_new_children s q w = Returned (q', w') ->
        q' = emplace (set_penalized s false) q)
  /\ (forall predict s, penalized (evaluate predict s) = penalized s)
  /\ (forall frozen fuel expanded pending0 q hashes0 w r,
        expand beam_size pass_idx num_passes frozen fuel expanded pending0 q
               hashes0 w = Returned r ->
        match r with
        | Winner best _ => from_pending pending0 best
        | Expanded q' _ =>
            exists expanded_states,
              Forall (from_pending pending0) expanded_states
              /\ expanded + Z.of_nat (length expanded_states)
                 <= Z.max expanded beam_size
              /\ q' = queue_children q
                        (concat (map (fun s => generate_children s
                                        (bool_decide (pass_idx = -1)) frozen)
                                     expanded_states))
        end).
Proof.
  split; [apply penalize_off|]. split; [apply penalize_flagged|].
  split; [|split; [|split]].
  - pose proof (penalize_cases beam_size pass_idx num_passes state pending
                  hashes permitted) as Hc.
    assert (Hon : forall r,
      penalize beam_size pass_idx num_passes state pending hashes permitted = r ->
      r <> Proceed state hashes ->
      1 < beam_size /\ 1 < num_passes /\ 0 <= pass_idx).
    { intros r Hr Hne.
      destruct (Z.ltb_spec 1 beam_size); [|exfalso; apply Hne; rewrite <- Hr;
        apply penalize_off; lia].
      destruct (Z.ltb_spec 1 num_passes); [|exfalso; apply Hne; rewrite <- Hr;
        apply penalize_off; lia].
      destruct (Z.leb_spec 0 pass_idx); [|exfalso; apply Hne; rewrite <- Hr;
        apply penalize_off; lia].
      auto. }
    destruct (penalize beam_size pass_idx num_passes state pending hashes
                permitted) as [pending' hashes' | state' hashes'] eqn:E.
    + split; [apply (Hon _ eq_refl); discriminate|].
      destruct Hc as (penalty & state' & Hby & ->).
      exists penalty, state'. repeat split; try apply Hby; try reflexivity.
      intros. apply penalize_flagged. apply Hby.
    + destruct Hc as [-> | [penalty Hby]]; [now left | right].
      split.
      { apply (Hon _ eq_refl). intros [= -> _].
        destruct Hby as (_ & Hf & Ht & _). congruence. }
      split; [eauto|]. intros. apply penalize_flagged. apply Hby.
  - intros s q w q' w' E.
    now apply enqueue_new_children_returned in E as (_ & -> & _).
  - reflexivity.
  - intros frozen fuel expanded pending0 q hashes0 w r E.
    apply (expand_once _ _ _ _ pending0) in E; [exact E|].
    apply Forall_forall. intros s Hs. exists s. split; [exact Hs | now left].
Qed.

(** *** A pass ends

    With the children of a state pointing back to it, a pass ends after at
    most [2 * |dag.nodes| + 1] rounds: it returns its winner, aborts, waits
    for input, or runs into an undefined access. *)

(** A state put back after its penalty counts once, any other twice: every
    turn of the expansion loop lowers the sum over [pending]. *)
Definition weight (s : State) : nat := if penalized s then 1%nat else 2%nat.

Definition queue_weight (q : list State) : nat := sum_list (weight <$> q).

Lemma queue_weight_cons x q :
  queue_weight (x :: q) = (weight x + queue_weight q)%nat.
Proof. reflexivity. Qed.

Lemma emplace_weight s q :
  queue_weight (emplace s q) = (weight s + queue_weight q)%nat.
Proof.
  induction q as [|x q IH]; simpl; [reflexivity|].
  destruct (dlt (cost s) (cost x)); [reflexivity|].
  rewrite !queue_weight_cons, IH. lia.
Qed.

Lemma emplace_Forall (P : State -> Prop) s q :
  P s -> Forall P q -> Forall P (emplace s q).
Proof.
  intros Hs Hq. induction Hq as [|x q Hx Hq IH]; simpl.
  - now constructor.
  - destruct (dlt (cost s) (cost x)); repeat constructor; assumption.
Qed.

Lemma resort_Forall (P : State -> Prop) q : Forall P q -> Forall P (resort q).
Proof.
  unfold resort. induction 1 as [|x q Hx Hq IH]; simpl; [constructor|].
  now apply emplace_Forall.
Qed.

Lemma enqueue_all_fuel kids :
  forall q w, enqueue_all kids q w <> OutOfFuel.
Proof.
  induction kids as [|s rest IH]; intros q w; simpl; [discriminate|].
  unfold enqueue_new_children.
  destruct (parent s); [|discriminate].
  destruct (negb _); [discriminate|]. simpl. apply IH.
Qed.

Lemma expand_fuel beam_size pass_idx num_passes frozen fuel :
  forall expanded pending q hashes w,
    (queue_weight pending <= fuel)%nat ->
    expand beam_size pass_idx num_passes frozen fuel expanded pending q
           hashes w <> OutOfFuel.
Proof.
  induction fuel as [|fuel IH]; intros expanded pending q hashes w Hw; simpl.
  - destruct pending as [|x pending].
    + rewrite andb_false_r. discriminate.
    + rewrite queue_weight_cons in Hw. unfold weight in Hw.
      destruct (penalized x); lia.
  - destruct (negb _); [discriminate|].
    destruct pending as [|state pending]; simpl; [discriminate|].
    pose proof (penalize_cases beam_size pass_idx num_passes state pending
                  hashes (permitted_hashes w)) as Hc.
    rewrite queue_weight_cons in Hw.
    assert (1 <= weight state)%nat by (unfold weight; destruct (penalized _); lia).
    destruct (penalize _ _ _ state pending hashes (permitted_hashes w))
      as [pending2 hashes2 | state2 hashes2].
    + destruct Hc as (penalty & state' & Hby & ->).
      apply IH. rewrite emplace_weight.
      destruct Hby as (_ & Hf & Ht & _). unfold weight in *.
      rewrite Ht. rewrite Hf in Hw. lia.
    + destruct (if 1 <? queue_size pending
                then random_dropout (rng w) (Z.of_nat num_nodes * 2)
                else (false, rng w)) as [drop_it rng'].
      destruct drop_it; [apply IH; lia|].
      destruct (_ =? _); [discriminate|].
      destruct (enqueue_all _ _ _) as [[q1 w1]| | | |] eqn:Eq;
        simpl; try discriminate.
      * apply IH. lia.
      * now apply enqueue_all_fuel in Eq.
Qed.

(** More fuel does not change a result. *)
Lemma expand_stable beam_size pass_idx num_passes frozen fuel :
  forall expanded pending q hashes w,
    expand beam_size pass_idx num_passes frozen fuel expanded pending q
           hashes w <> OutOfFuel ->
    forall fuel', (fuel <= fuel')%nat ->
    expand beam_size pass_idx num_passes frozen fuel' expanded pending q
           hashes w
    = expand beam_size pass_idx num_passes frozen fuel expanded pending q
             hashes w.
Proof.
  induction fuel as [|fuel IH]; intros expanded pending q hashes w Hne fuel' Hle.
  - destruct fuel' as [|fuel']; [reflexivity|]. simpl in *.
    destruct (negb _); [reflexivity | contradiction].
  - destruct fuel' as [|fuel']; [lia|]. simpl in *.
    destruct (negb _); [reflexivity|].
    destruct (pop pending) as [[state pending']|]; [|reflexivity].
    destruct (penalize _ _ _ state pending' hashes (permitted_hashes w))
      as [pending2 hashes2 | state2 hashes2].
    { apply IH; [exact Hne | lia]. }
    destruct (if 1 <? queue_size pending'
              then random_dropout (rng w) (Z.of_nat num_nodes * 2)
              else (false, rng w)) as [drop_it rng'].
    destruct drop_it; [apply IH; [exact Hne | lia]|].
    destruct (_ =? _); [reflexivity|].
    destruct (enqueue_all _ _ _) as [[q1 w1]| | | |]; simpl in *;
      try reflexivity.
    apply IH; [exact Hne | lia].
Qed.

Section Termination.

Hypothesis children_parent :
  forall s pre_pass frozen c,
    In c (generate_children s pre_pass frozen) -> parent c = Some s.

Definition decided (i : Z) (s : State) : Prop := num_decisions_made s = i.

Lemma penalize_decided beam_size pass_idx num_passes state pending hashes
    permitted i :
  decided i state -> Forall (decided i) pending ->
  match penalize beam_size pass_idx num_passes state pending hashes permitted
  with
  | Proceed state' _ => decided i state'
  | Deferred pending' _ => Forall (decided i) pending'
  end.
Proof.
  intros Hs Hp.
  pose proof (penalize_cases beam_size pass_idx num_passes state pending
                hashes permitted) as Hc.
  destruct (penalize _ _ _ _ _ _ _) as [pending' h | state' h].
  - destruct Hc as (penalty & state' & Hby & ->).
    apply emplace_Forall; [|exact Hp].
    destruct Hby as (_ & _ & _ & _ & _ & Hd & _). unfold decided. congruence.
  - destruct Hc as [-> | (penalty & Hby)]; [exact Hs|].
    destruct Hby as (_ & _ & _ & _ & _ & Hd & _). unfold decided. congruence.
Qed.

Lemma enqueue_all_decided i state pre_pass frozen :
  decided i state ->
  forall kids q w q' w',
    (forall c, In c kids -> In c (generate_children state pre_pass frozen)) ->
    Forall (decided (i + 1)) q ->
    enqueue_all kids q w = Returned (q', w') ->
    Forall (decided (i + 1)) q'.
Proof.
  intros Hs. induction kids as [|c rest IH]; intros q w q' w' Hin Hq E;
    simpl in E.
  - now injection E as <- <-.
  - destruct (enqueue_new_children c q w) as [[q1 w1]| | | |] eqn:E1;
      try discriminate.
    simpl in E.
    apply enqueue_new_children_returned in E1 as ((p & Hp & Hd) & -> & _).
    apply (IH (emplace (set_penalized c false) q) w1 q' w');
      [intros; apply Hin; now right | | exact E].
    apply emplace_Forall; [|exact Hq].
    rewrite (children_parent _ _ _ _ (Hin c ltac:(now left))) in Hp.
    injection Hp as <-. unfold decided in *. simpl. lia.
Qed.

(** The children queued by a round of states with [i] decisions have
    [i + 1]. *)
Lemma expand_decided beam_size pass_idx num_passes frozen i fuel :
  forall expanded pending q hashes w q' w',
    Forall (decided i) pending -> Forall (decided (i + 1)) q ->
    expand beam_size pass_idx num_passes frozen fuel expanded pending q
           hashes w = Returned (Expanded q' w') ->
    Forall (decided (i + 1)) q'.
Proof.
  induction fuel as [|fuel IH];
    intros expanded pending q hashes w q' w' Hp Hq E; simpl in E.
  - destruct (negb _); [|discriminate]. now injection E as <- <-.
  - destruct (negb _); [now injection E as <- <-|].
    destruct pending as [|state pending]; simpl in E; [discriminate|].
    apply Forall_cons in Hp as [Hs Hp].
    pose proof (penalize_decided beam_size pass_idx num_passes state pending
                  hashes (permitted_hashes w) i Hs Hp) as Hd.
    destruct (penalize _ _ _ state pending hashes (permitted_hashes w))
      as [pending2 hashes2 | state2 hashes2].
    { now apply (IH _ _ _ _ _ _ _ Hd Hq) in E. }
    destruct (if 1 <? queue_size pending
              then random_dropout (rng w) (Z.of_nat num_nodes * 2)
              else (false, rng w)) as [drop_it rng'].
    destruct drop_it; [now apply (IH _ _ _ _ _ _ _ Hp Hq) in E|].
    destruct (_ =? _); [discriminate|].
    destruct (enqueue_all _ _ _) as [[q1 w1]| | | |] eqn:Eq;
      try discriminate; simpl in E.
    apply (IH _ _ _ _ _ _ _ Hp) in E; [exact E|].
    now apply (enqueue_all_decided i state2 _ _ Hd _ _ _ _ _
                 (fun c H => H) Hq Eq).
Qed.

(** A round of states that all have [2 * |dag.nodes|] decisions queues
    nothing. *)
Lemma expand_last beam_size pass_idx num_passes frozen fuel :
  forall expanded pending hashes w q' w',
    Forall (decided (2 * Z.of_nat num_nodes)) pending ->
    expand beam_size pass_idx num_passes frozen fuel expanded pending []
           hashes w = Returned (Expanded q' w') ->
    q' = [].
Proof.
  induction fuel as [|fuel IH];
    intros expanded pending hashes w q' w' Hp E; simpl in E.
  - destruct (negb _); [|discriminate]. now injection E as <- _.
  - destruct (negb _); [now injection E as <- _|].
    destruct pending as [|state pending]; simpl in E; [discriminate|].
    apply Forall_cons in Hp as [Hs Hp].
    pose proof (penalize_decided beam_size pass_idx num_passes state pending
                  hashes (permitted_hashes w) _ Hs Hp) as Hd.
    destruct (penalize _ _ _ state pending hashes (permitted_hashes w))
      as [pending2 hashes2 | state2 hashes2].
    { now apply (IH _ _ _ _ _ _ Hd) in E. }
    destruct (if 1 <? queue_size pending
              then random_dropout (rng w) (Z.of_nat num_nodes * 2)
              else (false, rng w)) as [drop_it rng'].
    destruct drop_it; [now apply (IH _ _ _ _ _ _ Hp) in E|].
    unfold decided in Hd. rewrite Hd, Z.eqb_refl in E. discriminate.
Qed.

Lemma read_selection_valid input q_size selection rest :
  read_selection input q_size = Some (selection, rest) ->
  0 <= selection < q_size.
Proof.
  induction input as [|[z|] input IH]; cbn [read_selection];
    [discriminate | |].
  - destruct ((INT32_MIN <=? z) && (z <=? INT32_MAX)).
    + destruct (Z.ltb_spec z 0); cbn [orb]; [exact IH|].
      destruct (Z.leb_spec q_size z); [exact IH|].
      intros [= <- _]. lia.
    + set (sel := if z <? INT32_MIN then INT32_MIN else INT32_MAX).
      destruct (Z.ltb_spec sel 0); cbn [orb]; [discriminate|].
      destruct (Z.leb_spec q_size sel); [discriminate|].
      intros [= <- _]. lia.
  - destruct (Z.ltb_spec 0 0); cbn [orb]; [discriminate|].
    destruct (Z.leb_spec q_size 0); [discriminate|].
    intros [= <- _]. lia.
Qed.

Lemma read_selection_empty input : read_selection input 0 = None.
Proof.
  destruct (read_selection input 0) as [[selection rest]|] eqn:E;
    [|reflexivity].
  apply read_selection_valid in E. lia.
Qed.

Lemma rounds_end (k : nat) :
  forall i beam_size pass_idx num_passes frozen q w,
    i + Z.of_nat k = 2 * Z.of_nat num_nodes ->
    Forall (decided i) q ->
    exists fuel0, forall fuel, (fuel0 <= fuel)%nat ->
      rounds fuel beam_size pass_idx num_passes frozen q [] w <> OutOfFuel.
Proof.
  induction k as [|k IH];
    intros i beam_size pass_idx num_passes frozen q w Hi Hq.
  - (* the last round *)
    exists (S (S (queue_weight q))). intros fuel Hfuel.
    destruct fuel as [|fuel]; [lia|]. simpl.
    destruct (empty q); [discriminate|].
    pose proof (expand_fuel beam_size pass_idx num_passes frozen fuel 0 q []
                  ∅ w ltac:(lia)) as Hne.
    destruct (expand _ _ _ _ fuel 0 q [] ∅ w) as [r| | | |] eqn:Ex;
      try discriminate; [|contradiction].
    simpl. destruct r as [b w1 | q1 w1]; [discriminate|].
    apply expand_last in Ex; [|now replace (2 * Z.of_nat num_nodes) with i by lia].
    subst q1.
    assert (Hempty : match cost_model with
                     | Some predict => resort (map (evaluate predict) [])
                     | None => []
                     end = []) by now destruct cost_model.
    rewrite Hempty.
    destruct cyos.
    + destruct cost_model; [|discriminate].
      change (queue_size []) with 0. now rewrite read_selection_empty.
    + destruct fuel as [|fuel]; [lia | discriminate].
  - (* a round before the last *)
    assert (Hnext : forall q1 w1,
      Forall (decided (i + 1)) q1 ->
      exists fuel0, forall fuel, (fuel0 <= fuel)%nat ->
        rounds fuel beam_size pass_idx num_passes frozen q1 [] w1 <> OutOfFuel)
      by (intros q1 w1 Hq1; apply (IH (i + 1)); [lia | exact Hq1]).
    pose proof (expand_fuel beam_size pass_idx num_passes frozen
                  (queue_weight q) 0 q [] ∅ w ltac:(lia)) as Hne.
    pose proof (expand_stable beam_size pass_idx num_passes frozen
                  (queue_weight q) 0 q [] ∅ w Hne) as Hstable.
    destruct (expand _ _ _ _ (queue_weight q) 0 q [] ∅ w) as [r| | | |] eqn:Ex;
      try contradiction.
    + destruct r as [b w1 | q1 w1].
      * exists (S (queue_weight q)). intros fuel Hfuel.
        destruct fuel as [|fuel]; [lia|]. simpl.
        destruct (empty q); [discriminate|].
        rewrite Hstable by lia. discriminate.
      * apply expand_decided with (i := i) in Ex; [|exact Hq | constructor].
        set (q2 := match cost_model with
                   | Some predict => resort (map (evaluate predict) q1)
                   | None => q1
                   end).
        assert (Hq2 : Forall (decided (i + 1)) q2).
        { unfold q2. destruct cost_model as [predict|]; [|exact Ex].
          apply resort_Forall. rewrite Forall_map.
          eapply Forall_impl; [exact Ex|]. intros s Hs. exact Hs. }
        destruct cyos eqn:Hcyos.
        -- destruct (read_selection (stdin w1) (queue_size q2))
             as [[selection input]|] eqn:Esel.
           ++ destruct (q2 !! Z.to_nat selection) as [selected|] eqn:Eqsel.
              ** destruct (Hnext (emplace selected [])
                             (mkWorld (rng w1) (permitted_hashes w1)
                                      (num_states_added w1) input))
                   as [fuel1 Hfuel1].
                 { apply emplace_Forall; [|constructor].
                   rewrite Forall_forall in Hq2. apply Hq2.
                   now apply list_elem_of_lookup_2 in Eqsel. }
                 exists (S (Nat.max (queue_weight q) fuel1)).
                 intros fuel Hfuel. destruct fuel as [|fuel]; [lia|]. simpl.
                 destruct (empty q); [discriminate|].
                 rewrite Hstable by lia. simpl. fold q2. rewrite Hcyos.
                 destruct cost_model; [|discriminate].
                 rewrite Esel, Eqsel. apply Hfuel1. lia.
              ** exists (S (queue_weight q)). intros fuel Hfuel.
                 destruct fuel as [|fuel]; [lia|]. simpl.
                 destruct (empty q); [discriminate|].
                 rewrite Hstable by lia. simpl. fold q2. rewrite Hcyos.
                 destruct cost_model; [|discriminate].
                 rewrite Esel, Eqsel. discriminate.
           ++ exists (S (queue_weight q)). intros fuel Hfuel.
              destruct fuel as [|fuel]; [lia|]. simpl.
              destruct (empty q); [discriminate|].
              rewrite Hstable by lia. simpl. fold q2. rewrite Hcyos.
              destruct cost_model; [|discriminate].
              rewrite Esel. discriminate.
        -- destruct (Hnext q2 w1 Hq2) as [fuel1 Hfuel1].
           exists (S (Nat.max (queue_weight q) fuel1)).
           intros fuel Hfuel. destruct fuel as [|fuel]; [lia|]. simpl.
           destruct (empty q); [discriminate|].
           rewrite Hstable by lia. simpl. fold q2. rewrite Hcyos.
           apply Hfuel1. lia.
    + exists (S (queue_weight q)). intros fuel Hfuel.
      destruct fuel as [|fuel]; [lia|]. simpl.
      destruct (empty q); [discriminate|].
      rewrite Hstable by lia. discriminate.
    + exists (S (queue_weight q)). intros fuel Hfuel.
      destruct fuel as [|fuel]; [lia|]. simpl.
      destruct (empty q); [discriminate|].
      rewrite Hstable by lia. discriminate.
    + exists (S (queue_weight q)). intros fuel Hfuel.
      destruct fuel as [|fuel]; [lia|]. simpl.
      destruct (empty q); [discriminate|].
      rewrite Hstable by lia. discriminate.
Qed.

(** Every pass ends: from some amount of fuel on, the outcome is not the
    embedding's own [OutOfFuel]. *)
Theorem optimal_schedule_pass_ends
    (beam_size pass_idx num_passes : Z) (frozen : Frozen) (w : World) :
  exists fuel0, forall fuel, (fuel0 <= fuel)%nat ->
    optimal_schedule_pass fuel beam_size pass_idx num_passes frozen w
    <> OutOfFuel.
Proof.
  unfold optimal_schedule_pass.
  apply (rounds_end (2 * num_nodes) 0); [lia|].
  simpl. repeat constructor.
Qed.

End Termination.

(** *** The best pass *)

(** The log of the passes is the chain of the calls made. *)
Lemma passes_chain n :
  forall fuel beam_size pass_idx num_passes best frozen w log best' w' log',
    passes n fuel beam_size pass_idx num_passes best frozen w log
    = Returned (best', w', log') ->
    exists new,
      log' = log ++ new
      /\ length new = n
      /\ pass_chain fuel beam_size pass_idx num_passes frozen w new w'.
Proof.
  induction n as [|n IH];
    intros fuel beam_size pass_idx num_passes best frozen w log best' w' log'
           E; simpl in E.
  - injection E as <- <- <-. exists []. rewrite app_nil_r.
    repeat split.
  - destruct (optimal_schedule_pass fuel beam_size pass_idx num_passes frozen w)
      as [[pass w1]| | | |] eqn:Epass; try discriminate.
    simpl in E.
    destruct (if pass_idx =? -1
              then freeze_lowest_cost_stages pass frozen
              else Returned frozen) as [frozen1| | | |] eqn:Efrozen;
      try discriminate.
    simpl in E.
    destruct (if 0 <=? pass_idx then _ else _) as [best1| | | |];
      try discriminate.
    simpl in E. apply IH in E as (new & -> & Hlen & Hchain).
    exists ((pass_idx, pass) :: new). split; [now rewrite <- app_assoc|].
    split; [simpl; now rewrite Hlen|].
    cbn [pass_chain]. split; [reflexivity|].
    exists w1, frozen1. auto.
Qed.

Section Best.

(** [<] on costs is irreflexive and transitive, as it is on doubles. *)
Hypothesis dlt_irrefl : forall a, dlt a a = false.
Hypothesis dlt_trans :
  forall a b c, dlt a b = true -> dlt b c = true -> dlt a c = true.

(** The winners logged have costs on which [<] is a strict weak order:
    being neither cheaper nor dearer is transitive, as it is among doubles
    that are numbers. *)
Definition comparable (log : list (Z * State)) : Prop :=
  forall i a j b k c,
    In (i, a) log -> In (j, b) log -> In (k, c) log ->
    dlt (cost a) (cost b) = true ->
    dlt (cost a) (cost c) = true \/ dlt (cost c) (cost b) = true.

(** [best] is the first cheapest winner of [log]: it won a pass that is not
    the pre-pass, it is strictly cheaper than the winner of every such pass
    before it, and no later winner is strictly cheaper. *)
Definition first_cheapest (log : list (Z * State)) (best : State) : Prop :=
  exists earlier i later,
    log = earlier ++ (i, best) :: later
    /\ 0 <= i
    /\ (forall j pass, In (j, pass) earlier -> 0 <= j ->
          dlt (cost best) (cost pass) = true)
    /\ (forall j pass, In (j, pass) later ->
          dlt (cost pass) (cost best) = false).

Lemma first_cheapest_minimal log best :
  first_cheapest log best ->
  (exists i, 0 <= i /\ In (i, best) log)
  /\ forall j pass, In (j, pass) log -> 0 <= j ->
       dlt (cost pass) (cost best) = false.
Proof.
  intros (earlier & i & later & -> & Hi & Hearlier & Hlater). split.
  - exists i. split; [exact Hi|]. apply in_or_app. right. now left.
  - intros j p Hin Hj. apply in_app_or in Hin as [Hin|[[= <- <-]|Hin]].
    + destruct (dlt (cost p) (cost best)) eqn:E; [|reflexivity].
      rewrite <- (dlt_irrefl (cost best)). symmetry.
      apply (dlt_trans _ (cost p)); [|exact E]. now apply (Hearlier j).
    + apply dlt_irrefl.
    + now apply (Hlater j).
Qed.

(** What the loop over the passes keeps between two passes. *)
Definition best_so_far (pass_idx : Z) (best : option State)
    (log : list (Z * State)) : Prop :=
  match best with
  | None => pass_idx <= 0 /\ forall i pass, In (i, pass) log -> i < 0
  | Some b => 0 < pass_idx /\ first_cheapest log b
  end.

Lemma best_so_far_step pass_idx best log pass best1 :
  comparable (log ++ [(pass_idx, pass)]) ->
  best_so_far pass_idx best log ->
  (if 0 <=? pass_idx then
     if pass_idx =? 0 then Returned (Some pass)
     else
       match best with
       | None => Undefined
       | Some b => Returned (if dlt (cost pass) (cost b)
                             then Some pass else Some b)
       end
   else Returned best) = Returned best1 ->
  best_so_far (pass_idx + 1) best1 (log ++ [(pass_idx, pass)]).
Proof.
  intros Hweak Hinv E.
  destruct (Z.leb_spec 0 pass_idx) as [Hnn|Hneg].
  - destruct (Z.eqb_spec pass_idx 0) as [->|Hpos].
    + injection E as <-. split; [lia|].
      exists log, 0, []. split; [reflexivity|]. split; [lia|]. split.
      * intros j p Hin Hj. destruct best as [b|]; simpl in Hinv; [lia|].
        destruct Hinv as [_ Hlog]. apply Hlog in Hin. lia.
      * intros j p [].
    + destruct best as [b|]; [|discriminate]. injection E as <-.
      destruct Hinv as [_ (earlier & i & later & -> & Hi & Hearlier & Hlater)].
      destruct (dlt (cost pass) (cost b)) eqn:Hlt.
      * split; [lia|].
        exists (earlier ++ (i, b) :: later), pass_idx, [].
        split; [reflexivity|]. split; [lia|]. split.
        -- intros j p Hin Hj.
           apply in_app_or in Hin as [Hin|[[= <- <-]|Hin]].
           ++ apply (dlt_trans _ (cost b)); [exact Hlt|]. now apply (Hearlier j).
           ++ exact Hlt.
           ++ destruct (Hweak pass_idx pass i b j p) as [Hp|Hp];
                [apply in_or_app; right; now left
                | apply in_or_app; left; apply in_or_app; right; now left
                | apply in_or_app; left; apply in_or_app; right; now right
                | exact Hlt | exact Hp |].
              rewrite (Hlater j p Hin) in Hp. discriminate.
        -- intros j p [].
      * split; [lia|].
        exists earlier, i, (later ++ [(pass_idx, pass)]).
        split; [now rewrite <- app_assoc|]. split; [exact Hi|].
        split; [exact Hearlier|].
        intros j p Hin. apply in_app_or in Hin as [Hin|[[= <- <-]|[]]].
        -- now apply (Hlater j).
        -- exact Hlt.
  - injection E as <-.
    destruct best as [b|]; simpl in Hinv; [lia|].
    destruct Hinv as [_ Hlog]. split; [lia|].
    intros i p Hin. apply in_app_or in Hin as [Hin|[[= <- <-]|[]]].
    + now apply (Hlog i p).
    + exact Hneg.
Qed.

Lemma comparable_prefix log new : comparable (log ++ new) -> comparable log.
Proof.
  intros Hweak i a j b k c Ha Hb Hc.
  apply (Hweak i a j b k c); apply in_or_app; now left.
Qed.

Lemma passes_best_so_far n :
  forall fuel beam_size pass_idx num_passes best frozen w log best' w' log',
    comparable log' ->
    best_so_far pass_idx best log ->
    passes n fuel beam_size pass_idx num_passes best frozen w log
    = Returned (best', w', log') ->
    best_so_far (pass_idx + Z.of_nat n) best' log'
    /\ map fst log'
       = map fst log ++ map (fun k => pass_idx + Z.of_nat k) (seq 0 n).
Proof.
  induction n as [|n IH];
    intros fuel beam_size pass_idx num_passes best frozen w log best' w' log'
           Hweak Hinv E.
  - simpl in E. injection E as <- <- <-.
    rewrite Z.add_0_r, app_nil_r. auto.
  - simpl in E.
    destruct (optimal_schedule_pass fuel beam_size pass_idx num_passes frozen w)
      as [[pass w1]| | | |]; try discriminate.
    simpl in E.
    destruct (if pass_idx =? -1
              then freeze_lowest_cost_stages pass frozen
              else Returned frozen) as [frozen1| | | |]; try discriminate.
    simpl in E.
    destruct (if 0 <=? pass_idx then _ else _) as [best1| | | |] eqn:Eb;
      try discriminate.
    simpl in E.
    destruct (passes_chain _ _ _ _ _ _ _ _ _ _ _ _ E) as (new & Hnew & _).
    assert (Hweak1 : comparable (log ++ [(pass_idx, pass)])).
    { apply (comparable_prefix _ new). now rewrite <- Hnew. }
    pose proof (best_so_far_step _ _ _ _ _ Hweak1 Hinv Eb) as Hinv1.
    destruct (IH _ _ _ _ _ _ _ _ _ _ _ Hweak Hinv1 E) as [Hb Hl].
    split.
    + now replace (pass_idx + Z.of_nat (S n))
        with (pass_idx + 1 + Z.of_nat n) by lia.
    + rewrite Hl, map_app. simpl. rewrite <- app_assoc. simpl.
      rewrite Z.add_0_r. do 2 f_equal.
      rewrite <- seq_shift, map_map. apply map_ext. intros k. lia.
Qed.

(** C10: the log of [optimal_schedule] is the chain of its calls of
    [optimal_schedule_pass], with consecutive indices from -1 or 0 on and
    each entry the winner that call returned.  When [<] is a strict weak
    order on the costs of these winners, the state returned is the first
    cheapest winner among the passes with index 0 or more: it won such a
    pass, it is strictly cheaper than the winners of the earlier ones, and
    no winner of any such pass is strictly cheaper than it. *)
Theorem optimal_schedule_returns_cheapest
    (fuel : nat) (beam_size : Z) (w : World)
    (best : State) (w' : World) (log : list (Z * State)) :
  optimal_schedule fuel beam_size w = Returned (best, w', log) ->
  comparable log ->
  pass_chain fuel beam_size (if use_pre_pass then -1 else 0)
             (effective_passes beam_size) (mkFrozen ∅ ∅)
             (mkWorld (rng w) ∅ (num_states_added w) (stdin w)) log w'
  /\ first_cheapest log best
  /\ (forall i pass, In (i, pass) log -> 0 <= i ->
        dlt (cost pass) (cost best) = false)
  /\ (exists start, (start = -1 \/ start = 0)
        /\ map fst log
           = map (fun k => start + Z.of_nat k) (seq 0 (length log))).
Proof.
  unfold optimal_schedule, effective_passes, requested_passes.
  set (w0 := mkWorld _ _ _ _).
  set (start := if use_pre_pass then -1 else 0).
  set (num_passes := if use_pre_pass && _ then _ else _).
  intros E Hweak.
  destruct (passes _ fuel beam_size start num_passes None (mkFrozen ∅ ∅) w0 [])
    as [[[best1 w1] log1]| | | |] eqn:Ep; try discriminate.
  simpl in E. destruct best1 as [b|]; [|discriminate].
  injection E as <- <- <-.
  split.
  { destruct (passes_chain _ _ _ _ _ _ _ _ _ _ _ _ Ep) as (new & -> & _ & Hc).
    exact Hc. }
  apply passes_best_so_far in Ep as [[_ Hfirst] Hlog]; [| exact Hweak |].
  - split; [exact Hfirst|].
    split; [now apply first_cheapest_minimal|].
    exists start. split; [unfold start; destruct use_pre_pass; auto|].
    simpl in Hlog. rewrite Hlog. f_equal. f_equal.
    apply (f_equal length) in Hlog.
    rewrite !length_map, length_seq in Hlog. now rewrite Hlog.
  - simpl. split; [unfold start; destruct use_pre_pass; lia|].
    intros i p [].
Qed.

End Best.

(** *** The nodes frozen after the pre-pass *)

(** The nodes that are not inputs, in the order of [dag.nodes]. *)
Definition non_inputs : list Node :=
  filter (fun n => is_input n = false) (nodes dag).

Definition num_stages : nat := fst count_non_inputs.

(** The costs of the stages among [stage_ids] that belong to the node with
    id [id], in order. *)
Definition stage_costs (best : State) (id : Z) (stage_ids : list nat)
  : list double :=
  omap (fun i =>
          match stage_id_to_node_map dag !! Z.of_nat i with
          | Some n =>
              if is_input n then None
              else if decide (node_id n = id) then cost_per_stage best !! i
              else None
          | None => None
          end) stage_ids.

(** The sum the source accumulates for a node: 0, plus the cost of each of
    its stages in the order of the stage ids. *)
Definition node_cost (best : State) (id : Z) : double :=
  foldl dadd dzero (stage_costs best id (seq 0 num_stages)).

(** What [freeze_lowest_cost_stages] relies on in the DAG: node ids are the
    positions in [dag.nodes]; the stage ids below [num_stages] are those of
    the nodes that are not inputs. *)
Record dag_wf : Prop := {
  ids_dense : forall p n, nodes dag !! p = Some n -> node_id n = Z.of_nat p;
  stages_mapped : forall i, (i < num_stages)%nat ->
    exists n, stage_id_to_node_map dag !! Z.of_nat i = Some n /\ n ∈ nodes dag;
  non_inputs_mapped : forall n, n ∈ nodes dag -> is_input n = false ->
    exists i, (i < num_stages)%nat
              /\ stage_id_to_node_map dag !! Z.of_nat i = Some n
}.

Lemma count_non_inputs_length : snd count_non_inputs = length non_inputs.
Proof.
  unfold count_non_inputs, non_inputs.
  assert (G : forall l a b,
    snd (foldl (fun '(num_stages, num_nodes) n =>
                  if is_input n then (num_stages, num_nodes)
                  else ((num_stages + stages n)%nat, S num_nodes))
               (a, b) l)
    = (b + length (filter (fun n => is_input n = false) l))%nat).
  { induction l as [|n l IH]; intros a b; simpl; [lia|].
    destruct (is_input n) eqn:E.
    - rewrite IH. rewrite filter_cons_False by congruence. reflexivity.
    - rewrite IH. rewrite filter_cons_True by assumption. simpl. lia. }
  now rewrite G.
Qed.

Lemma sum_stage_costs_spec best stage_ids :
  (forall i, i ∈ stage_ids ->
     (exists n, stage_id_to_node_map dag !! Z.of_nat i = Some n)
     /\ is_Some (cost_per_stage best !! i)) ->
  forall node_costs,
  exists node_costs',
    sum_stage_costs best stage_ids node_costs = Returned node_costs'
    /\ forall id,
         node_costs' !! id
         = match stage_costs best id stage_ids with
           | [] => node_costs !! id
           | cs => Some (foldl dadd (default dzero (node_costs !! id)) cs)
           end.
Proof.
  induction stage_ids as [|i l IH]; intros Hok m; simpl.
  - exists m. split; [reflexivity|]. reflexivity.
  - destruct (Hok i ltac:(left)) as [[n Hn] [c Hc]].
    assert (Hl : forall j, j ∈ l ->
      (exists n, stage_id_to_node_map dag !! Z.of_nat j = Some n)
      /\ is_Some (cost_per_stage best !! j))
      by (intros j Hj; apply Hok; now right).
    unfold add_stage_cost, stage_costs. simpl. rewrite Hn.
    destruct (is_input n) eqn:Hin; simpl.
    + destruct (IH Hl m) as (m' & E & Hm'). exists m'. split; [exact E|].
      exact Hm'.
    + rewrite Hc. simpl.
      destruct (IH Hl (<[node_id n :=
                          dadd (default dzero (m !! node_id n)) c]> m))
        as (m' & E & Hm').
      exists m'. split; [exact E|]. intros id. rewrite Hm'.
      fold (stage_costs best id l).
      destruct (decide (node_id n = id)) as [<-|Hne].
      * rewrite lookup_insert_eq. simpl.
        now destruct (stage_costs best (node_id n) l).
      * rewrite lookup_insert_ne by assumption.
        reflexivity.
Qed.

Section Freeze.

Hypothesis dlt_irrefl : forall a, dlt a a = false.
Hypothesis dlt_trans :
  forall a b c, dlt a b = true -> dlt b c = true -> dlt a c = true.

(** Ascending by cost: no later entry is strictly cheaper than an earlier
    one. *)
Definition ascending (l : list (Z * double)) : Prop :=
  StronglySorted (fun a b => dlt (snd b) (snd a) = false) l.

Lemma insert_by_cost_perm x l : insert_by_cost x l ≡ₚ x :: l.
Proof.
  induction l as [|y l IH]; simpl; [reflexivity|].
  destruct (dlt (snd x) (snd y)); [reflexivity|].
  rewrite IH. apply Permutation_swap.
Qed.

Lemma insertion_sort_perm l : insertion_sort l ≡ₚ l.
Proof.
  induction l as [|x l IH]; simpl; [reflexivity|].
  rewrite insert_by_cost_perm. now rewrite IH.
Qed.

Lemma insert_by_cost_ascending x l :
  ascending l -> ascending (insert_by_cost x l).
Proof.
  unfold ascending. induction l as [|y l IH]; intros Hs; simpl.
  - repeat constructor.
  - apply StronglySorted_inv in Hs as [Hl Hy].
    destruct (dlt (snd x) (snd y)) eqn:Hxy.
    + constructor; [now constructor|].
      constructor.
      * destruct (dlt (snd y) (snd x)) eqn:Hyx; [|reflexivity].
        rewrite <- (dlt_irrefl (snd x)). symmetry.
        now apply (dlt_trans _ (snd y)).
      * rewrite Forall_forall in Hy |- *. intros z Hz.
        destruct (dlt (snd z) (snd x)) eqn:Hzx; [|reflexivity].
        rewrite <- (Hy z Hz). symmetry. now apply (dlt_trans _ (snd x)).
    + constructor; [now apply IH|].
      rewrite Forall_forall. intros z Hz.
      rewrite insert_by_cost_perm in Hz.
      apply elem_of_cons in Hz as [->|Hz]; [exact Hxy|].
      rewrite Forall_forall in Hy. now apply Hy.
Qed.

Lemma insertion_sort_ascending l : ascending (insertion_sort l).
Proof.
  induction l as [|x l IH]; simpl; [constructor|].
  now apply insert_by_cost_ascending.
Qed.

(** With [<] irreflexive and transitive, the requirement of [std::sort] is
    that being neither smaller nor greater is transitive on the
    elements. *)
Lemma strict_weak_on_true l :
  (forall a b c, a ∈ l -> b ∈ l -> c ∈ l ->
     dlt (snd a) (snd b) = true ->
     dlt (snd a) (snd c) = true \/ dlt (snd c) (snd b) = true) ->
  strict_weak_on l = true.
Proof.
  intros Hweak. unfold strict_weak_on.
  apply forallb_forall. intros a Ha. apply list_elem_of_In in Ha.
  rewrite dlt_irrefl. cbn [negb andb].
  apply forallb_forall. intros b Hb. apply list_elem_of_In in Hb.
  apply forallb_forall. intros c Hc. apply list_elem_of_In in Hc.
  apply andb_true_iff. split.
  - destruct (dlt (snd a) (snd b)) eqn:Hab; [|reflexivity].
    destruct (dlt (snd b) (snd c)) eqn:Hbc; [|reflexivity].
    cbn [andb implb]. now apply (dlt_trans _ (snd b)).
  - destruct (dlt (snd a) (snd b)) eqn:Hab; [|reflexivity].
    cbn [implb]. destruct (Hweak a b c Ha Hb Hc Hab) as [-> | ->];
      [reflexivity | apply orb_true_r].
Qed.

Hypothesis wf : dag_wf.

Lemma node_ids_NoDup : NoDup (node_id <$> nodes dag).
Proof.
  apply NoDup_alt. intros i j x Hi Hj.
  rewrite list_lookup_fmap in Hi, Hj.
  destruct (nodes dag !! i) as [n|] eqn:Ei; [|discriminate].
  destruct (nodes dag !! j) as [n'|] eqn:Ej; [|discriminate].
  simpl in Hi, Hj. injection Hi as <-. injection Hj as Hj.
  apply (ids_dense wf) in Ei, Ej. lia.
Qed.

Lemma node_id_inj n n' :
  n ∈ nodes dag -> n' ∈ nodes dag -> node_id n = node_id n' -> n = n'.
Proof.
  intros Hn Hn' E.
  apply list_elem_of_lookup in Hn as [p Hp], Hn' as [p' Hp'].
  pose proof (ids_dense wf _ _ Hp). pose proof (ids_dense wf _ _ Hp').
  assert (p = p') as -> by lia. congruence.
Qed.

Lemma non_input_ids_NoDup : NoDup (node_id <$> non_inputs).
Proof.
  apply NoDup_fmap_2_strong.
  - intros n n' Hn Hn'. apply list_elem_of_filter in Hn as [_ Hn].
    apply list_elem_of_filter in Hn' as [_ Hn']. now apply node_id_inj.
  - apply NoDup_filter. apply (NoDup_fmap_1 node_id), node_ids_NoDup.
Qed.

Lemma node_at_id n :
  n ∈ nodes dag -> nodes dag !! Z.to_nat (node_id n) = Some n.
Proof.
  intros Hn. apply list_elem_of_lookup in Hn as [p Hp].
  rewrite (ids_dense wf _ _ Hp), Nat2Z.id. exact Hp.
Qed.

Variable best : State.
Hypothesis costs_cover : (num_stages <= length (cost_per_stage best))%nat.

Lemma stage_costs_nonempty id :
  stage_costs best id (seq 0 num_stages) <> []
  <-> id ∈ node_id <$> non_inputs.
Proof.
  split.
  - intros Hne.
    destruct (stage_costs best id (seq 0 num_stages)) as [|c cs] eqn:E;
      [contradiction|].
    assert (Hc : c ∈ stage_costs best id (seq 0 num_stages))
      by (rewrite E; left).
    apply list_elem_of_omap in Hc as (i & Hi & Hf).
    apply elem_of_seq in Hi.
    destruct (stages_mapped wf i ltac:(lia)) as (n & Hn & Hin).
    rewrite Hn in Hf. destruct (is_input n) eqn:Hinput; [discriminate|].
    destruct (decide (node_id n = id)) as [<-|]; [|discriminate].
    apply list_elem_of_fmap_2. now apply list_elem_of_filter.
  - intros Hid. apply list_elem_of_fmap in Hid as (n & -> & Hn).
    apply list_elem_of_filter in Hn as [Hinput Hn].
    destruct (non_inputs_mapped wf n Hn Hinput) as (i & Hi & Hmap).
    destruct (lookup_lt_is_Some_2 (cost_per_stage best) i ltac:(lia))
      as [c Hc].
    assert (Hin : c ∈ stage_costs best (node_id n) (seq 0 num_stages)).
    { apply list_elem_of_omap. exists i. split; [apply elem_of_seq; lia|].
      rewrite Hmap, Hinput. now rewrite decide_True. }
    intros E. rewrite E in Hin. now apply elem_of_nil in Hin.
Qed.

(** The second loop: one summed cost per node that is not an input. *)
Lemma node_costs_spec :
  exists node_costs,
    sum_stage_costs best (seq 0 num_stages) ∅ = Returned node_costs
    /\ (forall id c, node_costs !! id = Some c <->
          id ∈ node_id <$> non_inputs /\ c = node_cost best id).
Proof.
  destruct (sum_stage_costs_spec best (seq 0 num_stages)) with (node_costs := (∅ : gmap Z double))
    as (m & E & Hm).
  { intros i Hi. apply elem_of_seq in Hi.
    destruct (stages_mapped wf i ltac:(lia)) as (n & Hn & _).
    split; [eauto|]. apply lookup_lt_is_Some_2. lia. }
  exists m. split; [exact E|]. intros id c. rewrite Hm.
  rewrite <- stage_costs_nonempty. unfold node_cost.
  destruct (stage_costs best id (seq 0 num_stages)) as [|c0 cs].
  - rewrite lookup_empty. split; [discriminate | intros [? _]; contradiction].
  - rewrite lookup_empty. simpl. split.
    + intros [= <-]. split; [discriminate | reflexivity].
    + intros [_ ->]. reflexivity.
Qed.

Lemma freeze_first_spec (sorted : list (Z * double)) :
  (forall x, x ∈ sorted -> fst x ∈ node_id <$> non_inputs) ->
  forall count i to_freeze,
    (i + count <= length sorted)%nat ->
    dom to_freeze = list_to_set (fst <$> take i sorted) ->
    exists to_freeze',
      freeze_first count i sorted to_freeze = Returned to_freeze'
      /\ dom to_freeze' = list_to_set (fst <$> take (i + count) sorted).
Proof.
  intros Hids. induction count as [|count IH]; intros i tf Hlen Hdom; simpl.
  - exists tf. split; [reflexivity|]. now rewrite Nat.add_0_r.
  - destruct (lookup_lt_is_Some_2 sorted i ltac:(lia)) as [[id c] Hx].
    rewrite Hx.
    pose proof (Hids _ (list_elem_of_lookup_2 _ _ _ Hx)) as Hid. simpl in Hid.
    apply list_elem_of_fmap in Hid as (n & -> & Hn).
    apply list_elem_of_filter in Hn as [_ Hn].
    rewrite (node_at_id n Hn).
    destruct (IH (S i) (<[node_id n := true]> tf)) as (tf' & E & Hdom').
    + lia.
    + rewrite dom_insert_L, Hdom, (take_S_r _ _ _ Hx), fmap_app.
      rewrite list_to_set_app_L. simpl.
      rewrite (right_id_L ∅ (∪)). apply (comm_L (∪)).
    + exists tf'. split; [exact E|].
      now replace (i + S count)%nat with (S i + count)%nat by lia.
Qed.

(** No summed cost is incomparable with costs that differ: what excludes
    costs that are not numbers. *)
Hypothesis costs_comparable :
  forall n1 n2 n3,
    n1 ∈ non_inputs -> n2 ∈ non_inputs -> n3 ∈ non_inputs ->
    dlt (node_cost best (node_id n1)) (node_cost best (node_id n2)) = true ->
    dlt (node_cost best (node_id n1)) (node_cost best (node_id n3)) = true
    \/ dlt (node_cost best (node_id n3)) (node_cost best (node_id n2)) = true.

(** C9 (as amended): the nodes that are not inputs are listed with the sum
    of their per-stage costs, in ascending order of that sum, and the first
    [k] of the list are frozen, [k] being what the conversion of the
    [double] difference [N - std::log2(N)] to [size_t] gives for the number
    [N] of nodes that are not inputs.  Only frozen nodes get a
    compute-root entry. *)
Theorem freeze_selects_cheapest (frozen : Frozen) (k : nat) :
  num_to_freeze (length non_inputs) = Some k ->
  (k <= length non_inputs)%nat ->
  exists sorted to_freeze frozen',
    nodes_to_freeze best = Returned (sorted, to_freeze)
    /\ fst <$> sorted ≡ₚ node_id <$> non_inputs
    /\ (forall id c, (id, c) ∈ sorted -> c = node_cost best id)
    /\ ascending sorted
    /\ dom to_freeze = list_to_set (fst <$> take k sorted)
    /\ size to_freeze = k
    /\ freeze_lowest_cost_stages best frozen = Returned frozen'
    /\ inlined_nodes frozen'
       = collect_nodes_that_should_be_inlined (root best) to_freeze
                                              (inlined_nodes frozen)
    /\ (forall key, key ∉ dom to_freeze ->
          compute_root_nodes frozen' !! key
          = compute_root_nodes frozen !! key).
Proof.
  intros Hcount Hle.
  destruct node_costs_spec as (m & Em & Hm).
  set (sorted := insertion_sort (map_to_list m)).
  assert (Hperm : sorted ≡ₚ map_to_list m) by apply insertion_sort_perm.
  assert (Hmem : forall id c, (id, c) ∈ sorted <->
            id ∈ node_id <$> non_inputs /\ c = node_cost best id).
  { intros id c. rewrite Hperm, elem_of_map_to_list. apply Hm. }
  assert (Hnodup : NoDup (fst <$> sorted)).
  { rewrite Hperm. apply NoDup_fst_map_to_list. }
  assert (Hids : fst <$> sorted ≡ₚ node_id <$> non_inputs).
  { apply NoDup_Permutation; [exact Hnodup | apply non_input_ids_NoDup |].
    intros id. split.
    - intros Hin. apply list_elem_of_fmap in Hin as ([id' c] & -> & Hin).
      now apply Hmem in Hin as [? _].
    - intros Hin. apply list_elem_of_fmap.
      exists (id, node_cost best id). split; [reflexivity|].
      now apply Hmem. }
  assert (Hlen : length sorted = length non_inputs).
  { apply Permutation_length in Hids. now rewrite !length_fmap in Hids. }
  assert (Hk : (k <= length sorted)%nat) by lia.
  assert (Hsort : sort_by_cost (map_to_list m) = Returned sorted).
  { unfold sort_by_cost. rewrite strict_weak_on_true; [reflexivity|].
    intros [ia ca] [ib cb] [ic cc] Ha Hb Hc. cbn [snd].
    apply elem_of_map_to_list, Hm in Ha as [Ha ->].
    apply elem_of_map_to_list, Hm in Hb as [Hb ->].
    apply elem_of_map_to_list, Hm in Hc as [Hc ->].
    apply list_elem_of_fmap in Ha as (na & -> & Ha).
    apply list_elem_of_fmap in Hb as (nb & -> & Hb).
    apply list_elem_of_fmap in Hc as (nc & -> & Hc).
    now apply costs_comparable. }
  destruct (freeze_first_spec sorted) with (count := k) (i := 0%nat)
                                           (to_freeze := (∅ : gmap Z bool))
    as (tf & Etf & Hdom).
  { intros [id c] Hin. simpl. now apply Hmem in Hin as [? _]. }
  { simpl. lia. }
  { simpl. now rewrite dom_empty_L. }
  simpl in Hdom.
  assert (Enodes : nodes_to_freeze best = Returned (sorted, tf)).
  { unfold nodes_to_freeze.
    pose proof count_non_inputs_length as Hcount'.
    unfold num_stages in Em.
    destruct count_non_inputs as [ns nn]. simpl in Hcount', Em. subst nn.
    rewrite Em. simpl.
    assert (forallb (fun n => 0 <=? fst n) (map_to_list m) = true) as ->.
    { apply forallb_forall. intros [id c] Hin.
      apply list_elem_of_In, elem_of_map_to_list, Hm in Hin as [Hin _].
      apply list_elem_of_fmap in Hin as (n & -> & Hn).
      apply list_elem_of_filter in Hn as [_ Hn].
      apply list_elem_of_lookup in Hn as [p Hp]. simpl.
      rewrite (ids_dense wf _ _ Hp). apply Z.leb_le. lia. }
    simpl. rewrite Hsort. simpl. rewrite Hcount.
    rewrite Etf. reflexivity. }
  exists sorted, tf. eexists.
  split; [exact Enodes|]. split; [exact Hids|].
  split; [intros id c Hin; now apply Hmem in Hin as [_ ?]|].
  split; [apply insertion_sort_ascending|].
  split; [exact Hdom|].
  split.
  { rewrite <- size_dom, Hdom, size_list_to_set.
    - rewrite length_fmap. now apply length_take_le.
    - rewrite fmap_take.
      exact (sublist_NoDup _ _ Hnodup (sublist_take _ _)). }
  unfold freeze_lowest_cost_stages. rewrite Enodes. simpl.
  split; [reflexivity|]. split; [reflexivity|].
  intros key Hkey. simpl.
  generalize (compute_root_nodes frozen).
  induction (children (root best)) as [|c0 cs IH]; intros m0; simpl;
    [reflexivity|].
  rewrite IH.
  destruct (tf !! node_id (node c0)) as [b|] eqn:Ec; [|reflexivity].
  apply lookup_insert_ne. intros <-. apply Hkey.
  apply elem_of_dom. eauto.
Qed.

End Freeze.

(** *** What a pass changes around it *)

Section Effects.

(** Induction along the chain of parents. *)
Definition State_chain_ind (P : State -> Prop)
    (Hroot : forall r c cs n p, P (mkState r None c cs n p))
    (Hchild : forall r par c cs n p,
        P par -> P (mkState r (Some par) c cs n p))
  : forall s, P s :=
  fix go (s : State) : P s :=
    match s with
    | mkState r (Some par) c cs n p => Hchild r par c cs n p (go par)
    | mkState r None c cs n p => Hroot r c cs n p
    end.

(** A state and the chain of its parents, up to the root. *)
Fixpoint ancestors (s : State) : list State :=
  s :: match s with
       | mkState _ (Some p) _ _ _ _ => ancestors p
       | mkState _ None _ _ _ _ => []
       end.

Lemma emplace_length s q : length (emplace s q) = S (length q).
Proof.
  induction q as [|x q IH]; simpl; [reflexivity|].
  destruct (dlt (cost s) (cost x)); simpl; [reflexivity | now rewrite IH].
Qed.

Lemma bless_ancestors_spec pass_idx s :
  forall permitted,
    bless_ancestors pass_idx s permitted
    = list_to_set ((fun a => structural_hash a pass_idx) <$> ancestors s)
      ∪ permitted.
Proof.
  induction s as [r c0 cs n p | r par c0 cs n p IH] using State_chain_ind;
    intros permitted; simpl.
  - now rewrite (right_id_L ∅ (∪)).
  - rewrite IH. rewrite (assoc_L (∪)). f_equal. apply (comm_L (∪)).
Qed.

Lemma bless_grows beam_size pass_idx best pending :
  forall state blessed permitted,
    permitted ⊆ bless beam_size pass_idx best state pending blessed permitted.
Proof.
  induction pending as [|next pending IH]; intros state blessed permitted;
    simpl; destruct (dle _ _ && _); try reflexivity.
  - rewrite bless_ancestors_spec. apply union_subseteq_r.
  - etransitivity; [|apply IH]. rewrite bless_ancestors_spec.
    apply union_subseteq_r.
Qed.

Lemma bless_first beam_size pass_idx best pending state blessed permitted :
  dle (cost state) (dmul_1_2 (cost best)) = true ->
  blessed < beam_size ->
  bless_ancestors pass_idx state permitted
  ⊆ bless beam_size pass_idx best state pending blessed permitted.
Proof.
  intros Hdle Hlt. apply Z.ltb_lt in Hlt.
  destruct pending as [|next pending]; simpl; rewrite Hdle, Hlt; simpl.
  - reflexivity.
  - apply bless_grows.
Qed.

Lemma enqueue_all_effects kids :
  forall q w q' w',
    enqueue_all kids q w = Returned (q', w') ->
    permitted_hashes w' = permitted_hashes w
    /\ stdin w' = stdin w
    /\ num_states_added w' = num_states_added w + Z.of_nat (length kids)
    /\ length q' = (length q + length kids)%nat.
Proof.
  induction kids as [|s rest IH]; intros q w q' w' E; simpl in E.
  - injection E as <- <-. repeat split; simpl; lia.
  - destruct (enqueue_new_children s q w) as [[q1 w1]| | | |] eqn:E1;
      try discriminate.
    simpl in E. apply IH in E as (Hp & Hs & Hn & Hl).
    unfold enqueue_new_children in E1.
    destruct (parent s); [|discriminate].
    destruct (negb _); [discriminate|]. injection E1 as <- <-.
    simpl in *. rewrite emplace_length in Hl.
    repeat split; try assumption; simpl; lia.
Qed.

(** A round that ends with children queued: the permitted hashes and the
    input are as before, and the counter of states added has grown by the
    number of children queued. *)
Definition round_effects (q : list State) (w : World)
    (q' : list State) (w' : World) : Prop :=
  permitted_hashes w' = permitted_hashes w
  /\ stdin w' = stdin w
  /\ num_states_added w <= num_states_added w'
  /\ Z.of_nat (length q')
     = Z.of_nat (length q) + (num_states_added w' - num_states_added w).

(** A round that ends with the winner.  Hashes are only added, and only
    when another pass of a coarse-to-fine search is to come; then the
    hashes of the winner and of all its ancestors are permitted, provided
    the winner passes its own test [cost <= 1.2 * cost]. *)
Definition winner_effects (pass_idx num_passes : Z) (w : World)
    (best : State) (w' : World) : Prop :=
  num_states_added w <= num_states_added w'
  /\ permitted_hashes w ⊆ permitted_hashes w'
  /\ (~ (0 <= pass_idx /\ pass_idx + 1 < num_passes) ->
      permitted_hashes w' = permitted_hashes w)
  /\ (0 <= pass_idx -> pass_idx + 1 < num_passes ->
      dle (cost best) (dmul_1_2 (cost best)) = true ->
      forall a, a ∈ ancestors best ->
        structural_hash a pass_idx ∈ permitted_hashes w').

Lemma expand_effects beam_size pass_idx num_passes frozen fuel :
  forall expanded pending q hashes w r,
    0 <= expanded ->
    expand beam_size pass_idx num_passes frozen fuel expanded pending q
           hashes w = Returned r ->
    match r with
    | Expanded q' w' => round_effects q w q' w'
    | Winner best w' =>
        stdin w' = stdin w /\ winner_effects pass_idx num_passes w best w'
    end.
Proof.
  induction fuel as [|fuel IH]; intros expanded pending q hashes w r Hexp E;
    simpl in E.
  - destruct (negb _); [|discriminate]. injection E as <-.
    unfold round_effects. repeat split; lia.
  - destruct (negb _) eqn:G.
    { injection E as <-. unfold round_effects. repeat split; lia. }
    apply negb_false_iff, andb_true_iff in G as [Hlt _].
    apply Z.ltb_lt in Hlt.
    destruct (pop pending) as [[state pending']|]; [|discriminate].
    destruct (penalize _ _ _ state pending' hashes (permitted_hashes w))
      as [pending2 hashes2 | state2 hashes2].
    { now apply IH in E. }
    destruct (if 1 <? queue_size pending'
              then random_dropout (rng w) (Z.of_nat num_nodes * 2)
              else (false, rng w)) as [drop_it rng'].
    destruct drop_it.
    { apply IH in E; [|assumption]. destruct r; exact E. }
    destruct (Z.eqb_spec (num_decisions_made state2) (2 * Z.of_nat num_nodes))
      as [Heq|_].
    { injection E as <-. simpl. split; [reflexivity|].
      unfold winner_effects. simpl. split; [lia|].
      destruct ((0 <=? pass_idx) && (pass_idx + 1 <? num_passes)) eqn:Guard.
      - apply andb_true_iff in Guard as [G0 G1].
        apply Z.leb_le in G0. apply Z.ltb_lt in G1.
        split; [apply bless_grows|]. split; [intros N; exfalso; apply N; lia|].
        intros _ _ Hdle a Ha.
        apply (bless_first beam_size pass_idx state2 pending' state2 0
                 (permitted_hashes w) Hdle ltac:(lia)).
        rewrite bless_ancestors_spec. apply elem_of_union_l.
        apply elem_of_list_to_set, list_elem_of_fmap. now exists a.
      - split; [reflexivity|]. split; [reflexivity|].
        intros H0 H1. apply andb_false_iff in Guard as [G0|G1].
        + apply Z.leb_gt in G0. lia.
        + apply Z.ltb_ge in G1. lia. }
    destruct (enqueue_all _ _ _) as [[q1 w1]| | | |] eqn:Eall;
      try discriminate.
    simpl in E. apply enqueue_all_effects in Eall as (Hp & Hs & Hn & Hl).
    simpl in Hp, Hs, Hn.
    apply IH in E; [|lia].
    destruct r as [best w' | q' w'].
    + destruct E as (Es & En & Esub & Eeq & Eanc).
      split; [congruence|]. unfold winner_effects.
      split; [lia|]. rewrite <- Hp. repeat split; assumption.
    + destruct E as (Ep & Es & En & El).
      unfold round_effects. split; [congruence|]. split; [congruence|].
      split; lia.
Qed.

Lemma read_selection_suffix input q_size selection rest :
  read_selection input q_size = Some (selection, rest) ->
  rest `suffix_of` input.
Proof.
  induction input as [|[z|] input IH]; cbn [read_selection];
    [discriminate | |].
  - destruct ((INT32_MIN <=? z) && (z <=? INT32_MAX)).
    + destruct ((z <? 0) || (q_size <=? z)).
      * intros E. apply suffix_cons_r. now apply IH.
      * intros [= _ <-]. apply suffix_cons_r. reflexivity.
    + destruct (_ || _); [discriminate|].
      intros [= _ <-]. apply suffix_nil.
  - destruct (_ || _); [discriminate|].
    intros [= _ <-]. apply suffix_nil.
Qed.

(** What a whole pass leaves behind. *)
Definition pass_effects (pass_idx num_passes : Z) (w : World)
    (best : State) (w' : World) : Prop :=
  stdin w' `suffix_of` stdin w
  /\ (cyos = false -> stdin w' = stdin w)
  /\ winner_effects pass_idx num_passes w best w'.

Lemma rounds_effects fuel :
  forall beam_size pass_idx num_passes frozen q pending w best w',
    rounds fuel beam_size pass_idx num_passes frozen q pending w
    = Returned (best, w') ->
    pass_effects pass_idx num_passes w best w'.
Proof.
  induction fuel as [|fuel IH];
    intros beam_size pass_idx num_passes frozen q pending w best w' E;
    simpl in E; [discriminate|].
  destruct (empty q); [discriminate|].
  destruct (expand _ _ _ _ fuel 0 q pending ∅ w) as [r| | | |] eqn:Ex;
    try discriminate.
  simpl in E. apply expand_effects in Ex; [|lia].
  destruct r as [b w1 | q1 w1].
  - injection E as <- <-. destruct Ex as [Hs Hw].
    split; [now rewrite Hs|]. split; [intros _; exact Hs | exact Hw].
  - destruct Ex as (Hp & Hs & Hn & _).
    assert (Hstep : forall w2,
      num_states_added w2 = num_states_added w1 ->
      permitted_hashes w2 = permitted_hashes w1 ->
      stdin w2 `suffix_of` stdin w1 ->
      (cyos = false -> stdin w2 = stdin w1) ->
      pass_effects pass_idx num_passes w2 best w' ->
      pass_effects pass_idx num_passes w best w').
    { intros w2 Hn2 Hp2 Hsuf Hsame (Is & Ic & In & Isub & Ieq & Ianc).
      split; [|split; [|split; [|split; [|split]]]].
      - rewrite <- Hs. etransitivity; eassumption.
      - intros Hc. rewrite (Ic Hc), (Hsame Hc). exact Hs.
      - lia.
      - now rewrite <- Hp, <- Hp2.
      - intros N. rewrite (Ieq N). congruence.
      - exact Ianc. }
    destruct cyos eqn:Hcyos.
    + destruct cost_model as [predict|]; [|discriminate].
      destruct (read_selection _ _) as [[selection input]|] eqn:Hsel;
        [|discriminate].
      destruct (_ !! _) as [selected|]; [|discriminate].
      apply IH in E.
      apply (Hstep (mkWorld (rng w1) (permitted_hashes w1)
                            (num_states_added w1) input) eq_refl eq_refl);
        [| intros Hc; first [discriminate | congruence] | exact E].
      simpl. now apply read_selection_suffix in Hsel.
    + apply IH in E. now apply (Hstep w1).
Qed.

(** A pass that returns leaves the input alone unless the user steers it,
    never lowers the counter of states added, and only ever adds permitted
    hashes: none at all in the pre-pass and in the last pass, and in the
    other passes those of the winner and of every ancestor of the winner,
    provided the winner's cost is no more than 1.2 times itself. *)
Theorem pass_only_blesses (fuel : nat) (beam_size pass_idx num_passes : Z)
    (frozen : Frozen) (w : World) (best : State) (w' : World) :
  optimal_schedule_pass fuel beam_size pass_idx num_passes frozen w
  = Returned (best, w') ->
  stdin w' `suffix_of` stdin w
  /\ (cyos = false -> stdin w' = stdin w)
  /\ num_states_added w <= num_states_added w'
  /\ permitted_hashes w ⊆ permitted_hashes w'
  /\ (~ (0 <= pass_idx /\ pass_idx + 1 < num_passes) ->
      permitted_hashes w' = permitted_hashes w)
  /\ (0 <= pass_idx -> pass_idx + 1 < num_passes ->
      dle (cost best) (dmul_1_2 (cost best)) = true ->
      forall a, a ∈ ancestors best ->
        structural_hash a pass_idx ∈ permitted_hashes w').
Proof.
  intros E. unfold optimal_schedule_pass in E.
  apply rounds_effects in E. exact E.
Qed.

(** The loop of one round, when it ends with children queued, has touched
    neither the permitted hashes nor the input, and has raised the counter
    of states added by exactly the number of states it queued. *)
Theorem round_counts_children (beam_size pass_idx num_passes : Z)
    (frozen : Frozen) (fuel : nat) (pending q : list State)
    (hashes : gmap Z Z) (w : World) (q' : list State) (w' : World) :
  expand beam_size pass_idx num_passes frozen fuel 0 pending q hashes w
  = Returned (Expanded q' w') ->
  permitted_hashes w' = permitted_hashes w
  /\ stdin w' = stdin w
  /\ num_states_added w' - num_states_added w
     = Z.of_nat (length q') - Z.of_nat (length q)
  /\ (length q <= length q')%nat.
Proof.
  intros E. apply expand_effects in E; [|lia].
  destruct E as (Hp & Hs & Hn & Hl).
  split; [exact Hp|]. split; [exact Hs|]. split; lia.
Qed.

End Effects.

(** *** The passes that are run *)

Lemma passes_log n :
  forall fuel beam_size pass_idx num_passes best frozen w log best' w' log',
    passes n fuel beam_size pass_idx num_passes best frozen w log
    = Returned (best', w', log') ->
    map fst log'
    = map fst log ++ map (fun k => pass_idx + Z.of_nat k) (seq 0 n)
    /\ (pass_idx + Z.of_nat n <= 0 -> best' = best).
Proof.
  induction n as [|n IH];
    intros fuel beam_size pass_idx num_passes best frozen w log best' w' log' E;
    simpl in E.
  - injection E as <- <- <-. split; [now rewrite app_nil_r | reflexivity].
  - destruct (optimal_schedule_pass _ _ _ _ _ _) as [[pass w1]| | | |];
      try discriminate.
    simpl in E.
    destruct (if pass_idx =? -1 then _ else _) as [frozen1| | | |];
      try discriminate.
    simpl in E.
    destruct (if 0 <=? pass_idx then _ else _) as [best1| | | |] eqn:Eb;
      try discriminate.
    simpl in E. apply IH in E as [Hlog Hbest]. split.
    + rewrite Hlog, map_app, <- app_assoc. simpl. f_equal. f_equal.
      * f_equal. lia.
      * rewrite <- seq_shift, map_map. apply map_ext. intros k. lia.
    + intros Hle. rewrite Hbest by lia.
      destruct (Z.leb_spec 0 pass_idx); [lia|]. now injection Eb.
Qed.

(** [optimal_schedule] returns a state only when at least one pass with an
    index from 0 on is run.  The calls of [optimal_schedule_pass] it has
    made then are one for each index from -1 (with a pre-pass) or 0 up to
    [num_passes - 1], in this order, each with that index and with
    [num_passes], on the world the call before left, starting from no
    permitted hash and no frozen node; the log holds the index and the
    winner of each call. *)
Theorem pass_plan (fuel : nat) (beam_size : Z) (w : World)
    (best : State) (w' : World) (log : list (Z * State)) :
  optimal_schedule fuel beam_size w = Returned (best, w', log) ->
  let start := if use_pre_pass then -1 else 0 in
  1 <= effective_passes beam_size
  /\ map fst log
     = map (fun k => start + Z.of_nat k)
           (seq 0 (Z.to_nat (effective_passes beam_size - start)))
  /\ Z.of_nat (length log) = effective_passes beam_size - start
  /\ pass_chain fuel beam_size start (effective_passes beam_size)
                (mkFrozen ∅ ∅)
                (mkWorld (rng w) ∅ (num_states_added w) (stdin w)) log w'.
Proof.
  intros E start. unfold optimal_schedule in E.
  change (if use_pre_pass then -1 else 0) with start in E.
  change (match num_passes_env with
          | Some n => n
          | None => if cyos then 1 else if beam_size =? 1 then 1 else 5
          end) with (requested_passes beam_size) in E.
  change (if use_pre_pass && (1 <? requested_passes beam_size)
          then requested_passes beam_size - 1
          else requested_passes beam_size)
    with (effective_passes beam_size) in E.
  destruct (passes _ _ _ _ _ _ _ _ _) as [[[best0 w0] log0]| | | |] eqn:Ep;
    try discriminate.
  simpl in E. destruct best0 as [b|]; [|discriminate].
  injection E as <- <- <-.
  destruct (passes_chain _ _ _ _ _ _ _ _ _ _ _ _ Ep)
    as (new & Hnew & _ & Hchain).
  simpl in Hnew. subst new.
  apply passes_log in Ep as [Hlog Hbest]. simpl in Hlog.
  assert (Hstart : start = -1 \/ start = 0)
    by (unfold start; destruct use_pre_pass; auto).
  assert (Hone : 1 <= effective_passes beam_size).
  { destruct (Z.le_gt_cases 1 (effective_passes beam_size)) as [|Hlt];
      [assumption|].
    assert (Some b = None) by (apply Hbest; lia). discriminate. }
  split; [exact Hone|]. split; [exact Hlog|].
  split; [|exact Hchain].
  apply (f_equal (@length Z)) in Hlog.
  rewrite !length_map, length_seq in Hlog. lia.
Qed.

(** *** The prompt *)

(** A number that the loop reads and passes over: it fits [int] and is
    not an index into the queue. *)
Definition passed_over (q_size : Z) (t : token) : Prop :=
  exists z, t = Number z /\ in_int32 z /\ (z < 0 \/ q_size <= z).

(** The prompt passes over numbers that fit [int] and are no index into
    the queue, and what comes after them decides.  A number that fits and
    is an index is the selection, and the input after it is left.  A
    number that does not fit [int] ends all reading without a selection,
    whatever follows.  Characters that are no number select index 0 of a
    queue that is not empty and end all reading as well.  At the end of
    the input there is no selection. *)
Theorem read_selection_spec (skipped : list token) (q_size : Z) :
  Forall (passed_over q_size) skipped ->
  (forall z rest, in_int32 z -> 0 <= z < q_size ->
     read_selection (skipped ++ Number z :: rest) q_size = Some (z, rest))
  /\ (forall z rest, ~ in_int32 z -> q_size <= INT32_MAX ->
       read_selection (skipped ++ Number z :: rest) q_size = None)
  /\ (forall rest,
       read_selection (skipped ++ NoNumber :: rest) q_size
       = if 0 <? q_size then Some (0, []) else None)
  /\ read_selection skipped q_size = None.
Proof.
  assert (Hmin : INT32_MIN = -2147483648) by reflexivity.
  assert (Hmax : INT32_MAX = 2147483647) by reflexivity.
  unfold in_int32.
  induction 1 as [|t skipped (z0 & -> & Hfit & Hout) _ IH].
  - cbn [app read_selection]. split; [|split; [|split]].
    + intros z rest Hz Hin.
      destruct (Z.leb_spec INT32_MIN z); [|lia].
      destruct (Z.leb_spec z INT32_MAX); [|lia]. cbn [andb].
      destruct (Z.ltb_spec z 0); [lia|]. cbn [orb].
      destruct (Z.leb_spec q_size z); [lia | reflexivity].
    + intros z rest Hz Hq.
      destruct (Z.leb_spec INT32_MIN z) as [Hlo|Hlo]; cbn [andb].
      * destruct (Z.leb_spec z INT32_MAX); [lia|].
        destruct (Z.ltb_spec z INT32_MIN); [lia|].
        destruct (Z.ltb_spec INT32_MAX 0); [lia|]. cbn [orb].
        destruct (Z.leb_spec q_size INT32_MAX); [reflexivity | lia].
      * destruct (Z.ltb_spec z INT32_MIN); [|lia]. reflexivity.
    + intros rest. change (0 <? 0) with false. cbn [orb].
      destruct (Z.ltb_spec 0 q_size), (Z.leb_spec q_size 0);
        try reflexivity; lia.
    + reflexivity.
  - assert (Hstep : forall input,
      read_selection (Number z0 :: input) q_size
      = read_selection input q_size).
    { intros input. cbn [read_selection]. unfold in_int32 in Hfit.
      destruct (Z.leb_spec INT32_MIN z0); [|lia].
      destruct (Z.leb_spec z0 INT32_MAX); [|lia]. cbn [andb].
      destruct (Z.ltb_spec z0 0); [reflexivity|]. cbn [orb].
      destruct (Z.leb_spec q_size z0); [reflexivity | lia]. }
    destruct IH as (I1 & I2 & I3 & I4).
    split; [|split; [|split]]; intros; cbn [app]; rewrite Hstep; auto.
Qed.

(** *** The loop nests frozen as compute_root *)

(** The copies pushed for [key]: one per child of the root whose node is
    [key], in the order of the children. *)
Definition frozen_copies (best : State) (key : Z) : list LoopNest :=
  deep_copy_loop_nest
    <$> filter (fun c => node_id (node c) = key) (children (root best)).

Lemma compute_root_fold (to_freeze : gmap Z bool) (key : Z)
    (kids : list LoopNest) :
  forall m : gmap Z (list LoopNest),
    foldl (fun m c =>
             let key := node_id (node c) in
             match to_freeze !! key with
             | Some _ =>
                 <[key := default [] (m !! key) ++ [deep_copy_loop_nest c]]> m
             | None => m
             end) m kids !! key
    = match to_freeze !! key,
            deep_copy_loop_nest
              <$> filter (fun c => node_id (node c) = key) kids with
      | Some _, (_ :: _) as added => Some (default [] (m !! key) ++ added)
      | _, _ => m !! key
      end.
Proof.
  induction kids as [|c kids IH]; intros m; simpl.
  - destruct (to_freeze !! key); reflexivity.
  - rewrite IH. rewrite filter_cons.
    destruct (decide (node_id (node c) = key)) as [->|Hne].
    + destruct (to_freeze !! key) as [b|] eqn:Ef; [|reflexivity].
      rewrite lookup_insert_eq.
      destruct (filter _ kids) as [|x l]; simpl.
      * reflexivity.
      * now rewrite <- app_assoc.
    + destruct (to_freeze !! node_id (node c)) as [b|]; [|reflexivity].
      rewrite lookup_insert_ne by assumption. reflexivity.
Qed.

(** After the freeze, the compute_root entry of a frozen node is its entry
    from before followed by a copy of every child of the root that
    belongs to the node, in the order of the children; a frozen node
    without such a child, and a node that is not frozen, keep the entry
    they had, or none. *)
Theorem freeze_appends_copies (best : State) (frozen frozen' : Frozen) :
  freeze_lowest_cost_stages best frozen = Returned frozen' ->
  exists sorted to_freeze,
    nodes_to_freeze best = Returned (sorted, to_freeze)
    /\ forall key,
         compute_root_nodes frozen' !! key
         = match to_freeze !! key, frozen_copies best key with
           | Some _, (_ :: _) as added =>
               Some (default [] (compute_root_nodes frozen !! key) ++ added)
           | _, _ => compute_root_nodes frozen !! key
           end.
Proof.
  unfold freeze_lowest_cost_stages. intros E.
  destruct (nodes_to_freeze best) as [[sorted to_freeze]| | | |];
    try discriminate.
  simpl in E. injection E as <-.
  exists sorted, to_freeze. split; [reflexivity|].
  intros key. simpl. apply compute_root_fold.
Qed.

(** *** Every pass ends *)

Lemma rounds_stable fuel :
  forall beam_size pass_idx num_passes frozen q pending w,
    rounds fuel beam_size pass_idx num_passes frozen q pending w
    <> OutOfFuel ->
    forall fuel', (fuel <= fuel')%nat ->
      rounds fuel' beam_size pass_idx num_passes frozen q pending w
      = rounds fuel beam_size pass_idx num_passes frozen q pending w.
Proof.
  induction fuel as [|fuel IH];
    intros beam_size pass_idx num_passes frozen q pending w Hne fuel' Hle;
    [now contradict Hne|].
  destruct fuel' as [|fuel']; [lia|]. simpl in *.
  destruct (empty q); [reflexivity|].
  assert (Hex : expand beam_size pass_idx num_passes frozen fuel 0 q pending
                       ∅ w <> OutOfFuel).
  { intros N. rewrite N in Hne. now apply Hne. }
  rewrite (expand_stable _ _ _ _ fuel _ _ _ _ _ Hex fuel') by lia.
  destruct (expand _ _ _ _ fuel 0 q pending ∅ w) as [r| | | |];
    try reflexivity.
  simpl in *. destruct r as [b w1 | q1 w1]; [reflexivity|].
  destruct cyos.
  - destruct cost_model as [predict|]; [|reflexivity].
    destruct (read_selection _ _) as [[selection input]|]; [|reflexivity].
    destruct (_ !! _) as [selected|]; [|reflexivity].
    apply IH; [exact Hne | lia].
  - apply IH; [exact Hne | lia].
Qed.

Section Ends.

Hypothesis children_parent :
  forall s pre_pass frozen c,
    In c (generate_children s pre_pass frozen) -> parent c = Some s.

(** When every generated child has its parent set, a pass always comes to
    an end: it returns a winner, aborts with an internal error, waits for
    input that does not come or runs into undefined behaviour, and it does
    not expand or defer states forever.  In the embedding: from some
    amount of fuel on the outcome no longer depends on the fuel and is not
    [OutOfFuel]. *)
Theorem pass_settles
    (beam_size pass_idx num_passes : Z) (frozen : Frozen) (w : World) :
  exists fuel0,
    optimal_schedule_pass fuel0 beam_size pass_idx num_passes frozen w
    <> OutOfFuel
    /\ forall fuel, (fuel0 <= fuel)%nat ->
         optimal_schedule_pass fuel beam_size pass_idx num_passes frozen w
         = optimal_schedule_pass fuel0 beam_size pass_idx num_passes frozen w.
Proof.
  unfold optimal_schedule_pass.
  destruct (rounds_end children_parent (2 * num_nodes) 0 beam_size pass_idx
              num_passes frozen (emplace initial []) w) as [fuel0 Hends].
  - lia.
  - simpl. repeat constructor.
  - exists fuel0. split; [apply Hends; lia|].
    intros fuel Hfuel. apply rounds_stable; [apply Hends; lia | exact Hfuel].
Qed.

End Ends.

End Pass.

Arguments State : clear implicits.
Arguments mkState {double LoopNest} root parent cost cost_per_stage
  num_decisions_made penalized.
Arguments root {double LoopNest} s.
Arguments parent {double LoopNest} s.
Arguments cost {double LoopNest} s.
Arguments cost_per_stage {double LoopNest} s.
Arguments num_decisions_made {double LoopNest} s.
Arguments penalized {double LoopNest} s.
Arguments mkWorld {RNG} rng permitted_hashes num_states_added stdin.
Arguments rng {RNG} w.
Arguments permitted_hashes {RNG} w.
Arguments num_states_added {RNG} w.
Arguments stdin {RNG} w.
Arguments Deferred {double LoopNest} pending hashes.
Arguments Proceed {double LoopNest} state hashes.
Arguments Winner {double LoopNest RNG} best w.
Arguments Expanded {double LoopNest RNG} q w.
Arguments mkFrozen {LoopNest} inlined_nodes compute_root_nodes.
Arguments inlined_nodes {LoopNest} f.
Arguments compute_root_nodes {LoopNest} f.

(** *** Concrete runs

    A small pipeline to run the search on.  Costs are small integers, on
    which sums, products by a penalty and comparisons of doubles are exact;
    1.2 * c is exact on the multiples of 5 the runs use.  A loop nest is a
    label: the root is 0 and the children of [l] are [2 * l + 1] and
    [2 * l + 2], costing 10 and 20 more than their parent. *)
Module Runs.

#[local] Instance Z_double : Double Z := {|
  dzero := 0;
  dadd := Z.add;
  dmul_int := Z.mul;
  dmul_1_2 := fun c => 12 * c / 10;
  dlt := Z.ltb;
  dle := Z.leb
|}.

(** On these integers the logarithm is rounded up, which gives the
    difference the value the truncation gives it for the few nodes of the
    runs: 3 - 1.58... is 1.41..., that is 1, and 3 - 2 is 1. *)
#[local] Instance Z_sizes : SizeArith Z := {|
  of_size := Z.of_nat;
  dlog2 := Z.log2_up;
  dsub := Z.sub;
  to_size := fun d => if d <? 0 then None else Some (Z.to_nat d)
|}.

Lemma Zlt_irrefl a : dlt a a = false.
Proof. apply Z.ltb_irrefl. Qed.

Lemma Zlt_trans a b c : dlt a b = true -> dlt b c = true -> dlt a c = true.
Proof. simpl. rewrite !Z.ltb_lt. lia. Qed.

Lemma Zlt_weak a b c : dlt a b = true -> dlt a c = true \/ dlt c b = true.
Proof. simpl. rewrite !Z.ltb_lt. lia. Qed.

Definition structural_hash (s : State Z Z) (depth : Z) : Z :=
  root s * 8 + depth.

Definition generate_children (s : State Z Z) (pre_pass : bool) (frozen : Frozen Z)
  : list (State Z Z) :=
  [ mkState (2 * root s + 1) (Some s) (cost s + 10) [cost s + 10]
            (num_decisions_made s + 1) true;
    mkState (2 * root s + 2) (Some s) (cost s + 20) [cost s + 20]
            (num_decisions_made s + 1) true ].

(** A state is dropped at the second draw only. *)
Definition random_dropout (rng : nat) (num_decisions : Z) : bool * nat :=
  ((rng =? 1)%nat, S rng).

(** One node with one stage. *)
Definition one_node : FunctionDAG :=
  mkDAG [mkNode 0 false 1] {[ 0 := mkNode 0 false 1 ]}.

Definition world0 : World nat := mkWorld 0%nat ∅ 0 [].

Definition no_freeze : Frozen Z := mkFrozen ∅ ∅.

(** The pass on [one_node], without a cost model and without prompt. *)
Definition pass (fuel : nat) (beam_size pass_idx num_passes : Z)
    (w : World nat) : outcome (State Z Z * World nat) :=
  optimal_schedule_pass one_node Z 0 structural_hash generate_children None
                        nat random_dropout false
                        fuel beam_size pass_idx num_passes no_freeze w.

(** Two passes with a beam of two. *)
Definition schedule (fuel : nat) (beam_size : Z) (w : World nat)
  : outcome (State Z Z * World nat * list (Z * State Z Z)) :=
  optimal_schedule one_node Z 0 structural_hash generate_children None
                   nat random_dropout false
                   (fun _ => []) (fun _ => mkNode 0 false 1) (fun l => l)
                   (fun _ _ inlined => inlined)
                   (Some 2) false fuel beam_size w.

Lemma generate_children_parent s pre_pass frozen c :
  In c (generate_children s pre_pass frozen) -> parent c = Some s.
Proof. intros [<- | [<- | []]]; reflexivity. Qed.

(** The pass on [one_node] ends, whatever the beam and the pass. *)
Example pass_ends beam_size pass_idx num_passes w :
  exists fuel0, forall fuel, (fuel0 <= fuel)%nat ->
    pass fuel beam_size pass_idx num_passes w <> OutOfFuel.
Proof.
  apply (optimal_schedule_pass_ends one_node Z 0 structural_hash
           generate_children None nat random_dropout false
           generate_children_parent).
Qed.

(** The states of the runs: the root, its cheaper child [A], and the two
    children [AA] and [AB] of [A]. *)
Definition init : State Z Z := initial Z 0.
Definition A : State Z Z := mkState 1 (Some init) 10 [10] 1 false.
Definition AA : State Z Z := mkState 3 (Some A) 20 [20] 2 false.
Definition AB : State Z Z := mkState 4 (Some A) 30 [30] 2 false.
Definition AB_penalized : State Z Z := mkState 4 (Some A) 330 [330] 2 true.

(** Scenario 1 of the specification: one node, a beam of one, one pass;
    the winner has made two decisions. *)
Example greedy_pass :
  pass 20 1 0 1 world0 = Returned (AA, mkWorld 0%nat ∅ 4 []).
Proof. vm_compute. reflexivity. Qed.

(** With a beam of two and a second pass to come, the winner's ancestors
    are blessed. *)
Example first_pass_of_two :
  pass 20 2 0 2 world0
  = Returned (AA, mkWorld 1%nat (list_to_set [0; 8; 24]) 6 []).
Proof. vm_compute. reflexivity. Qed.

(** No children at all: the next round has nothing to expand and the pass
    stops with the internal error. *)
Example barren_pass :
  optimal_schedule_pass one_node Z 0 structural_hash (fun _ _ _ => []) None
                        nat random_dropout false 20 8 0 5 no_freeze world0
  = InternalError (RanOutOfLegalStates 8).
Proof. vm_compute. reflexivity. Qed.

(** The second pass drops [AA] and returns the penalized [AB]; the result
    of [optimal_schedule] stays the winner of the first pass. *)
Example best_is_not_the_last_pass :
  schedule 20 2 world0
  = Returned (AA, mkWorld 3%nat (list_to_set [0; 8; 24]) 12 [],
              [(0, AA); (1, AB_penalized)]).
Proof. vm_compute. reflexivity. Qed.

Lemma decisions_monotone_and_terminal_witness :
  Forall (one_more_decision Z) (generate_children init false no_freeze)
  /\ enqueue_new_children Z nat (mkState 9 (Some init) 10 [10] 5 false)
                           [] world0
     = InternalError DecisionCountMismatch
  /\ num_decisions_made AA = 2 * Z.of_nat (length (nodes one_node))
  /\ (exists w',
        expand one_node Z structural_hash generate_children nat random_dropout
               1 0 1 no_freeze 1 0 [AA; AB] [] ∅ world0
        = Returned (Winner AA w')).
Proof.
  pose proof (decisions_monotone_and_terminal one_node Z 0 structural_hash
                generate_children None nat random_dropout false)
    as (Hall & Hbad & Hwin & Hterm).
  split; [|split; [|split]].
  - apply (Hall _ [] world0
             (emplace Z (set_penalized Z (mkState 2 (Some init) 20 [20] 1 true) false)
                (emplace Z (set_penalized Z (mkState 1 (Some init) 10 [10] 1 true) false) []))
             (mkWorld 0%nat ∅ 2 [])).
    vm_compute. reflexivity.
  - apply (Hbad _ init); [reflexivity | vm_compute; discriminate].
  - apply (Hwin 20%nat 1 0 1 no_freeze world0 AA (mkWorld 0%nat ∅ 4 [])).
    vm_compute. reflexivity.
  - apply (Hterm 1 0 1 no_freeze 0%nat 0 AA [AB] [] ∅ world0 AA ∅);
      [lia | reflexivity..].
Defined.

Lemma total_mortality_is_fatal_witness :
  rounds one_node Z 0 structural_hash (fun _ _ _ => []) None nat random_dropout
         false 1 8 0 5 no_freeze [] [] world0
  = InternalError (RanOutOfLegalStates 8)
  /\ 8 = 8.
Proof.
  pose proof (total_mortality_is_fatal one_node Z 0 structural_hash
                (fun _ _ _ => []) None nat random_dropout false 8 0 5 no_freeze)
    as [Hempty Hsame].
  split.
  - apply Hempty.
  - apply (Hsame 20%nat world0 8). vm_compute. reflexivity.
Defined.

Lemma penalty_guarded_and_idempotent_witness :
  penalize Z structural_hash 1 0 1 AB [AA] ∅ ∅ = Proceed AB ∅
  /\ penalize Z structural_hash 2 1 2 AB_penalized [AA] ∅ ∅
     = Proceed AB_penalized ∅
  /\ from_pending Z [AA; AB] (mkState 3 (Some A) 220 [220] 2 true).
Proof.
  split; [|split].
  - apply (proj1 (penalty_guarded_and_idempotent one_node Z structural_hash
                    generate_children nat random_dropout
                    1 0 1 AB [AA] ∅ ∅)).
    left. lia.
  - apply (proj1 (proj2 (penalty_guarded_and_idempotent one_node Z
                           structural_hash generate_children nat
                           random_dropout 2 1 2 AB_penalized [AA] ∅ ∅))).
    reflexivity.
  - pose proof (penalty_guarded_and_idempotent one_node Z structural_hash
                  generate_children nat random_dropout 2 1 2 AB [AA] ∅ ∅)
      as (_ & _ & _ & _ & _ & Honce).
    apply (Honce no_freeze 6%nat 0 [AA; AB] [] ∅ world0
                 (Winner (mkState 3 (Some A) 220 [220] 2 true) world0)).
    vm_compute. reflexivity.
Defined.

(** A state that is not permitted in the second pass is penalized by 11
    and put back behind the cheaper one. *)
Example penalize_defers :
  penalize Z structural_hash 2 1 2 AB [AA] ∅ ∅
  = Deferred [AA; AB_penalized] {[ 34 := 1 ]}.
Proof. vm_compute. reflexivity. Qed.

Lemma optimal_schedule_returns_cheapest_witness :
  pass_chain one_node Z 0 structural_hash generate_children None
             nat random_dropout false
             (fun _ => []) (fun _ => mkNode 0 false 1) (fun l => l)
             (fun _ _ inlined => inlined)
             20 2 0 2 no_freeze world0
             [(0, AA); (1, AB_penalized)]
             (mkWorld 3%nat (list_to_set [0; 8; 24]) 12 [])
  /\ first_cheapest Z [(0, AA); (1, AB_penalized)] AA
  /\ (forall i pass, In (i, pass) [(0, AA); (1, AB_penalized)] -> 0 <= i ->
        dlt (cost pass) (cost AA) = false)
  /\ (exists start, (start = -1 \/ start = 0)
        /\ map fst [(0, AA); (1, AB_penalized)]
           = map (fun k => start + Z.of_nat k) (seq 0 2)).
Proof.
  apply (optimal_schedule_returns_cheapest one_node Z 0 structural_hash
           generate_children None nat random_dropout false
           (fun _ => []) (fun _ => mkNode 0 false 1) (fun l => l)
           (fun _ _ inlined => inlined) (Some 2) false
           Zlt_irrefl Zlt_trans 20%nat 2 world0 AA
           (mkWorld 3%nat (list_to_set [0; 8; 24]) 12 [])).
  - vm_compute. reflexivity.
  - intros i a j b k c _ _ _. apply Zlt_weak.
Defined.

(** Four nodes, the last an input buffer, one stage each. *)
Definition four_nodes : FunctionDAG :=
  mkDAG [mkNode 0 false 1; mkNode 1 false 1; mkNode 2 false 1; mkNode 3 true 1]
        {[ 0 := mkNode 0 false 1; 1 := mkNode 1 false 1;
           2 := mkNode 2 false 1; 3 := mkNode 3 true 1 ]}.

(** A pre-pass winner whose stages cost 30, 10 and 20. *)
Definition winner : State Z Z := mkState 0 None 60 [30; 10; 20] 8 false.

Lemma four_nodes_wf : dag_wf four_nodes.
Proof.
  split.
  - intros p n Hp. do 4 (destruct p as [|p]; [now injection Hp as <-|]).
    discriminate.
  - intros i Hi. change (num_stages four_nodes) with 3%nat in Hi.
    do 3 (destruct i as [|i];
          [eexists; split; [reflexivity|]; set_solver|]).
    lia.
  - intros n Hn Hinput. change (num_stages four_nodes) with 3%nat.
    unfold four_nodes in Hn. simpl in Hn.
    repeat (apply elem_of_cons in Hn as [->|Hn]);
      [exists 0%nat | exists 1%nat | exists 2%nat | discriminate |
       now apply elem_of_nil in Hn]; (split; [lia | reflexivity]).
Qed.

Lemma freeze_selects_cheapest_witness :
  exists sorted to_freeze frozen',
    nodes_to_freeze four_nodes Z winner = Returned (sorted, to_freeze)
    /\ fst <$> sorted ≡ₚ node_id <$> non_inputs four_nodes
    /\ (forall id c, (id, c) ∈ sorted -> c = node_cost four_nodes Z winner id)
    /\ ascending sorted
    /\ dom to_freeze = list_to_set (fst <$> take 1 sorted)
    /\ size to_freeze = 1%nat
    /\ freeze_lowest_cost_stages four_nodes Z (fun _ => [])
         (fun _ => mkNode 0 false 1) (fun l => l) (fun _ _ inlined => inlined)
         winner no_freeze = Returned frozen'
    /\ inlined_nodes frozen' = inlined_nodes no_freeze
    /\ (forall key, key ∉ dom to_freeze ->
          compute_root_nodes frozen' !! key
          = compute_root_nodes no_freeze !! key).
Proof.
  apply (freeze_selects_cheapest four_nodes Z (fun _ => [])
           (fun _ => mkNode 0 false 1) (fun l => l) (fun _ _ inlined => inlined)
           Zlt_irrefl Zlt_trans four_nodes_wf winner).
  - vm_compute. lia.
  - intros n1 n2 n3 _ _ _. apply Zlt_weak.
  - reflexivity.
  - vm_compute. lia.
Defined.

(** Three nodes, none an input. *)
Definition three_nodes : FunctionDAG :=
  mkDAG [mkNode 0 false 1; mkNode 1 false 1; mkNode 2 false 1]
        {[ 0 := mkNode 0 false 1; 1 := mkNode 1 false 1;
           2 := mkNode 2 false 1 ]}.

(** C9 (as stated) fails: of the four nodes of [four_nodes] one is an
    input; one node is frozen, the cheapest, and not 4 - log2 4 = 2.  Of
    the three nodes of [three_nodes] one is frozen as well, where the
    logarithm rounded down would give 3 - 1 = 2. *)
Lemma freeze_four_nodes_freezes_one :
  length (nodes four_nodes) = 4%nat
  /\ nodes_to_freeze four_nodes Z winner
     = Returned ([(1, 10); (2, 20); (0, 30)], {[ 1 := true ]})
  /\ size ({[ 1 := true ]} : gmap Z bool) <> (4 - Z.to_nat (Z.log2 4))%nat
  /\ length (nodes three_nodes) = 3%nat
  /\ nodes_to_freeze three_nodes Z winner
     = Returned ([(1, 10); (2, 20); (0, 30)], {[ 1 := true ]})
  /\ size ({[ 1 := true ]} : gmap Z bool) <> (3 - Z.to_nat (Z.log2 3))%nat.
Proof.
  split; [reflexivity|]. split; [vm_compute; reflexivity|].
  split; [vm_compute; discriminate|].
  split; [reflexivity|]. split; [vm_compute; reflexivity|].
  vm_compute. discriminate.
Qed.

(** Three nodes and no input: 3 - log2 3 is about 1.4, and one node is
    frozen. *)
Example num_to_freeze_values :
  num_to_freeze (double := Z) 1 = Some 1%nat
  /\ num_to_freeze (double := Z) 2 = Some 1%nat
  /\ num_to_freeze (double := Z) 3 = Some 1%nat
  /\ num_to_freeze (double := Z) 4 = Some 2%nat
  /\ num_to_freeze (double := Z) 5 = Some 2%nat
  /\ num_to_freeze (double := Z) 8 = Some 5%nat.
Proof. vm_compute. repeat split. Qed.

(** The first pass of two permits the hash of the winner's parent. *)
Lemma pass_only_blesses_witness :
  structural_hash A 0
  ∈ permitted_hashes (mkWorld 1%nat (list_to_set [0; 8; 24]) 6 []).
Proof.
  pose proof (pass_only_blesses one_node Z 0 structural_hash generate_children
                None nat random_dropout false 20%nat 2 0 2 no_freeze world0
                AA (mkWorld 1%nat (list_to_set [0; 8; 24]) 6 []))
    as Heffects.
  destruct Heffects as (_ & _ & _ & _ & _ & Hanc);
    [vm_compute; reflexivity|].
  apply (Hanc ltac:(lia) ltac:(lia) eq_refl A).
  unfold AA. simpl. apply elem_of_cons. right. apply elem_of_cons. now left.
Defined.

(** The first round of a pass with a beam of two queues the two children
    of the initial state. *)
Lemma round_counts_children_witness :
  num_states_added (mkWorld 0%nat ∅ 2 []) - num_states_added world0
  = Z.of_nat (length [A; mkState 2 (Some init) 20 [20] 1 false])
    - Z.of_nat (length (@nil (State Z Z))).
Proof.
  apply (round_counts_children one_node Z structural_hash generate_children
           nat random_dropout 2 0 2 no_freeze 5%nat [init] [] ∅ world0
           [A; mkState 2 (Some init) 20 [20] 1 false]
           (mkWorld 0%nat ∅ 2 [])).
  vm_compute. reflexivity.
Defined.

(** Two passes asked for and no pre-pass: the passes 0 and 1. *)
Lemma pass_plan_witness :
  map fst [(0, AA); (1, AB_penalized)] = [0; 1].
Proof.
  apply (pass_plan one_node Z 0 structural_hash generate_children None
           nat random_dropout false
           (fun _ => []) (fun _ => mkNode 0 false 1) (fun l => l)
           (fun _ _ inlined => inlined) (Some 2) false
           20%nat 2 world0 AA
           (mkWorld 3%nat (list_to_set [0; 8; 24]) 12 [])).
  vm_compute. reflexivity.
Defined.

(** The root has four children, for the nodes 0, 1, 2 and 1; node 1 is
    the one frozen, and its two loop nests are copied in order. *)
Lemma freeze_appends_copies_witness :
  exists sorted to_freeze,
    nodes_to_freeze four_nodes Z winner = Returned (sorted, to_freeze)
    /\ forall key,
         compute_root_nodes (mkFrozen ∅ {[ 1 := [111; 111] ]}) !! key
         = match to_freeze !! key,
                 frozen_copies Z (fun _ => [10; 11; 12; 11])
                               (fun l => mkNode (l - 10) false 1)
                               (fun l => l + 100) winner key with
           | Some _, (_ :: _) as added =>
               Some (default [] (compute_root_nodes no_freeze !! key) ++ added)
           | _, _ => compute_root_nodes no_freeze !! key
           end.
Proof.
  apply (freeze_appends_copies four_nodes Z (fun _ => [10; 11; 12; 11])
           (fun l => mkNode (l - 10) false 1) (fun l => l + 100)
           (fun _ _ inlined => inlined) winner no_freeze
           (mkFrozen ∅ {[ 1 := [111; 111] ]})).
  vm_compute. reflexivity.
Defined.

Lemma pass_settles_witness :
  exists fuel0,
    pass fuel0 2 0 2 world0 <> OutOfFuel
    /\ forall fuel, (fuel0 <= fuel)%nat ->
         pass fuel 2 0 2 world0 = pass fuel0 2 0 2 world0.
Proof.
  apply (pass_settles one_node Z 0 structural_hash generate_children None
           nat random_dropout false generate_children_parent
           2 0 2 no_freeze world0).
Defined.

Lemma read_selection_spec_witness :
  read_selection [Number 7; Number (-1); Number 1; Number 0] 2
  = Some (1, [Number 0])
  /\ read_selection [Number 7; Number 99999999999; Number 1] 2 = None
  /\ read_selection [Number 7; NoNumber; Number 1] 2 = Some (0, []).
Proof.
  assert (H7 : passed_over 2 (Number 7)).
  { exists 7. split; [reflexivity|].
    split; [vm_compute; split; discriminate | right; lia]. }
  assert (Hm1 : passed_over 2 (Number (-1))).
  { exists (-1). split; [reflexivity|].
    split; [vm_compute; split; discriminate | left; lia]. }
  split; [|split].
  - apply (proj1 (read_selection_spec [Number 7; Number (-1)] 2
                    ltac:(repeat constructor; assumption)));
      [vm_compute; split; discriminate | lia].
  - apply (proj1 (proj2 (read_selection_spec [Number 7] 2
                           ltac:(repeat constructor; assumption)))).
    + vm_compute. intros [_ Hle]. now apply Hle.
    + vm_compute. discriminate.
  - apply (proj1 (proj2 (proj2 (read_selection_spec [Number 7] 2
                                  ltac:(repeat constructor; assumption))))).
Defined.

End Runs.

End Search.

(** ** Loops of a stage

    [FunctionDAG::Node::Loop] and [Stage::get_loop_index_from_var]. *)

Module Stages.
Import Int.
Local Open Scope Z_scope.

(** [struct Loop], without the two [Expr] members [min] and [max]. *)
Record Loop : Type := mkLoop {
  var : string;
  pure : bool;
  rvar : bool;
  pure_dim : Z;
  equals_region_computed : bool;
  region_computed_dim : Z;
  bounds_are_constant : bool;
  c_min : Z;
  c_max : Z;
  accessor : string
}.

(** The loop [for (const auto &l : loop)] with the [int] counter [i];
    [++i] past [INT32_MAX] is undefined. *)
Fixpoint get_loop_index_from (i : Z) (loop : list Loop) (v : string)
  : option Z :=
  match loop with
  | [] => Some (-1)
  | l :: rest =>
      if String.eqb (var l) v then Some i
      else if i =? INT32_MAX then None
           else get_loop_index_from (i + 1) rest v
  end.

(** [int get_loop_index_from_var(const std::string &var) const]. *)
Definition get_loop_index_from_var (loop : list Loop) (v : string)
  : option Z :=
  get_loop_index_from 0 loop v.

Lemma get_loop_index_from_spec (loop : list Loop) (v : string) :
  forall i,
    0 <= i -> i + Z.of_nat (length loop) <= INT32_MAX ->
    exists r,
      get_loop_index_from i loop v = Some r
      /\ (r = -1 <-> Forall (fun l => var l <> v) loop)
      /\ (r <> -1 ->
          i <= r < i + Z.of_nat (length loop)
          /\ exists l,
               loop !! Z.to_nat (r - i) = Some l /\ var l = v
               /\ Forall (fun l' => var l' <> v)
                         (take (Z.to_nat (r - i)) loop)).
Proof.
  unfold INT32_MAX.
  induction loop as [|l rest IH]; intros i Hi Hlen;
    cbn [get_loop_index_from].
  - exists (-1). split; [reflexivity|]. split; [split; [constructor | reflexivity]|].
    intros N. now contradict N.
  - rewrite length_cons, Nat2Z.inj_succ in *.
    destruct (String.eqb_spec (var l) v) as [Heq|Hne].
    + exists i. split; [reflexivity|]. split.
      * split; [lia|]. intros Hall. apply Forall_cons in Hall as [N _].
        contradiction.
      * intros _. split; [lia|]. exists l. rewrite Z.sub_diag. simpl.
        split; [reflexivity|]. split; [exact Heq | constructor].
    + destruct (Z.eqb_spec i INT32_MAX) as [Hmax|Hmax];
        [unfold INT32_MAX in Hmax; lia|].
      destruct (IH (i + 1) ltac:(lia) ltac:(lia)) as (r & -> & Hminus & Hfound).
      exists r. split; [reflexivity|]. split.
      * rewrite Hminus, Forall_cons. tauto.
      * intros Hr. destruct (Hfound Hr) as (Hrange & l' & Hl' & Hv & Hbefore).
        split; [lia|]. exists l'.
        replace (Z.to_nat (r - i)) with (S (Z.to_nat (r - (i + 1)))) by lia.
        simpl. split; [exact Hl'|]. split; [exact Hv|].
        constructor; assumption.
Qed.

(** The index returned is that of the first loop whose variable has the
    name asked for: it is in range, the loop there has that name and no
    loop before it has; -1 is returned exactly when no loop has the
    name. *)
Theorem get_loop_index_from_var_first (loop : list Loop) (v : string) :
  Z.of_nat (length loop) <= INT32_MAX ->
  exists r,
    get_loop_index_from_var loop v = Some r
    /\ (r = -1 <-> Forall (fun l => var l <> v) loop)
    /\ (r <> -1 ->
        0 <= r < Z.of_nat (length loop)
        /\ exists l,
             loop !! Z.to_nat r = Some l /\ var l = v
             /\ Forall (fun l' => var l' <> v) (take (Z.to_nat r) loop)).
Proof.
  intros Hlen. unfold get_loop_index_from_var.
  destruct (get_loop_index_from_spec loop v 0 ltac:(lia) Hlen)
    as (r & E & Hminus & Hfound).
  exists r. split; [exact E|]. split; [exact Hminus|].
  intros Hr. destruct (Hfound Hr) as (Hrange & l & Hl & Hv & Hbefore).
  rewrite Z.sub_0_r in Hl, Hbefore. split; [lia|]. now exists l.
Qed.

Lemma get_loop_index_from_var_first_witness :
  let loop := [mkLoop "x" true false 0 false 0 false 0 0 "";
               mkLoop "y" true false 1 false 0 false 0 0 "";
               mkLoop "y" false true 0 false 0 false 0 0 ""] in
  exists r,
    get_loop_index_from_var loop "y" = Some r
    /\ (r = -1 <-> Forall (fun l => var l <> "y") loop)
    /\ (r <> -1 ->
        0 <= r < Z.of_nat (length loop)
        /\ exists l,
             loop !! Z.to_nat r = Some l /\ var l = "y"
             /\ Forall (fun l' => var l' <> "y") (take (Z.to_nat r) loop)).
Proof.
  intros loop. apply (get_loop_index_from_var_first loop "y").
  vm_compute. discriminate.
Defined.

End Stages.

(** ** The pipeline features handed to the cost model

    [configure_pipeline_features] of [apps/autoscheduler/AutoSchedule.cpp]. *)

Module Features.
Import Int.
Local Open Scope Z_scope.

(** How the function ends: it returns, [internal_assert] fails, or the
    behaviour is undefined (an access out of bounds, an [int] that
    overflows). *)
Inductive result (A : Type) : Type :=
| Done (a : A)
| AssertionFailed
| Undefined.
Arguments Done {A} a.
Arguments AssertionFailed {A}.
Arguments Undefined {A}.

#[export] Instance result_bind : MBind result := fun A B k m =>
  match m with
  | Done a => k a
  | AssertionFailed => AssertionFailed
  | Undefined => Undefined
  end.

(** [a + b] on [int]. *)
Definition add32 (a b : Z) : result Z :=
  if (INT32_MIN <=? a + b) && (a + b <=? INT32_MAX) then Done (a + b)
  else Undefined.

(** A stage with its [PipelineFeatures] read as the array of [int] it is
    cast to, and a node with what the function reads of it. *)
Record Stage : Type := mkStage { features : list Z }.

Record Node : Type := mkNode { is_input : bool; stages : list Stage }.

Section Configure.

(** [head1_w] and [head1_h] of NetworkSize.h. *)
Variable head1_w : Z.
Variable head1_h : Z.

(** [float], and the conversion of an [int] to it. *)
Variable float : Type.
Variable of_int : Z -> float.

(** [Runtime::Buffer<float>] of three dimensions: the extents and the
    cells written so far. *)
Record Buffer : Type := mkBuffer {
  extents : Z * Z * Z;
  cells : gmap (Z * Z * Z) float
}.

Definition new_buffer (w h n : Z) : Buffer := mkBuffer (w, h, n) ∅.

(** [b(x, y, stage) = v]. *)
Definition write (b : Buffer) (x y stage : Z) (v : float) : result Buffer :=
  let '(w, h, n) := extents b in
  if (0 <=? x) && (x <? w) && (0 <=? y) && (y <? h)
     && (0 <=? stage) && (stage <? n)
  then Done (mkBuffer (extents b) (<[(x, y, stage) := v]> (cells b)))
  else Undefined.

Definition pipeline_feat_size : Z := head1_w * head1_h.

(** The first loop: [num_stages += (int)n.stages.size()]. *)
Fixpoint count_stages (nodes : list Node) (num_stages : Z) : result Z :=
  match nodes with
  | [] => Done num_stages
  | n :: nodes =>
      if is_input n then count_stages nodes num_stages
      else
        num_stages ← add32 num_stages (wrap32 (Z.of_nat (length (stages n))));
        count_stages nodes num_stages
  end.

(** [for (int i = 0; i < pipeline_feat_size; i++)], from [i] on for
    [rounds] rounds. *)
Fixpoint copy_features (rounds : nat) (i : Z) (pipeline_feats : list Z)
    (stage : Z) (b : Buffer) : result Buffer :=
  match rounds with
  | O => Done b
  | S rounds =>
      let x := i ÷ 7 in
      let y := Z.rem i 7 in
      match pipeline_feats !! Z.to_nat i with
      | None => Undefined
      | Some f =>
          b ← write b x y stage (of_int f);
          copy_features rounds (i + 1) pipeline_feats stage b
      end
  end.

(** The stages of one node, in the order they are handed over. *)
Fixpoint copy_stages (ss : list Stage) (stage : Z) (b : Buffer)
  : result (Z * Buffer) :=
  match ss with
  | [] => Done (stage, b)
  | s :: ss =>
      b ← copy_features (Z.to_nat pipeline_feat_size) 0
                        (drop 7 (features s)) stage b;
      stage ← add32 stage 1;
      copy_stages ss stage b
  end.

(** The second loop over the nodes: the stages of a node are visited from
    the last to the first. *)
Fixpoint copy_nodes (nodes : list Node) (stage : Z) (b : Buffer)
  : result (Z * Buffer) :=
  match nodes with
  | [] => Done (stage, b)
  | n :: nodes =>
      if is_input n then copy_nodes nodes stage b
      else
        '(stage, b) ← copy_stages (rev (stages n)) stage b;
        copy_nodes nodes stage b
  end.

(** [configure_pipeline_features]: the buffer given to
    [set_pipeline_features]. *)
Definition configure_pipeline_features (nodes : list Node) : result Buffer :=
  num_stages ← count_stages nodes 0;
  let pipeline_features := new_buffer head1_w head1_h num_stages in
  '(stage, pipeline_features) ← copy_nodes nodes 0 pipeline_features;
  if negb (stage =? num_stages) then AssertionFailed
  else Done pipeline_features.

(** The stages in the order they get their index. *)
Definition stage_order (nodes : list Node) : list Stage :=
  flat_map (fun n => if is_input n then [] else rev (stages n)) nodes.

(** *** The stage counters *)

Lemma add32_done a b r :
  add32 a b = Done r -> r = a + b /\ in_int32 r.
Proof.
  unfold add32, in_int32.
  destruct (Z.leb_spec INT32_MIN (a + b)); simpl; [|discriminate].
  destruct (Z.leb_spec (a + b) INT32_MAX); [|discriminate].
  intros [= <-]. lia.
Qed.

Lemma copy_features_done rounds :
  forall i feats stage b b',
    copy_features rounds i feats stage b = Done b' ->
    extents b' = extents b.
Proof.
  induction rounds as [|rounds IH]; intros i feats stage b b' E; simpl in E.
  - now injection E as <-.
  - destruct (feats !! Z.to_nat i) as [f|]; [|discriminate].
    unfold write in E. destruct (extents b) as [[w h] n] eqn:Eext.
    destruct (_ && _); [|discriminate]. simpl in E.
    apply IH in E. simpl in E. congruence.
Qed.

Lemma copy_stages_done ss :
  forall stage b stage' b',
    copy_stages ss stage b = Done (stage', b') ->
    stage' = stage + Z.of_nat (length ss)
    /\ (ss <> [] -> stage' <= INT32_MAX)
    /\ extents b' = extents b.
Proof.
  induction ss as [|s ss IH]; intros stage b stage' b' E; simpl in E.
  - injection E as <- <-. split; [simpl; lia|]. split; [congruence | reflexivity].
  - destruct (copy_features _ _ _ _ _) as [b1| |] eqn:Ef; try discriminate.
    simpl in E. destruct (add32 stage 1) as [stage1| |] eqn:Ea;
      try discriminate.
    simpl in E. apply add32_done in Ea as [-> Hrange].
    apply copy_features_done in Ef.
    apply IH in E as (-> & Hmax & Hext).
    rewrite length_cons, Nat2Z.inj_succ.
    split; [lia|]. split; [|congruence].
    intros _. destruct ss as [|s' ss].
    + simpl. unfold in_int32 in Hrange. lia.
    + apply Hmax. discriminate.
Qed.

Lemma counters_agree nodes :
  forall num_stages0 stage0 b num_stages stage b',
    count_stages nodes num_stages0 = Done num_stages ->
    copy_nodes nodes stage0 b = Done (stage, b') ->
    0 <= stage0 ->
    stage - stage0 = num_stages - num_stages0 /\ stage0 <= stage.
Proof.
  induction nodes as [|n nodes IH];
    intros num_stages0 stage0 b num_stages stage b' Ec Ep Hpos;
    simpl in Ec, Ep.
  - injection Ec as <-. injection Ep as <- <-. lia.
  - destruct (is_input n); [now apply (IH _ _ b _ _ b')|].
    destruct (add32 _ _) as [ns1| |] eqn:Ea; try discriminate.
    simpl in Ec. apply add32_done in Ea as [-> _].
    destruct (copy_stages _ _ _) as [[stage1 b1]| |] eqn:Es;
      try discriminate.
    simpl in Ep. apply copy_stages_done in Es as (-> & Hmax & _).
    rewrite length_rev in *.
    assert (Hlen : wrap32 (Z.of_nat (length (stages n)))
                   = Z.of_nat (length (stages n))).
    { apply wrap32_id. unfold in_int32, INT32_MIN, INT32_MAX in *.
      destruct (stages n) as [|s ss] eqn:Ess; [simpl; lia|].
      assert (rev (s :: ss) <> []) as Hne.
      { intros N. apply (f_equal (@length Stage)) in N.
        rewrite length_rev in N. discriminate. }
      specialize (Hmax Hne). lia. }
    rewrite Hlen in Ec.
    destruct (IH _ _ _ _ _ _ Ec Ep ltac:(lia)) as [Hdiff Hle]. lia.
Qed.

Lemma add32_no_assert a b : add32 a b <> AssertionFailed.
Proof. unfold add32. destruct (_ && _); discriminate. Qed.

Lemma count_stages_no_assert nodes :
  forall num_stages, count_stages nodes num_stages <> AssertionFailed.
Proof.
  induction nodes as [|n nodes IH]; intros num_stages; simpl;
    [discriminate|].
  destruct (is_input n); [apply IH|].
  pose proof (add32_no_assert num_stages
                (wrap32 (Z.of_nat (length (stages n))))) as Ha.
  destruct (add32 _ _); simpl; [apply IH | contradiction | discriminate].
Qed.

Lemma copy_features_no_assert rounds :
  forall i feats stage b,
    copy_features rounds i feats stage b <> AssertionFailed.
Proof.
  induction rounds as [|rounds IH]; intros i feats stage b; simpl;
    [discriminate|].
  destruct (feats !! Z.to_nat i) as [f|]; [|discriminate].
  unfold write. destruct (extents b) as [[w h] n].
  destruct (_ && _); simpl; [apply IH | discriminate].
Qed.

Lemma copy_stages_no_assert ss :
  forall stage b, copy_stages ss stage b <> AssertionFailed.
Proof.
  induction ss as [|s ss IH]; intros stage b; simpl; [discriminate|].
  pose proof (copy_features_no_assert (Z.to_nat pipeline_feat_size) 0
                (drop 7 (features s)) stage b) as Hf.
  destruct (copy_features _ _ _ _ _); simpl;
    [| contradiction | discriminate].
  pose proof (add32_no_assert stage 1) as Ha.
  destruct (add32 stage 1); simpl; [apply IH | contradiction | discriminate].
Qed.

Lemma copy_nodes_no_assert nodes :
  forall stage b, copy_nodes nodes stage b <> AssertionFailed.
Proof.
  induction nodes as [|n nodes IH]; intros stage b; simpl; [discriminate|].
  destruct (is_input n); [apply IH|].
  pose proof (copy_stages_no_assert (rev (stages n)) stage b) as Hs.
  destruct (copy_stages _ _ _) as [[stage1 b1]| |]; simpl;
    [apply IH | contradiction | discriminate].
Qed.

(** The counter of the second loop always ends where the first loop
    counted to: [internal_assert(stage == num_stages)] cannot fail,
    whatever the nodes are. *)
Theorem stage_assertion_never_fails (nodes : list Node) :
  configure_pipeline_features nodes <> AssertionFailed.
Proof.
  unfold configure_pipeline_features.
  pose proof (count_stages_no_assert nodes 0) as Hc.
  destruct (count_stages nodes 0) as [num_stages| |] eqn:Ec;
    simpl; [| contradiction | discriminate].
  pose proof (copy_nodes_no_assert nodes 0
                (new_buffer head1_w head1_h num_stages)) as Hp.
  destruct (copy_nodes nodes 0 _) as [[stage b]| |] eqn:Ep;
    simpl; [| contradiction | discriminate].
  destruct (counters_agree nodes 0 0 _ _ _ _ Ec Ep ltac:(lia)) as [Hdiff _].
  destruct (Z.eqb_spec stage num_stages); [discriminate | lia].
Qed.

(** *** The layout of the buffer *)

Section Layout.

Hypothesis h7 : head1_h = 7.
Hypothesis w_pos : 0 <= head1_w.

Lemma copy_features_spec rounds :
  forall i feats stage b n,
    0 <= i -> extents b = (head1_w, head1_h, n) -> 0 <= stage < n ->
    i + Z.of_nat rounds <= head1_w * 7 ->
    i + Z.of_nat rounds <= Z.of_nat (length feats) ->
    exists b',
      copy_features rounds i feats stage b = Done b'
      /\ extents b' = extents b
      /\ forall x y k,
           cells b' !! (x, y, k)
           = if decide (k = stage /\ 0 <= x /\ 0 <= y < 7
                        /\ i <= 7 * x + y < i + Z.of_nat rounds)
             then of_int <$> feats !! Z.to_nat (7 * x + y)
             else cells b !! (x, y, k).
Proof.
  induction rounds as [|rounds IH]; intros i feats stage b n Hi Hext Hstage Hw Hlen.
  - exists b. split; [reflexivity|]. split; [reflexivity|].
    intros x y k. destruct (decide _) as [(_ & _ & _ & N)|_];
      [lia | reflexivity].
  - cbn [copy_features]. rewrite Nat2Z.inj_succ in *.
    pose proof (Z.quot_rem' i 7) as Hqr.
    pose proof (Z.rem_bound_pos i 7 Hi ltac:(lia)) as Hrem.
    pose proof (Z.quot_pos i 7 Hi ltac:(lia)) as Hquot.
    set (x0 := i ÷ 7) in *. set (y0 := Z.rem i 7) in *.
    destruct (lookup_lt_is_Some_2 feats (Z.to_nat i) ltac:(lia)) as [f Ef].
    rewrite Ef. unfold write. rewrite Hext.
    assert (Htest : (0 <=? x0) && (x0 <? head1_w) && (0 <=? y0)
                    && (y0 <? head1_h) && (0 <=? stage) && (stage <? n)
                    = true).
    { rewrite !andb_true_iff, !Z.leb_le, !Z.ltb_lt. lia. }
    rewrite Htest. cbn [mbind result_bind].
    destruct (IH (i + 1) feats stage
                 (mkBuffer (head1_w, head1_h, n)
                           (<[(x0, y0, stage) := of_int f]> (cells b))) n)
      as (b' & E & Hext' & Hcells); [lia | reflexivity | lia | lia | lia |].
    exists b'. split; [exact E|]. split; [now rewrite Hext'|].
    intros x y k. rewrite Hcells. cbn [cells].
    destruct (decide (k = stage /\ 0 <= x /\ 0 <= y < 7
                      /\ i + 1 <= 7 * x + y < i + 1 + Z.of_nat rounds))
      as [C1|C1];
      destruct (decide (k = stage /\ 0 <= x /\ 0 <= y < 7
                        /\ i <= 7 * x + y < i + Z.succ (Z.of_nat rounds)))
      as [C0|C0]; try reflexivity.
    + exfalso. apply C0. lia.
    + assert (x = x0 /\ y = y0 /\ k = stage) as (-> & -> & ->) by lia.
      rewrite lookup_insert_eq. replace (7 * x0 + y0) with i by lia.
      now rewrite Ef.
    + apply lookup_insert_ne. intros [= -> -> ->]. apply C0. lia.
Qed.

Definition long_enough (s : Stage) : Prop :=
  7 + head1_w * 7 <= Z.of_nat (length (features s)).

(** The cell [(x, y)] of the plane of a stage. *)
Definition feature_at (s : Stage) (x y : Z) : option float :=
  of_int <$> features s !! (7 + Z.to_nat (7 * x + y))%nat.

Definition in_plane (x y : Z) : Prop := 0 <= x < head1_w /\ 0 <= y < 7.

Lemma copy_stages_spec ss :
  forall stage b n,
    0 <= stage -> extents b = (head1_w, head1_h, n) ->
    stage + Z.of_nat (length ss) <= n -> n <= INT32_MAX ->
    Forall long_enough ss ->
    exists b',
      copy_stages ss stage b = Done (stage + Z.of_nat (length ss), b')
      /\ extents b' = extents b
      /\ forall x y k,
           cells b' !! (x, y, k)
           = if decide (stage <= k < stage + Z.of_nat (length ss)
                        /\ in_plane x y)
             then s ← ss !! Z.to_nat (k - stage); feature_at s x y
             else cells b !! (x, y, k).
Proof.
  unfold in_plane.
  induction ss as [|s ss IH]; intros stage b n Hstage Hext Hn Hmax Hlong.
  - exists b. cbn [copy_stages length]. rewrite Z.add_0_r.
    split; [reflexivity|]. split; [reflexivity|].
    intros x y k. destruct (decide _) as [[N _]|_]; [lia | reflexivity].
  - cbn [copy_stages]. rewrite length_cons, Nat2Z.inj_succ in *.
    apply Forall_cons in Hlong as [Hs Hlong]. unfold long_enough in Hs.
    destruct (copy_features_spec (Z.to_nat pipeline_feat_size) 0
                (drop 7 (features s)) stage b n)
      as (b1 & -> & Hext1 & Hcells1);
      [lia | exact Hext | lia
       | unfold pipeline_feat_size; rewrite h7; lia
       | unfold pipeline_feat_size; rewrite h7, length_drop; lia |].
    cbn [mbind result_bind].
    assert (Hadd : add32 stage 1 = Done (stage + 1)).
    { unfold add32, INT32_MIN, INT32_MAX in *.
      destruct (Z.leb_spec (- 2 ^ 31) (stage + 1)); [|lia].
      destruct (Z.leb_spec (stage + 1) (2 ^ 31 - 1)); [reflexivity | lia]. }
    rewrite Hadd. cbn [mbind result_bind].
    destruct (IH (stage + 1) b1 n) as (b' & E & Hext' & Hcells);
      [lia | congruence | lia | lia | exact Hlong |].
    exists b'. split.
    { rewrite E. do 2 f_equal. lia. }
    split; [congruence|].
    intros x y k. rewrite Hcells, Hcells1.
    unfold pipeline_feat_size. rewrite h7.
    destruct (decide (stage + 1 <= k < stage + 1 + Z.of_nat (length ss)
                      /\ (0 <= x < head1_w /\ 0 <= y < 7))) as [C1|C1].
    + destruct (decide _) as [_|C]; [|exfalso; apply C; lia].
      replace (Z.to_nat (k - stage)) with (S (Z.to_nat (k - (stage + 1))))
        by lia.
      reflexivity.
    + destruct (decide (k = stage /\ 0 <= x /\ 0 <= y < 7
                        /\ 0 <= 7 * x + y
                           < 0 + Z.of_nat (Z.to_nat (head1_w * 7))))
        as [C2|C2].
      * destruct (decide _) as [_|C]; [|exfalso; apply C; lia].
        destruct C2 as (-> & _). rewrite Z.sub_diag. cbn [Z.to_nat lookup].
        simpl. unfold feature_at. now rewrite lookup_drop.
      * destruct (decide _) as [C|_]; [|reflexivity].
        exfalso. destruct (decide (k = stage)) as [->|Hk].
        -- apply C2. lia.
        -- apply C1. lia.
Qed.

Lemma stage_order_cons n nodes :
  stage_order (n :: nodes)
  = (if is_input n then [] else rev (stages n)) ++ stage_order nodes.
Proof. reflexivity. Qed.

Lemma copy_nodes_spec nodes :
  forall stage b n,
    0 <= stage -> extents b = (head1_w, head1_h, n) ->
    stage + Z.of_nat (length (stage_order nodes)) <= n -> n <= INT32_MAX ->
    Forall long_enough (stage_order nodes) ->
    exists b',
      copy_nodes nodes stage b
      = Done (stage + Z.of_nat (length (stage_order nodes)), b')
      /\ extents b' = extents b
      /\ forall x y k,
           cells b' !! (x, y, k)
           = if decide (stage <= k
                          < stage + Z.of_nat (length (stage_order nodes))
                        /\ in_plane x y)
             then s ← stage_order nodes !! Z.to_nat (k - stage);
                  feature_at s x y
             else cells b !! (x, y, k).
Proof.
  induction nodes as [|nd nodes IH]; intros stage b n Hstage Hext Hn Hmax Hlong.
  - exists b. cbn [copy_nodes stage_order flat_map length].
    rewrite Z.add_0_r. split; [reflexivity|]. split; [reflexivity|].
    intros x y k. destruct (decide _) as [[N _]|_]; [lia | reflexivity].
  - cbn [copy_nodes]. rewrite stage_order_cons in *.
    destruct (is_input nd).
    { rewrite app_nil_l in *. now apply (IH stage b n). }
    rewrite length_app, Nat2Z.inj_add in *.
    apply Forall_app in Hlong as [Hhere Hlater].
    destruct (copy_stages_spec (rev (stages nd)) stage b n)
      as (b1 & -> & Hext1 & Hcells1); [lia | exact Hext | lia | lia | exact Hhere |].
    cbn [mbind result_bind].
    destruct (IH (stage + Z.of_nat (length (rev (stages nd)))) b1 n)
      as (b' & E & Hext' & Hcells);
      [lia | congruence | lia | lia | exact Hlater |].
    exists b'. split.
    { rewrite E. do 2 f_equal. lia. }
    split; [congruence|].
    intros x y k. rewrite Hcells, Hcells1.
    set (here := rev (stages nd)) in *.
    set (later := stage_order nodes) in *.
    unfold in_plane.
    destruct (decide (stage + Z.of_nat (length here) <= k
                        < stage + Z.of_nat (length here)
                          + Z.of_nat (length later)
                      /\ (0 <= x < head1_w /\ 0 <= y < 7))) as [C1|C1].
    + destruct (decide _) as [_|C]; [|exfalso; apply C; lia].
      rewrite lookup_app_r by lia. do 2 f_equal. lia.
    + destruct (decide (stage <= k < stage + Z.of_nat (length here)
                        /\ (0 <= x < head1_w /\ 0 <= y < 7))) as [C2|C2].
      * destruct (decide _) as [_|C]; [|exfalso; apply C; lia].
        rewrite lookup_app_l by lia. reflexivity.
      * destruct (decide _) as [C|_]; [|reflexivity].
        exfalso.
        destruct (Z.lt_ge_cases k (stage + Z.of_nat (length here)));
          [apply C2 | apply C1]; lia.
Qed.

Lemma count_stages_spec nodes :
  forall num_stages,
    0 <= num_stages ->
    num_stages + Z.of_nat (length (stage_order nodes)) <= INT32_MAX ->
    count_stages nodes num_stages
    = Done (num_stages + Z.of_nat (length (stage_order nodes))).
Proof.
  induction nodes as [|nd nodes IH]; intros num_stages Hpos Hmax.
  - cbn [count_stages stage_order flat_map length]. now rewrite Z.add_0_r.
  - cbn [count_stages]. rewrite stage_order_cons in *.
    destruct (is_input nd).
    { rewrite app_nil_l in *. now apply IH. }
    rewrite length_app, length_rev, Nat2Z.inj_add in *.
    rewrite wrap32_id by (unfold in_int32, INT32_MIN, INT32_MAX in *; lia).
    unfold add32.
    destruct (Z.leb_spec INT32_MIN
                (num_stages + Z.of_nat (length (stages nd))));
      [|unfold INT32_MIN in *; lia].
    destruct (Z.leb_spec (num_stages + Z.of_nat (length (stages nd)))
                INT32_MAX); [|lia].
    cbn [andb mbind result_bind]. rewrite IH by lia. f_equal. lia.
Qed.

(** With rows of seven, a buffer of [head1_w] by 7 by the number of stages
    is filled completely: plane [k] holds the features of the [k]-th
    stage, counting the nodes that are not inputs in order and the stages
    of each node from the last to the first, and its cell [(x, y)] is the
    feature number [7 * x + y] after the seven that are skipped.  Nothing
    else is written. *)
Theorem features_layout (nodes : list Node) :
  Forall long_enough (stage_order nodes) ->
  Z.of_nat (length (stage_order nodes)) <= INT32_MAX ->
  exists b,
    configure_pipeline_features nodes = Done b
    /\ extents b
       = (head1_w, head1_h, Z.of_nat (length (stage_order nodes)))
    /\ (forall k s x y,
          stage_order nodes !! k = Some s -> in_plane x y ->
          cells b !! (x, y, Z.of_nat k) = feature_at s x y
          /\ is_Some (feature_at s x y))
    /\ (forall x y k,
          is_Some (cells b !! (x, y, k)) ->
          0 <= k < Z.of_nat (length (stage_order nodes)) /\ in_plane x y).
Proof.
  intros Hlong Hmax. unfold configure_pipeline_features.
  rewrite (count_stages_spec nodes 0 ltac:(lia) ltac:(lia)).
  cbn [mbind result_bind]. rewrite Z.add_0_l.
  destruct (copy_nodes_spec nodes 0
              (new_buffer head1_w head1_h
                          (Z.of_nat (length (stage_order nodes))))
              (Z.of_nat (length (stage_order nodes))))
    as (b & -> & Hext & Hcells);
    [lia | reflexivity | lia | lia | exact Hlong |].
  cbn [mbind result_bind]. rewrite Z.add_0_l, Z.eqb_refl. cbn [negb].
  exists b. split; [reflexivity|]. split; [exact Hext|]. split.
  - intros k s x y Hk Hplane. rewrite Hcells.
    pose proof (lookup_lt_Some _ _ _ Hk) as Hlt.
    destruct (decide _) as [_|C]; [|exfalso; apply C; split; [lia | exact Hplane]].
    rewrite Z.sub_0_r, Nat2Z.id, Hk. cbn [mbind option_bind].
    split; [reflexivity|].
    unfold feature_at. apply fmap_is_Some, lookup_lt_is_Some.
    rewrite Forall_lookup in Hlong. specialize (Hlong _ _ Hk).
    unfold long_enough in Hlong. unfold in_plane in Hplane. lia.
  - intros x y k Hsome. rewrite Hcells in Hsome.
    destruct (decide _) as [[Hk Hplane]|_].
    + split; [lia | exact Hplane].
    + cbn [new_buffer cells] in Hsome. rewrite lookup_empty in Hsome.
      now destruct Hsome.
Qed.

End Layout.

End Configure.

(** One input and one node of two stages, with a plane of one row of
    seven: the last stage of the node comes first. *)
Definition two_stages : list Node :=
  [ mkNode true [mkStage []];
    mkNode false
      [ mkStage [1; 1; 1; 1; 1; 1; 1; 100; 101; 102; 103; 104; 105; 106];
        mkStage [2; 2; 2; 2; 2; 2; 2; 200; 201; 202; 203; 204; 205; 206] ] ].

Lemma features_layout_witness :
  exists b,
    configure_pipeline_features 1 7 Z (fun z => z) two_stages = Done b
    /\ extents Z b = (1, 7, Z.of_nat (length (stage_order two_stages)))
    /\ (forall k s x y,
          stage_order two_stages !! k = Some s -> in_plane 1 x y ->
          cells Z b !! (x, y, Z.of_nat k) = feature_at Z (fun z => z) s x y
          /\ is_Some (feature_at Z (fun z => z) s x y))
    /\ (forall x y k,
          is_Some (cells Z b !! (x, y, k)) ->
          0 <= k < Z.of_nat (length (stage_order two_stages))
          /\ in_plane 1 x y).
Proof.
  apply (features_layout 1 7 Z (fun z => z) eq_refl ltac:(lia) two_stages).
  - repeat constructor; vm_compute; discriminate.
  - vm_compute. discriminate.
Defined.

Example two_stages_first_plane :
  (fun b => cells Z b !! (0, 3, 0))
    <$> (match configure_pipeline_features 1 7 Z (fun z => z) two_stages with
         | Done b => Some b
         | _ => None
         end)
  = Some (Some 203).
Proof. vm_compute. reflexivity. Qed.

End Features.

(** ** The progress bar

    [struct ProgressBar] of [apps/autoscheduler/AutoSchedule.cpp]; what is
    written to the log is kept as the list of its characters. *)

Module Progress.
Local Open Scope Z_scope.

(** [counter] is a [uint32_t]; [draw_progress_bar] is [isatty(2)]. *)
Record ProgressBar : Type := mkBar {
  counter : Z;
  draw_progress_bar : bool
}.

Definition backspace : ascii := "008"%char.

Section Bar.

(** [double], and [(int)(progress * 78)]. *)
Variable double : Type.
Variable pos_of : double -> Z.

Definition bits : Z := 11.

(** ["/-\\|"[(counter >> bits) % 4]]. *)
Definition spinner (counter : Z) : ascii :=
  nth (Z.to_nat (Z.shiftr counter bits mod 4))
      ["/"; "-"; "\"; "|"]%char "000"%char.

(** What the loop over [j] writes for one [j]. *)
Definition cell (pos counter j : Z) : ascii :=
  if j <? pos then "."%char
  else if j - 1 <? pos then spinner counter
  else " "%char.

(** [void set(double progress)]: the bar afterwards and what is
    written. *)
Definition set (pb : ProgressBar) (progress : double)
  : ProgressBar * list ascii :=
  if negb (draw_progress_bar pb) then (pb, [])
  else
    let counter := (counter pb + 1) mod 2 ^ 32 in
    let pb := mkBar counter (draw_progress_bar pb) in
    if negb (Z.land counter (Z.shiftl 1 bits - 1) =? 0) then (pb, [])
    else
      let pos := pos_of progress in
      (pb,
       ["["%char]
       ++ map (fun j => cell pos counter (Z.of_nat j)) (seq 0 78)
       ++ ["]"%char]
       ++ replicate 80 backspace).

(** [void clear()]. *)
Definition clear (pb : ProgressBar) : list ascii :=
  if negb (counter pb =? 0)
  then replicate 80 " "%char ++ replicate 80 backspace
  else [].

(** Calls of [set] one after the other. *)
Fixpoint sets (pb : ProgressBar) (calls : list double)
  : ProgressBar * list ascii :=
  match calls with
  | [] => (pb, [])
  | progress :: calls =>
      let '(pb, out) := set pb progress in
      let '(pb, out') := sets pb calls in
      (pb, out ++ out')
  end.

(** The [n] cells of a bar at position [pos]: the dots, then the spinner
    and the blanks when the position is inside the bar. *)
Definition bar (n : nat) (pos counter : Z) : list ascii :=
  replicate (Z.to_nat (Z.min (Z.max pos 0) (Z.of_nat n))) "."%char
  ++ (if decide (0 <= pos < Z.of_nat n)
      then spinner counter
           :: replicate (Z.to_nat (Z.of_nat n - 1 - pos)) " "%char
      else if decide (pos < 0) then replicate n " "%char else []).

Lemma cells_bar pos counter n :
  map (fun j => cell pos counter (Z.of_nat j)) (seq 0 n) = bar n pos counter.
Proof.
  induction n as [|n IH].
  - unfold bar. cbn [seq map]. change (Z.of_nat 0) with 0.
    replace (Z.to_nat (Z.min (Z.max pos 0) 0)) with 0%nat by lia.
    destruct (decide (0 <= pos < 0)); [lia|].
    destruct (decide (pos < 0)); reflexivity.
  - rewrite seq_S, map_app, IH. cbn [map Nat.add]. unfold bar, cell.
    rewrite Nat2Z.inj_succ.
    destruct (Z.ltb_spec (Z.of_nat n) pos) as [Hlt|Hge].
    + (* the new cell is a dot *)
      destruct (decide (0 <= pos < Z.of_nat n)); [lia|].
      destruct (decide (pos < 0)); [lia|].
      destruct (decide (0 <= pos < Z.succ (Z.of_nat n))); [lia|].
      rewrite !app_nil_r.
      replace (Z.to_nat (Z.min (Z.max pos 0) (Z.succ (Z.of_nat n))))
        with (S (Z.to_nat (Z.min (Z.max pos 0) (Z.of_nat n)))) by lia.
      now rewrite replicate_S_end.
    + destruct (Z.ltb_spec (Z.of_nat n - 1) pos) as [Hspin|Hblank].
      * (* the new cell is the spinner *)
        assert (pos = Z.of_nat n) as -> by lia.
        destruct (decide (0 <= Z.of_nat n < Z.of_nat n)); [lia|].
        destruct (decide (Z.of_nat n < 0)); [lia|].
        destruct (decide (0 <= Z.of_nat n < Z.succ (Z.of_nat n))); [|lia].
        rewrite app_nil_r.
        replace (Z.to_nat (Z.succ (Z.of_nat n) - 1 - Z.of_nat n))
          with 0%nat by lia.
        do 2 f_equal. lia.
      * (* the new cell is a blank *)
        destruct (decide (0 <= pos < Z.of_nat n)) as [Hin|Hout].
        -- destruct (decide (0 <= pos < Z.succ (Z.of_nat n))); [|lia].
           replace (Z.to_nat (Z.succ (Z.of_nat n) - 1 - pos))
             with (S (Z.to_nat (Z.of_nat n - 1 - pos))) by lia.
           rewrite replicate_S_end, <- app_assoc. cbn [app].
           do 2 f_equal. lia.
        -- destruct (decide (pos < 0)); [|lia].
           destruct (decide (0 <= pos < Z.succ (Z.of_nat n))); [lia|].
           rewrite replicate_S_end, <- app_assoc.
           do 2 f_equal. lia.
Qed.

Lemma bar_length n pos counter : length (bar n pos counter) = n.
Proof.
  rewrite <- cells_bar, length_map. apply length_seq.
Qed.

(** Off a terminal [set] does nothing.  On a terminal it counts the call
    and draws on every 2048th one only: a bracket, 78 cells, a bracket and
    80 backspaces, 160 characters in all.  The cells are dots up to the
    position, then the spinner and blanks; a negative position gives
    blanks only and a position of 78 or more dots only. *)
Theorem set_draws_bar (pb : ProgressBar) (progress : double) :
  let pb' := fst (set pb progress) in
  let out := snd (set pb progress) in
  draw_progress_bar pb' = draw_progress_bar pb
  /\ (draw_progress_bar pb = false -> pb' = pb /\ out = [])
  /\ (draw_progress_bar pb = true ->
      counter pb' = (counter pb + 1) mod 2 ^ 32
      /\ (counter pb' mod 2048 <> 0 -> out = [])
      /\ (counter pb' mod 2048 = 0 ->
          out = "["%char :: bar 78 (pos_of progress) (counter pb')
                ++ "]"%char :: replicate 80 backspace
          /\ length out = 160%nat)).
Proof.
  unfold set. destruct (draw_progress_bar pb) eqn:Hdraw; cbn [negb].
  2:{ cbn [fst snd]. split; [exact Hdraw|]. split; [auto | discriminate]. }
  assert (Hland : forall c, Z.land c (Z.shiftl 1 bits - 1) = c mod 2048).
  { intros c. change (Z.shiftl 1 bits - 1) with (Z.ones 11).
    now rewrite Z.land_ones by lia. }
  rewrite Hland.
  destruct (Z.eqb_spec (((counter pb + 1) mod 2 ^ 32) mod 2048) 0)
    as [Hzero|Hnz]; cbn [negb fst snd counter draw_progress_bar].
  - split; [reflexivity|]. split; [discriminate|]. intros _.
    split; [reflexivity|]. split; [intros N; contradiction|]. intros _.
    rewrite cells_bar. split; [reflexivity|].
    cbn [app length]. rewrite length_app, bar_length. reflexivity.
  - split; [reflexivity|]. split; [discriminate|]. intros _.
    split; [reflexivity|]. split; [reflexivity|]. intros N. contradiction.
Qed.

(** Off a terminal nothing is ever written: no call of [set] writes or
    counts, and [clear] after them writes nothing either.  [clear] writes
    exactly when the counter is not zero, on a terminal or not, and what
    it writes then are 80 blanks and 80 backspaces. *)
Theorem quiet_off_terminal (pb : ProgressBar) (calls : list double) :
  (draw_progress_bar pb = false ->
   sets pb calls = (pb, [])
   /\ (counter pb = 0 -> clear (fst (sets pb calls)) = []))
  /\ (counter pb = 0 <-> clear pb = [])
  /\ (counter pb <> 0 ->
      clear pb = replicate 80 " "%char ++ replicate 80 backspace).
Proof.
  split; [|split].
  - intros Hdraw.
    assert (Hsets : sets pb calls = (pb, [])).
    { induction calls as [|progress calls IH]; [reflexivity|].
      cbn [sets]. unfold set. rewrite Hdraw. cbn [negb].
      now rewrite IH. }
    split; [exact Hsets|]. intros Hzero. rewrite Hsets. unfold clear.
    cbn [fst]. now rewrite Hzero.
  - unfold clear. destruct (Z.eqb_spec (counter pb) 0) as [Hz|Hnz];
      cbn [negb].
    + split; [reflexivity | intros _; exact Hz].
    + split; [contradiction | discriminate].
  - intros Hnz. unfold clear.
    destruct (Z.eqb_spec (counter pb) 0); [contradiction | reflexivity].
Qed.

End Bar.

Lemma set_draws_bar_witness :
  snd (set Z (fun p => p) (mkBar 2047 true) 3)
  = "["%char :: bar 78 3 2048 ++ "]"%char :: replicate 80 backspace
  /\ length (snd (set Z (fun p => p) (mkBar 2047 true) 3)) = 160%nat.
Proof.
  pose proof (set_draws_bar Z (fun p => p) (mkBar 2047 true) 3)
    as (_ & _ & Hon).
  destruct (Hon eq_refl) as (_ & _ & Hdraws).
  apply Hdraws. reflexivity.
Defined.

Lemma quiet_off_terminal_witness :
  sets Z (fun p => p) (mkBar 0 false) [1; 2; 3] = (mkBar 0 false, [])
  /\ clear (fst (sets Z (fun p => p) (mkBar 0 false) [1; 2; 3])) = [].
Proof.
  pose proof (quiet_off_terminal Z (fun p => p) (mkBar 0 false) [1; 2; 3])
    as [Hoff _].
  destruct (Hoff eq_refl) as [Hsets Hclear].
  split; [exact Hsets | now apply Hclear].
Defined.

End Progress.
